(** * Eclat frequent-itemset mining and association rules

    A shallow embedding of [EclatAlgorithm] from
    [training-job/train_job.py] (the same class is duplicated in [app.py]).

    Python values are modelled as the interpreter holds them:
    - [float] is an IEEE-754 binary64 number, here Rocq's primitive [float];
      [x / y] on floats raises [ZeroDivisionError] when [y == 0.0];
    - [int] is an unbounded integer, [Z]; [len] yields a [nat];
    - a [set] of transaction ids is a [gset nat], a [frozenset] of items a
      [gset string];
    - the [defaultdict] of tid-lists is an association list in insertion
      order (Python dictionaries iterate in insertion order);
    - the dictionary keyed by [frozenset] is a [gmap (gset string) float];
    - exceptions are the [Raise] branch of [result]. *)

From Stdlib Require Import ZArith QArith Qround Qpower Floats Lia Lqa Ascii.
From Stdlib Require Import DecimalString DecimalZ DecimalPos.
From stdpp Require Import gmap strings list sorting.

#[local] Set Warnings "-inexact-float".
#[local] Open Scope Z_scope.

(** ** Exceptions *)

Inductive exn : Set :=
  | ZeroDivisionError
  | KeyError
  | OverflowError
  | ValueError.

Inductive result (A : Type) : Type :=
  | Ok (a : A)
  | Raise (e : exn).
Arguments Ok {A} a.
Arguments Raise {A} e.

#[global] Instance result_ret : MRet result := fun _ a => Ok a.
#[global] Instance result_bind : MBind result := fun _ _ f m =>
  match m with
  | Ok a => f a
  | Raise e => Raise e
  end.

(** A [for] loop whose body appends to one output list: the bodies run in
    order and the first exception aborts the loop. *)
Fixpoint for_list {A B : Type} (body : A → result (list B)) (l : list A)
  : result (list B) :=
  match l with
  | [] => Ok []
  | x :: l' => ys ← body x; zs ← for_list body l'; Ok (ys ++ zs)
  end.

(** ** Python numbers *)

Module Py.

(** [float(z)]: the nearest binary64 number, ties to even. *)
Definition float_of_int (z : Z) : float :=
  SF2Prim (binary_normalize prec emax z 0 false).

(** [int(x)]: truncation toward zero; [nan] and the infinities raise. *)
Definition int_of_float (x : float) : result Z :=
  match Prim2SF x with
  | S754_nan => Raise ValueError
  | S754_infinity _ => Raise OverflowError
  | S754_zero _ => Ok 0
  | S754_finite s m e => Ok (cond_Zopp s (Z.shiftl (Z.pos m) e))
  end.

(** [x / y] on two floats. *)
Definition float_truediv (x y : float) : result float :=
  if PrimFloat.eqb y 0%float then Raise ZeroDivisionError
  else Ok (PrimFloat.div x y).

(** [a / b] on two ints. CPython returns the correctly rounded quotient;
    for operands below [2^53], which every [len] is, that is the quotient
    of the two conversions. *)
Definition int_truediv (a b : Z) : result float :=
  if Z.eqb b 0 then Raise ZeroDivisionError
  else Ok (PrimFloat.div (float_of_int a) (float_of_int b)).

(** [x * n] with a float and an int: the int is converted first. *)
Definition float_mul_int (x : float) (n : Z) : float :=
  PrimFloat.mul x (float_of_int n).

(** [itertools.combinations(l, k)], in the order itertools yields them. *)
Fixpoint combinations {A : Type} (l : list A) (k : nat) : list (list A) :=
  match k with
  | O => [[]]
  | S k' =>
      match l with
      | [] => []
      | x :: l' => map (cons x) (combinations l' k') ++ combinations l' k
      end
  end.

(** [sorted] on strings (code-point order, a stable merge sort). *)
Definition sorted (l : list string) : list string := merge_sort String.le l.

End Py.

(** ** Data *)

(** An entry of [self.frequent_itemsets]. *)
Record entry : Type := Entry {
  itemset : list string;
  support : float;
  tid_list : gset nat
}.

(** An entry of [self.rules]. *)
Record rule : Type := Rule {
  antecedent : list string;
  consequent : list string;
  rule_support : float;
  confidence : float;
  lift : float
}.

(** The fields of an [EclatAlgorithm] object. *)
Record EclatAlgorithm : Type := Eclat {
  min_support : float;
  min_confidence : float;
  frequent_itemsets : list entry;
  rules : list rule;
  tid_lists : list (string * gset nat);
  num_transactions : nat
}.

(** [EclatAlgorithm.__init__]. *)
Definition init : EclatAlgorithm :=
  {| min_support := 0.05%float;
     min_confidence := 0.3%float;
     frequent_itemsets := [];
     rules := [];
     tid_lists := [];
     num_transactions := 0%nat |}.

(** A fresh object whose two thresholds were then assigned. *)
Definition configured (ms mc : float) : EclatAlgorithm :=
  {| min_support := ms;
     min_confidence := mc;
     frequent_itemsets := [];
     rules := [];
     tid_lists := [];
     num_transactions := 0%nat |}.

(** ** Dictionaries in insertion order *)

(** [d[item].add(tid)] on a [defaultdict(set)]. *)
Fixpoint tid_add (it : string) (tid : nat) (d : list (string * gset nat))
  : list (string * gset nat) :=
  match d with
  | [] => [(it, {[tid]})]
  | (k, v) :: d' =>
      if String.eqb k it then (k, v ∪ {[tid]}) :: d'
      else (k, v) :: tid_add it tid d'
  end.

(** [d[item]] on a plain dictionary. *)
Fixpoint dict_get (d : list (string * gset nat)) (it : string)
  : result (gset nat) :=
  match d with
  | [] => Raise KeyError
  | (k, v) :: d' => if String.eqb k it then Ok v else dict_get d' it
  end.

(** ** [_build_tid_lists] *)

Fixpoint build_from (tid : nat) (transactions : list (list string))
  (d : list (string * gset nat)) : list (string * gset nat) :=
  match transactions with
  | [] => d
  | t :: ts =>
      build_from (S tid) ts (foldl (fun d it => tid_add it tid d) d t)
  end.

Definition _build_tid_lists (transactions : list (list string))
  : list (string * gset nat) :=
  build_from 0 transactions [].

(** ** [_eclat_recursive]

    The loop [for i, item in enumerate(remaining_items)] with the recursive
    call on [remaining_items[i+1:]] is a recursion on the list: at each
    position the tail is exactly that slice. The result is the list of
    entries the call appends to [self.frequent_itemsets], in order. *)

Definition max_size : nat := 5.

Fixpoint _eclat_recursive (n : nat) (frequent_items : list (string * gset nat))
  (min_sup_count : Z) (prefix : list string) (prefix_tids : gset nat)
  (remaining_items : list string) : result (list entry) :=
  match remaining_items with
  | [] => Ok []
  | it :: rest =>
      tids ← dict_get frequent_items it;
      let new_tids := prefix_tids ∩ tids in
      here ← (if Z.leb min_sup_count (Z.of_nat (size new_tids)) then
                let new_itemset := prefix ++ [it] in
                sup ← Py.int_truediv (Z.of_nat (size new_tids)) (Z.of_nat n);
                deeper ← (if Nat.ltb (length new_itemset) max_size then
                            _eclat_recursive n frequent_items min_sup_count
                              new_itemset new_tids rest
                          else Ok []);
                Ok (Entry new_itemset sup new_tids :: deeper)
              else Ok []);
      later ← _eclat_recursive n frequent_items min_sup_count
                prefix prefix_tids rest;
      Ok (here ++ later)
  end.

(** ** [_generate_rules] *)

(** The lookup table [itemset_support]. *)
Definition support_table (fis : list entry) : gmap (gset string) float :=
  foldl (fun m fs => <[list_to_set (itemset fs) := support fs]> m) ∅ fis.

Definition default_consequent_support : float := 0.0001%float.

(** The body of the innermost loop, for one antecedent. *)
Definition split_rule (table : gmap (gset string) float) (min_conf : float)
  (its : list string) (itemset_sup : float) (ante : list string)
  : result (list rule) :=
  let cons := filter (fun it => it ∉ ante) its in
  match table !! (list_to_set ante : gset string) with
  | Some antecedent_sup =>
      conf ← Py.float_truediv itemset_sup antecedent_sup;
      if PrimFloat.leb min_conf conf then
        let consequent_sup :=
          default default_consequent_support
            (table !! (list_to_set cons : gset string)) in
        lft ← Py.float_truediv conf consequent_sup;
        Ok [Rule ante cons itemset_sup conf lft]
      else Ok []
  | None => Ok []
  end.

(** The body of the loop over [self.frequent_itemsets]. *)
Definition itemset_rules (table : gmap (gset string) float) (min_conf : float)
  (fs : entry) : result (list rule) :=
  if Nat.ltb (length (itemset fs)) 2 then Ok []
  else
    for_list
      (fun i => for_list (split_rule table min_conf (itemset fs) (support fs))
                  (Py.combinations (itemset fs) i))
      (seq 1 (length (itemset fs) - 1)).

Definition _generate_rules (self : EclatAlgorithm) : result EclatAlgorithm :=
  let table := support_table (frequent_itemsets self) in
  rs ← for_list (itemset_rules table (min_confidence self))
         (frequent_itemsets self);
  Ok {| min_support := min_support self;
        min_confidence := min_confidence self;
        frequent_itemsets := frequent_itemsets self;
        rules := rs;
        tid_lists := tid_lists self;
        num_transactions := num_transactions self |}.

(** ** [fit] *)

(** The loop of step 3, [for i, item in enumerate(items)], whose body
    passes [items[i+1:]]. *)
Fixpoint explore (n : nat) (frequent_items : list (string * gset nat))
  (min_sup_count : Z) (items : list string) : result (list entry) :=
  match items with
  | [] => Ok []
  | it :: rest =>
      tids ← dict_get frequent_items it;
      here ← _eclat_recursive n frequent_items min_sup_count [it] tids rest;
      later ← explore n frequent_items min_sup_count rest;
      Ok (here ++ later)
  end.

(** Steps 1 to 3 of [fit]: the object as it is when [_generate_rules] is
    called. *)
Definition mine (self : EclatAlgorithm) (transactions : list (list string))
  : result EclatAlgorithm :=
  let n := length transactions in
  min_sup_count ←
    Py.int_of_float (Py.float_mul_int (min_support self) (Z.of_nat n));
  let tl := _build_tid_lists transactions in
  let frequent_items :=
    filter (fun kv => min_sup_count ≤ Z.of_nat (size kv.2)) tl in
  singles ← for_list
    (fun kv => sup ← Py.int_truediv (Z.of_nat (size kv.2)) (Z.of_nat n);
               Ok [Entry [kv.1] sup kv.2])
    frequent_items;
  let items := Py.sorted (frequent_items.*1) in
  larger ← explore n frequent_items min_sup_count items;
  Ok {| min_support := min_support self;
        min_confidence := min_confidence self;
        frequent_itemsets := frequent_itemsets self ++ singles ++ larger;
        rules := rules self;
        tid_lists := tl;
        num_transactions := n |}.

Definition fit (self : EclatAlgorithm) (transactions : list (list string))
  : result EclatAlgorithm :=
  self' ← mine self transactions; _generate_rules self'.

(** ** [get_results] *)

Record results : Type := Results {
  res_frequent_itemsets : list (list string * float);
  res_rules : list rule;
  num_rules : nat;
  num_itemsets : nat
}.

Definition get_results (self : EclatAlgorithm) : results :=
  {| res_frequent_itemsets :=
       map (fun fs => (itemset fs, support fs)) (frequent_itemsets self);
     res_rules := rules self;
     num_rules := length (rules self);
     num_itemsets := length (frequent_itemsets self) |}.

(** * Specification-level notions *)

(** An item is observed when some transaction contains it. *)
Definition observed (txs : list (list string)) (it : string) : Prop :=
  ∃ t, t ∈ txs ∧ it ∈ t.

(** The ids, counted from [tid], of the transactions that contain every
    item of [S]. *)
Fixpoint cover_from (tid : nat) (txs : list (list string)) (S : gset string)
  : gset nat :=
  match txs with
  | [] => ∅
  | t :: ts =>
      (if decide (S ⊆ list_to_set t) then {[tid]} else ∅)
      ∪ cover_from (Datatypes.S tid) ts S
  end.

Definition cover (txs : list (list string)) (S : gset string) : gset nat :=
  cover_from 0 txs S.

(** The number of transactions containing every item of [S]. *)
Definition support_count (txs : list (list string)) (S : gset string) : nat :=
  length (filter (λ t, S ⊆ list_to_set t) txs).

(** The value stored under a key, the empty set when the key is absent. *)
Definition dict_val (d : list (string * gset nat)) (k : string) : gset nat :=
  match dict_get d k with
  | Ok v => v
  | Raise _ => ∅
  end.

(** The strict order on items. *)
Definition item_lt (a b : string) : Prop := String.le a b ∧ a ≠ b.

(** * The result monad and the loops *)

Lemma bind_Ok_inv {A B : Type} (f : A → result B) (m : result A) (b : B) :
  m ≫= f = Ok b → ∃ a, m = Ok a ∧ f a = Ok b.
Proof. destruct m as [a|e]; simpl; [eauto | discriminate]. Qed.

Lemma bind_Raise_inv {A B : Type} (f : A → result B) (m : result A) (e : exn) :
  m ≫= f = Raise e → m = Raise e ∨ ∃ a, m = Ok a ∧ f a = Raise e.
Proof. destruct m as [a|e']; simpl; [eauto | intros [= ->]; eauto]. Qed.

Ltac inv_bind H :=
  let a := fresh "a" in
  let Ha := fresh "Ha" in
  apply bind_Ok_inv in H; destruct H as (a & Ha & H).

Lemma for_list_Ok_elem {A B : Type} (body : A → result (list B)) l out :
  for_list body l = Ok out →
  ∀ y, y ∈ out ↔ ∃ x ys, x ∈ l ∧ body x = Ok ys ∧ y ∈ ys.
Proof.
  revert out. induction l as [|x l IH]; simpl; intros out H y.
  - injection H as <-. split; [by intros ?%elem_of_nil|].
    by intros (? & ? & ?%elem_of_nil & _).
  - inv_bind H. inv_bind H. injection H as <-.
    rewrite elem_of_app, (IH _ Ha0). split.
    + intros [Hy | (x' & ys & Hx' & Hb & Hy)].
      * exists x, a. by rewrite elem_of_cons; eauto.
      * exists x', ys. rewrite elem_of_cons. eauto.
    + intros (x' & ys & [-> | Hx']%elem_of_cons & Hb & Hy).
      * left. congruence.
      * right. eauto.
Qed.

Lemma for_list_Ok_all {A B : Type} (body : A → result (list B)) l out :
  for_list body l = Ok out → ∀ x, x ∈ l → ∃ ys, body x = Ok ys.
Proof.
  revert out. induction l as [|x l IH]; simpl; intros out H y Hy.
  - by apply elem_of_nil in Hy.
  - inv_bind H. inv_bind H.
    apply elem_of_cons in Hy as [-> | Hy]; [eauto|]. by eapply IH.
Qed.

Lemma for_list_total {A B : Type} (body : A → result (list B)) l :
  (∀ x, x ∈ l → ∃ ys, body x = Ok ys) → ∃ out, for_list body l = Ok out.
Proof.
  induction l as [|x l IH]; simpl; intros H; [eauto|].
  destruct (H x) as [ys ->]; [left|].
  destruct IH as [zs ->]; [intros; apply H; by right|].
  simpl. eauto.
Qed.

Lemma for_list_Raise {A B : Type} (body : A → result (list B)) l e :
  for_list body l = Raise e → ∃ x, x ∈ l ∧ body x = Raise e.
Proof.
  induction l as [|x l IH]; simpl; [discriminate|].
  destruct (body x) as [ys|e'] eqn:Hb; simpl.
  - destruct (for_list body l) as [zs|e'']; simpl; [discriminate|].
    intros [= ->]. destruct IH as (x' & ? & ?); [done|].
    exists x'. split; [by right | done].
  - intros [= ->]. exists x. split; [left | done].
Qed.

(** * Dictionaries *)

Lemma string_eqb_decide (a b : string) :
  String.eqb a b = bool_decide (a = b).
Proof.
  destruct (String.eqb_spec a b); symmetry;
    [by apply bool_decide_eq_true | by apply bool_decide_eq_false].
Qed.

Lemma dict_get_Ok_elem d k v : dict_get d k = Ok v → (k, v) ∈ d.
Proof.
  induction d as [|[k' v'] d IH]; simpl; [discriminate|].
  rewrite string_eqb_decide. case_bool_decide as Hk.
  - intros [= ->]. subst. left.
  - intros ?. right. auto.
Qed.

Lemma dict_get_elem d k v : NoDup d.*1 → (k, v) ∈ d → dict_get d k = Ok v.
Proof.
  induction d as [|[k' v'] d IH]; simpl; [by intros _ ?%elem_of_nil|].
  rewrite NoDup_cons. intros [Hk' Hnd].
  rewrite string_eqb_decide, elem_of_cons. intros [[= -> ->] | Hin].
  - by rewrite bool_decide_eq_true_2.
  - rewrite bool_decide_eq_false_2; [auto|].
    intros ->. apply Hk'. apply list_elem_of_fmap. by exists (k, v).
Qed.

Lemma dict_get_key d k : k ∈ d.*1 ↔ ∃ v, dict_get d k = Ok v.
Proof.
  induction d as [|[k' v'] d IH]; simpl.
  - split; [by intros ?%elem_of_nil | by intros [? ?]].
  - rewrite string_eqb_decide, elem_of_cons. case_bool_decide as Hk.
    + split; eauto.
    + rewrite IH. split; [intros [->|?]; [done|auto] | auto].
Qed.

Lemma dict_get_exn d k e : dict_get d k = Raise e → e = KeyError ∧ k ∉ d.*1.
Proof.
  intros H. split.
  - induction d as [|[k' v'] d IH]; simpl in *; [congruence|].
    destruct (String.eqb k' k); [discriminate | auto].
  - rewrite dict_get_key. intros [v Hv]. congruence.
Qed.

Lemma dict_val_get d k v : dict_get d k = Ok v → dict_val d k = v.
Proof. unfold dict_val. by intros ->. Qed.

Lemma NoDup_fst_filter (P : string * gset nat → Prop)
    `{!∀ kv, Decision (P kv)} (d : list (string * gset nat)) :
  NoDup d.*1 → NoDup (filter P d).*1.
Proof.
  induction d as [|kv d IH]; [done|].
  rewrite fmap_cons, NoDup_cons. intros [Hk Hnd].
  rewrite filter_cons. case_decide; [|auto].
  rewrite fmap_cons. apply NoDup_cons. split; [|auto].
  intros (kv' & Hkv' & [_ Hin]%list_elem_of_filter)%list_elem_of_fmap.
  apply Hk. apply list_elem_of_fmap. eauto.
Qed.

Lemma dict_get_filter (P : string * gset nat → Prop) `{!∀ kv, Decision (P kv)}
    d k v :
  NoDup d.*1 → dict_get d k = Ok v → P (k, v) → dict_get (filter P d) k = Ok v.
Proof.
  intros Hnd Hg HP. apply dict_get_elem; [by apply NoDup_fst_filter|].
  apply list_elem_of_filter. split; [done|]. by apply dict_get_Ok_elem.
Qed.

(** * Covers *)

Lemma elem_of_cover_from tid txs S i :
  i ∈ cover_from tid txs S ↔
  ∃ j t, i = (tid + j)%nat ∧ txs !! j = Some t ∧ S ⊆ list_to_set t.
Proof.
  revert tid. induction txs as [|t ts IH]; intros tid; simpl.
  - split; [set_solver|]. by intros (j & t & _ & ? & _).
  - rewrite elem_of_union, IH. split.
    + intros [Hi | (j & t' & -> & Hj & HS)].
      * case_decide; [|set_solver]. apply elem_of_singleton in Hi as ->.
        exists 0%nat, t. split; [lia | done].
      * exists (Datatypes.S j), t'. split; [lia | done].
    + intros (j & t' & -> & Hj & HS). destruct j as [|j]; simpl in Hj.
      * injection Hj as ->. left. rewrite decide_True by done.
        apply elem_of_singleton. lia.
      * right. exists j, t'. split; [lia | done].
Qed.

Lemma cover_from_union tid txs S1 S2 :
  cover_from tid txs (S1 ∪ S2) = cover_from tid txs S1 ∩ cover_from tid txs S2.
Proof.
  apply set_eq. intros i.
  rewrite elem_of_intersection, !elem_of_cover_from. split.
  - intros (j & t & -> & Hj & HS). split; exists j, t; set_solver.
  - intros [(j & t & -> & Hj & HS) (j' & t' & Hjj & Hj' & HS')].
    assert (j' = j) as -> by lia. exists j, t. set_solver.
Qed.

Lemma cover_from_mono tid txs S1 S2 :
  S1 ⊆ S2 → cover_from tid txs S2 ⊆ cover_from tid txs S1.
Proof.
  intros HS i. rewrite !elem_of_cover_from.
  intros (j & t & -> & Hj & HS2). exists j, t. set_solver.
Qed.

Lemma size_cover_from tid txs S :
  size (cover_from tid txs S) = support_count txs S.
Proof.
  unfold support_count. revert tid.
  induction txs as [|t ts IH]; intros tid; simpl; [done|].
  rewrite filter_cons. rewrite size_union.
  - rewrite IH. destruct (decide (S ⊆ list_to_set t));
      [rewrite size_singleton | rewrite size_empty]; done.
  - intros i Hi (j & t' & -> & _)%elem_of_cover_from.
    case_decide; [|set_solver]. apply elem_of_singleton in Hi. lia.
Qed.

Lemma size_cover txs S : size (cover txs S) = support_count txs S.
Proof. apply size_cover_from. Qed.

Lemma support_count_le txs S : (support_count txs S ≤ length txs)%nat.
Proof. apply length_filter. Qed.

Lemma cover_singleton_observed txs it :
  cover txs {[it]} ≠ ∅ ↔ observed txs it.
Proof.
  unfold cover, observed. split.
  - intros [i Hi]%set_choose_L.
    apply elem_of_cover_from in Hi as (j & t & _ & Hj & HS).
    exists t. split; [by eapply list_elem_of_lookup_2|].
    apply singleton_subseteq_l in HS. by apply elem_of_list_to_set in HS.
  - intros (t & [j Hj]%list_elem_of_lookup_1 & Hit).
    apply (non_empty_inhabited_L j). apply elem_of_cover_from.
    exists j, t. split; [done|]. split; [done|].
    apply singleton_subseteq_l. by apply elem_of_list_to_set.
Qed.

(** * [_build_tid_lists] builds the vertical index *)

Lemma tid_add_keys it tid d :
  (tid_add it tid d).*1 = if decide (it ∈ d.*1) then d.*1 else d.*1 ++ [it].
Proof.
  induction d as [|[k v] d IH]; [done|].
  cbn [tid_add]. rewrite string_eqb_decide, !fmap_cons. cbn [fst].
  case_bool_decide as Hk.
  - subst. by rewrite decide_True by left.
  - rewrite fmap_cons, IH. cbn [fst].
    destruct (decide (it ∈ d.*1)) as [Hin|Hin].
    + by rewrite decide_True by (by right).
    + rewrite decide_False; [done|].
      rewrite elem_of_cons. intros [->|?]; done.
Qed.

Lemma tid_add_NoDup it tid d : NoDup d.*1 → NoDup (tid_add it tid d).*1.
Proof.
  intros Hnd. rewrite tid_add_keys. case_decide as Hin; [done|].
  apply NoDup_app. split; [done|]. split; [|apply NoDup_singleton].
  intros x Hx ->%list_elem_of_singleton. done.
Qed.

Lemma tid_add_val it tid d k :
  dict_val (tid_add it tid d) k =
  dict_val d k ∪ (if decide (k = it) then {[tid]} else ∅).
Proof.
  unfold dict_val. induction d as [|[k' v'] d IH]; simpl.
  - rewrite string_eqb_decide. case_bool_decide; subst.
    + rewrite decide_True by done. set_solver.
    + rewrite decide_False by done. set_solver.
  - rewrite string_eqb_decide. case_bool_decide as Hk'; simpl.
    + subst k'. rewrite string_eqb_decide.
      case_bool_decide; subst.
      * by rewrite decide_True.
      * rewrite decide_False by done. set_solver.
    + rewrite string_eqb_decide. case_bool_decide; [|done].
      subst k'. rewrite decide_False by done. set_solver.
Qed.

(** A dictionary is well formed when its keys are distinct and no stored
    set is empty. *)
Definition dict_wf (d : list (string * gset nat)) : Prop :=
  NoDup d.*1 ∧ ∀ k, k ∈ d.*1 ↔ dict_val d k ≠ ∅.

Lemma tid_add_wf it tid d : dict_wf d → dict_wf (tid_add it tid d).
Proof.
  intros [Hnd Hne]. split; [by apply tid_add_NoDup|].
  intros k. rewrite tid_add_val, tid_add_keys.
  destruct (decide (k = it)) as [->|Hk].
  - split; [intros _; set_solver|]. intros _.
    case_decide; [done|]. apply elem_of_app. right. left.
  - assert (k ∈ (if decide (it ∈ d.*1) then d.*1 else d.*1 ++ [it])
            ↔ k ∈ d.*1) as ->.
    { case_decide; [done|]. rewrite elem_of_app, list_elem_of_singleton.
      naive_solver. }
    rewrite Hne. by rewrite (right_id_L ∅ (∪)).
Qed.

Lemma foldl_tid_add_wf tid t d :
  dict_wf d → dict_wf (foldl (λ d it, tid_add it tid d) d t).
Proof.
  revert d. induction t as [|it t IH]; simpl; intros d Hd; [done|].
  by apply IH, tid_add_wf.
Qed.

Lemma foldl_tid_add_val tid t d k :
  dict_val (foldl (λ d it, tid_add it tid d) d t) k =
  dict_val d k ∪ (if decide (k ∈ t) then {[tid]} else ∅).
Proof.
  revert d. induction t as [|it t IH]; cbn [foldl]; intros d.
  - destruct (decide (k ∈ [])) as [[]%elem_of_nil|]. set_solver.
  - rewrite IH, tid_add_val.
    destruct (decide (k = it)) as [->|Hk].
    + rewrite (decide_True (P := it ∈ it :: t)) by left.
      case_decide; set_solver.
    + destruct (decide (k ∈ t)) as [Hin|Hin].
      * rewrite (decide_True (P := k ∈ it :: t)) by (by right). set_solver.
      * rewrite (decide_False (P := k ∈ it :: t)); [set_solver|].
        rewrite elem_of_cons. naive_solver.
Qed.

Lemma build_from_wf tid txs d : dict_wf d → dict_wf (build_from tid txs d).
Proof.
  revert tid d. induction txs as [|t ts IH]; simpl; intros tid d Hd; [done|].
  by apply IH, foldl_tid_add_wf.
Qed.

Lemma build_from_val tid txs d k :
  dict_val (build_from tid txs d) k = dict_val d k ∪ cover_from tid txs {[k]}.
Proof.
  revert tid d. induction txs as [|t ts IH]; cbn [build_from cover_from];
    intros tid d.
  - set_solver.
  - rewrite IH, foldl_tid_add_val.
    assert ({[k]} ⊆ (list_to_set t : gset string) ↔ k ∈ t) as Hiff.
    { rewrite singleton_subseteq_l. apply elem_of_list_to_set. }
    destruct (decide (k ∈ t)) as [Hin|Hin].
    + rewrite decide_True by by apply Hiff. set_solver.
    + rewrite decide_False by by rewrite Hiff. set_solver.
Qed.

Lemma build_tid_lists_wf txs : dict_wf (_build_tid_lists txs).
Proof.
  apply build_from_wf. split; [constructor|].
  intros k. unfold dict_val. simpl. split; [by intros ?%elem_of_nil | done].
Qed.

Lemma build_tid_lists_val txs k :
  dict_val (_build_tid_lists txs) k = cover txs {[k]}.
Proof.
  unfold _build_tid_lists. rewrite build_from_val. unfold dict_val. simpl.
  set_solver.
Qed.

Lemma build_tid_lists_key txs k :
  k ∈ (_build_tid_lists txs).*1 ↔ observed txs k.
Proof.
  destruct (build_tid_lists_wf txs) as [_ ->].
  by rewrite build_tid_lists_val, cover_singleton_observed.
Qed.

Lemma build_tid_lists_get txs k v :
  dict_get (_build_tid_lists txs) k = Ok v → v = cover txs {[k]}.
Proof.
  intros H. rewrite <- build_tid_lists_val. symmetry. by apply dict_val_get.
Qed.

(** * The depth-first search *)

Section Miner.

Variable n : nat.
Variable FI : list (string * gset nat).
Variable k : Z.

(** The tid-list the search holds after extending a prefix whose tid-list
    is [T] with the items of [Q], one intersection per item. *)
Definition inter_tids (T : gset nat) (Q : list string) : gset nat :=
  foldl (λ T q, T ∩ dict_val FI q) T Q.

Lemma inter_tids_subseteq T Q : inter_tids T Q ⊆ T.
Proof.
  revert T. induction Q as [|q Q IH]; intros T; cbn [inter_tids foldl]; [done|].
  etrans; [apply IH|]. set_solver.
Qed.

Lemma inter_tids_cons T q Q :
  inter_tids T (q :: Q) = inter_tids (T ∩ dict_val FI q) Q.
Proof. reflexivity. Qed.

Lemma inter_tids_app T Q1 Q2 :
  inter_tids T (Q1 ++ Q2) = inter_tids (inter_tids T Q1) Q2.
Proof. apply foldl_app. Qed.

Lemma eclat_recursive_cons P T it rest :
  _eclat_recursive n FI k P T (it :: rest) =
  tids ← dict_get FI it;
  here ← (if Z.leb k (Z.of_nat (size (T ∩ tids))) then
            sup ← Py.int_truediv (Z.of_nat (size (T ∩ tids))) (Z.of_nat n);
            deeper ← (if Nat.ltb (length (P ++ [it])) max_size then
                        _eclat_recursive n FI k (P ++ [it]) (T ∩ tids) rest
                      else Ok []);
            Ok (Entry (P ++ [it]) sup (T ∩ tids) :: deeper)
          else Ok []);
  later ← _eclat_recursive n FI k P T rest;
  Ok (here ++ later).
Proof. reflexivity. Qed.

(** Everything the search appends extends the prefix by a non-empty
    sublist of the remaining items, carries the intersection as its
    tid-list, meets the count threshold and records the quotient. *)
Lemma eclat_recursive_sound R : ∀ P T out,
  _eclat_recursive n FI k P T R = Ok out →
  ∀ e, e ∈ out →
    ∃ Q, Q ≠ [] ∧ sublist Q R ∧ itemset e = P ++ Q ∧
         tid_list e = inter_tids T Q ∧
         k ≤ Z.of_nat (size (tid_list e)) ∧
         Py.int_truediv (Z.of_nat (size (tid_list e))) (Z.of_nat n)
           = Ok (support e) ∧
         ((length P < max_size)%nat → (length (itemset e) ≤ max_size)%nat).
Proof.
  induction R as [|it rest IH]; intros P T out H e He.
  { injection H as <-. by apply elem_of_nil in He. }
  rewrite eclat_recursive_cons in H.
  apply bind_Ok_inv in H as (tids & Htids & H).
  apply bind_Ok_inv in H as (here & Hhere & H).
  apply bind_Ok_inv in H as (later & Hlater & H).
  injection H as <-. apply elem_of_app in He as [He|He].
  - destruct (Z.leb_spec k (Z.of_nat (size (T ∩ tids)))) as [Hk|Hk];
      [|injection Hhere as <-; by apply elem_of_nil in He].
    apply bind_Ok_inv in Hhere as (sup & Hsup & Hhere).
    apply bind_Ok_inv in Hhere as (deeper & Hdeeper & Hhere).
    injection Hhere as <-. apply elem_of_cons in He as [->|He].
    + exists [it]. cbn [itemset tid_list support inter_tids foldl].
      rewrite (dict_val_get _ _ _ Htids).
      split; [done|]. split; [by apply sublist_skip, sublist_nil_l|].
      repeat split; try done.
      rewrite length_app. simpl. lia.
    + destruct (Nat.ltb_spec (length (P ++ [it])) max_size) as [Hlen|Hlen];
        [|injection Hdeeper as <-; by apply elem_of_nil in He].
      destruct (IH _ _ _ Hdeeper e He)
        as (Q & HQ & Hsub & Hits & Htl & Hge & Hsupp & Hl).
      exists (it :: Q). split; [done|]. split; [by apply sublist_skip|].
      split; [by rewrite Hits, <- app_assoc|].
      split; [|auto].
      rewrite Htl. cbn [inter_tids foldl].
      by rewrite (dict_val_get _ _ _ Htids).
  - destruct (IH _ _ _ Hlater e He)
      as (Q & HQ & Hsub & Hits & Htl & Hge & Hsupp & Hl).
    exists Q. split; [done|]. split; [by apply sublist_cons|]. auto.
Qed.

(** The search raises nothing when every remaining item is a key and the
    transaction count is not zero. *)
Lemma eclat_recursive_total R : ∀ P T,
  (∀ r, r ∈ R → r ∈ FI.*1) → n ≠ 0%nat →
  ∃ out, _eclat_recursive n FI k P T R = Ok out.
Proof.
  induction R as [|it rest IH]; intros P T HR Hn; [by exists []|].
  rewrite eclat_recursive_cons.
  destruct (proj1 (dict_get_key FI it)) as [tids ->]; [apply HR; left|].
  assert (∀ r, r ∈ rest → r ∈ FI.*1) as HR' by (intros; apply HR; by right).
  destruct (IH P T HR' Hn) as [later ->].
  destruct (IH (P ++ [it]) (T ∩ tids) HR' Hn) as [deeper Hdeeper].
  cbn [mbind result_bind]. unfold Py.int_truediv.
  destruct (Z.eqb_spec (Z.of_nat n) 0) as [?|_]; [lia|].
  destruct (Z.leb k _); [|by eexists].
  cbn [mbind result_bind].
  destruct (Nat.ltb _ _); [rewrite Hdeeper|]; by eexists.
Qed.

(** Completeness of the search under the count threshold: the pruning
    loses nothing, because a longer extension has a smaller tid-list. *)
Lemma eclat_recursive_complete R : ∀ P T out,
  _eclat_recursive n FI k P T R = Ok out →
  ∀ Q, Q ≠ [] → sublist Q R →
    (length P + length Q ≤ max_size)%nat →
    k ≤ Z.of_nat (size (inter_tids T Q)) →
    ∃ e, e ∈ out ∧ itemset e = P ++ Q.
Proof.
  induction R as [|it rest IH]; intros P T out H Q HQ Hsub Hlen Hk.
  { apply sublist_nil_r in Hsub. done. }
  rewrite eclat_recursive_cons in H.
  apply bind_Ok_inv in H as (tids & Htids & H).
  apply bind_Ok_inv in H as (here & Hhere & H).
  apply bind_Ok_inv in H as (later & Hlater & H).
  injection H as <-.
  apply sublist_cons_r in Hsub as [Hsub | (Q' & -> & Hsub)].
  - destruct (IH _ _ _ Hlater Q HQ Hsub Hlen Hk) as (e & He & Hits).
    exists e. split; [apply elem_of_app; by right | done].
  - cbn [inter_tids foldl] in Hk.
    rewrite (dict_val_get _ _ _ Htids) in Hk.
    assert (k ≤ Z.of_nat (size (T ∩ tids))) as Hk'.
    { etrans; [exact Hk|]. apply Nat2Z.inj_le, subseteq_size.
      apply inter_tids_subseteq. }
    apply Z.leb_le in Hk'. rewrite Hk' in Hhere.
    apply bind_Ok_inv in Hhere as (sup & Hsup & Hhere).
    apply bind_Ok_inv in Hhere as (deeper & Hdeeper & Hhere).
    injection Hhere as <-.
    destruct Q' as [|q Q'].
    + eexists. split; [apply elem_of_app; left; left | done].
    + assert (length (P ++ [it]) < max_size)%nat as Hlt.
      { rewrite length_app. simpl in *. lia. }
      apply Nat.ltb_lt in Hlt. rewrite Hlt in Hdeeper.
      destruct (IH _ _ _ Hdeeper (q :: Q')) as (e & He & Hits);
        [done | done | rewrite length_app; simpl in *; lia | done |].
      exists e. split; [apply elem_of_app; left; by right|].
      by rewrite Hits, <- app_assoc.
Qed.

(** Each extension is appended once. *)
Lemma eclat_recursive_NoDup R : ∀ P T out,
  _eclat_recursive n FI k P T R = Ok out →
  NoDup R → NoDup (itemset <$> out).
Proof.
  induction R as [|it rest IH]; intros P T out H Hnd.
  { injection H as <-. constructor. }
  pose proof (eclat_recursive_cons P T it rest) as Heq.
  rewrite H in Heq. symmetry in Heq.
  apply bind_Ok_inv in Heq as (tids & Htids & Heq).
  apply bind_Ok_inv in Heq as (here & Hhere & Heq).
  apply bind_Ok_inv in Heq as (later & Hlater & Heq).
  injection Heq as <-. apply NoDup_cons in Hnd as [Hit Hnd].
  assert (∀ e, e ∈ here → ∃ Q, itemset e = P ++ it :: Q) as Hshape.
  { intros e He.
    destruct (Z.leb k _); [|injection Hhere as <-; by apply elem_of_nil in He].
    apply bind_Ok_inv in Hhere as (sup & Hsup & Hhere).
    apply bind_Ok_inv in Hhere as (deeper & Hdeeper & Hhere).
    injection Hhere as <-. apply elem_of_cons in He as [->|He]; [by exists []|].
    destruct (Nat.ltb _ _);
      [|injection Hdeeper as <-; by apply elem_of_nil in He].
    destruct (eclat_recursive_sound _ _ _ _ Hdeeper e He)
      as (Q & _ & _ & Hits & _).
    exists Q. by rewrite Hits, <- app_assoc. }
  rewrite fmap_app. apply NoDup_app. split; [|split].
  - destruct (Z.leb k _); [|injection Hhere as <-; constructor].
    apply bind_Ok_inv in Hhere as (sup & Hsup & Hhere).
    apply bind_Ok_inv in Hhere as (deeper & Hdeeper & Hhere).
    injection Hhere as <-. rewrite fmap_cons. apply NoDup_cons. split.
    + intros (e & Hits & He)%list_elem_of_fmap. cbn [itemset] in Hits.
      destruct (Nat.ltb _ _);
        [|injection Hdeeper as <-; by apply elem_of_nil in He].
      destruct (eclat_recursive_sound _ _ _ _ Hdeeper e He)
        as (Q & HQ & _ & Hits' & _).
      rewrite Hits' in Hits. destruct Q; [done|].
      apply (f_equal length) in Hits. rewrite !length_app in Hits.
      simpl in Hits. lia.
    + destruct (Nat.ltb _ _); [by eapply IH | injection Hdeeper as <-; constructor].
  - intros its (e & -> & He)%list_elem_of_fmap
      (e' & Hits & He')%list_elem_of_fmap.
    destruct (Hshape e He) as [Q HQ].
    destruct (eclat_recursive_sound _ _ _ _ Hlater e' He')
      as (Q' & _ & Hsub & Hits' & _).
    rewrite HQ, Hits' in Hits. apply app_inv_head in Hits. subst Q'.
    apply Hit. eapply elem_of_sublist; [left | exact Hsub].
  - by eapply IH.
Qed.

End Miner.

(** * The canonical order on items *)

Lemma item_lt_irrefl a : ¬ item_lt a a.
Proof. by intros [_ ?]. Qed.

Lemma item_lt_trans a b c : item_lt a b → item_lt b c → item_lt a c.
Proof.
  intros [Hab Hne] [Hbc Hne']. split; [by etrans|].
  intros ->. apply Hne. by apply (anti_symm String.le).
Qed.

Lemma item_lt_sorted_cons a l :
  StronglySorted item_lt (a :: l) ↔
  StronglySorted item_lt l ∧ ∀ b, b ∈ l → item_lt a b.
Proof. rewrite StronglySorted_cons, Forall_forall. tauto. Qed.

Lemma item_lt_sorted_NoDup l : StronglySorted item_lt l → NoDup l.
Proof.
  induction l as [|a l IH]; [constructor|].
  rewrite item_lt_sorted_cons. intros [Hl Ha]. constructor; [|auto].
  intros Hin. by apply (item_lt_irrefl a), Ha.
Qed.

Lemma le_sorted_NoDup_lt l :
  StronglySorted String.le l → NoDup l → StronglySorted item_lt l.
Proof.
  induction l as [|a l IH]; [constructor|].
  rewrite StronglySorted_cons, NoDup_cons, Forall_forall.
  intros [Hl Ha] [Hni Hnd]. apply item_lt_sorted_cons. split; [auto|].
  intros b Hb. split; [auto|]. by intros ->.
Qed.

Lemma sublist_item_lt_sorted l1 l2 :
  sublist l1 l2 → StronglySorted item_lt l2 → StronglySorted item_lt l1.
Proof.
  induction 1 as [|x l1 l2 Hsub IH|x l1 l2 Hsub IH]; [done|..].
  - rewrite !item_lt_sorted_cons. intros [Hl Hx]. split; [auto|].
    intros b Hb. apply Hx. by eapply elem_of_sublist.
  - rewrite item_lt_sorted_cons. intros [Hl _]. auto.
Qed.

(** A strictly increasing list whose items all occur in another strictly
    increasing list is a sublist of it. *)
Lemma item_lt_sorted_sublist L : ∀ Q,
  StronglySorted item_lt Q → StronglySorted item_lt L →
  (∀ q, q ∈ Q → q ∈ L) → sublist Q L.
Proof.
  induction L as [|x L IH]; intros Q HQ HL Hin.
  { destruct Q as [|q Q]; [done|].
    exfalso. apply (not_elem_of_nil q), Hin. left. }
  destruct Q as [|q Q]; [apply sublist_nil_l|].
  apply item_lt_sorted_cons in HQ as [HQ Hq].
  apply item_lt_sorted_cons in HL as [HL Hx].
  destruct (decide (q = x)) as [->|Hne].
  - apply sublist_skip, IH; [done..|].
    intros q' Hq'. pose proof (Hq _ Hq') as Hlt.
    assert (q' ∈ x :: L) as [->|?]%elem_of_cons by (apply Hin; by right);
      [|done].
    exfalso. by apply (item_lt_irrefl x).
  - assert (q ∈ x :: L) as [->|HqL]%elem_of_cons by (apply Hin; left);
      [done|].
    pose proof (Hx _ HqL) as Hxq.
    apply sublist_cons, IH; [by apply item_lt_sorted_cons | done |].
    intros q' [->|Hq']%elem_of_cons; [done|].
    assert (q' ∈ x :: L) as [->|?]%elem_of_cons by (apply Hin; by right);
      [|done].
    exfalso. apply (item_lt_irrefl x).
    eapply item_lt_trans; [exact Hxq|]. by apply Hq.
Qed.

(** Two strictly increasing lists with the same content are equal. *)
Lemma item_lt_sorted_content Q1 Q2 :
  StronglySorted item_lt Q1 → StronglySorted item_lt Q2 →
  (list_to_set Q1 : gset string) = list_to_set Q2 → Q1 = Q2.
Proof.
  intros H1 H2 Heq. apply (anti_symm sublist).
  - apply item_lt_sorted_sublist; [done..|]. intros q Hq.
    apply (elem_of_list_to_set (C := gset string)). rewrite <- Heq.
    by apply elem_of_list_to_set.
  - apply item_lt_sorted_sublist; [done..|]. intros q Hq.
    apply (elem_of_list_to_set (C := gset string)). rewrite Heq.
    by apply elem_of_list_to_set.
Qed.

Lemma sorted_Permutation l : Py.sorted l ≡ₚ l.
Proof. apply merge_sort_Permutation. Qed.

Lemma sorted_item_lt l : NoDup l → StronglySorted item_lt (Py.sorted l).
Proof.
  intros Hnd. apply le_sorted_NoDup_lt.
  - apply (StronglySorted_merge_sort String.le).
  - by rewrite sorted_Permutation.
Qed.

Lemma elem_of_sorted l x : x ∈ Py.sorted l ↔ x ∈ l.
Proof. by rewrite sorted_Permutation. Qed.

(** * The outer loop of step 3 *)

Section Explore.

Variable n : nat.
Variable FI : list (string * gset nat).
Variable k : Z.

(** The tid-list the search holds for the itemset [Q]: the first item's
    tid-list, intersected with the tid-list of each later item. *)
Definition list_tids (Q : list string) : gset nat :=
  match Q with
  | [] => ∅
  | q :: Q' => inter_tids FI (dict_val FI q) Q'
  end.

Lemma explore_cons it rest :
  explore n FI k (it :: rest) =
  tids ← dict_get FI it;
  here ← _eclat_recursive n FI k [it] tids rest;
  later ← explore n FI k rest;
  Ok (here ++ later).
Proof. reflexivity. Qed.

Lemma explore_sound items : ∀ out,
  explore n FI k items = Ok out →
  ∀ e, e ∈ out →
    (2 ≤ length (itemset e) ≤ max_size)%nat ∧
    sublist (itemset e) items ∧
    tid_list e = list_tids (itemset e) ∧
    k ≤ Z.of_nat (size (tid_list e)) ∧
    Py.int_truediv (Z.of_nat (size (tid_list e))) (Z.of_nat n)
      = Ok (support e).
Proof.
  induction items as [|it rest IH]; intros out H e He.
  { injection H as <-. by apply elem_of_nil in He. }
  rewrite explore_cons in H.
  apply bind_Ok_inv in H as (tids & Htids & H).
  apply bind_Ok_inv in H as (here & Hhere & H).
  apply bind_Ok_inv in H as (later & Hlater & H).
  injection H as <-. apply elem_of_app in He as [He|He].
  - destruct (eclat_recursive_sound _ _ _ _ _ _ _ Hhere e He)
      as (Q & HQ & Hsub & Hits & Htl & Hge & Hsupp & Hl).
    rewrite Hits. cbn [app list_tids].
    rewrite (dict_val_get _ _ _ Htids), <- Htl.
    split; [|by split; [apply sublist_skip|]].
    split.
    + destruct Q; [done|]. simpl. lia.
    + rewrite Hits in Hl. apply Hl. unfold max_size. simpl. lia.
  - destruct (IH _ Hlater e He) as (Hlen & Hsub & Hrest).
    split; [done|]. split; [by apply sublist_cons | done].
Qed.

Lemma explore_total items :
  (∀ r, r ∈ items → r ∈ FI.*1) → n ≠ 0%nat →
  ∃ out, explore n FI k items = Ok out.
Proof.
  induction items as [|it rest IH]; intros HR Hn; [by exists []|].
  rewrite explore_cons.
  destruct (proj1 (dict_get_key FI it)) as [tids ->]; [apply HR; left|].
  assert (∀ r, r ∈ rest → r ∈ FI.*1) as HR' by (intros; apply HR; by right).
  cbn [mbind result_bind].
  destruct (eclat_recursive_total n FI k rest [it] tids HR' Hn) as [here ->].
  destruct (IH HR' Hn) as [later ->]. by eexists.
Qed.

Lemma explore_complete items : ∀ out,
  explore n FI k items = Ok out →
  ∀ Q, (2 ≤ length Q ≤ max_size)%nat → sublist Q items →
    k ≤ Z.of_nat (size (list_tids Q)) →
    ∃ e, e ∈ out ∧ itemset e = Q.
Proof.
  induction items as [|it rest IH]; intros out H Q Hlen Hsub Hk.
  { apply sublist_nil_r in Hsub. subst. simpl in Hlen. lia. }
  rewrite explore_cons in H.
  apply bind_Ok_inv in H as (tids & Htids & H).
  apply bind_Ok_inv in H as (here & Hhere & H).
  apply bind_Ok_inv in H as (later & Hlater & H).
  injection H as <-.
  apply sublist_cons_r in Hsub as [Hsub | (Q' & -> & Hsub)].
  - destruct (IH _ Hlater Q Hlen Hsub Hk) as (e & He & Hits).
    exists e. split; [apply elem_of_app; by right | done].
  - cbn [list_tids] in Hk. rewrite (dict_val_get _ _ _ Htids) in Hk.
    destruct (eclat_recursive_complete _ _ _ _ _ _ _ Hhere Q')
      as (e & He & Hits); [|done| |done|].
    + intros ->. simpl in Hlen. lia.
    + simpl in *. lia.
    + exists e. split; [apply elem_of_app; by left | done].
Qed.

Lemma explore_NoDup items : ∀ out,
  explore n FI k items = Ok out → NoDup items → NoDup (itemset <$> out).
Proof.
  induction items as [|it rest IH]; intros out H Hnd.
  { injection H as <-. constructor. }
  rewrite explore_cons in H.
  apply bind_Ok_inv in H as (tids & Htids & H).
  apply bind_Ok_inv in H as (here & Hhere & H).
  apply bind_Ok_inv in H as (later & Hlater & H).
  injection H as <-. apply NoDup_cons in Hnd as [Hit Hnd].
  rewrite fmap_app. apply NoDup_app. split; [|split].
  - by eapply eclat_recursive_NoDup.
  - intros its (e & -> & He)%list_elem_of_fmap
      (e' & Hits & He')%list_elem_of_fmap.
    destruct (eclat_recursive_sound _ _ _ _ _ _ _ Hhere e He)
      as (Q & _ & _ & HQ & _).
    destruct (explore_sound _ _ Hlater e' He') as (_ & Hsub & _).
    rewrite <- Hits, HQ in Hsub. apply Hit.
    eapply elem_of_sublist; [|exact Hsub]. left.
  - by apply IH.
Qed.

End Explore.

(** * The tid-lists of a run are covers *)

Section Covers.

Variable txs : list (list string).
Variable k : Z.

(** The dictionary [frequent_items] of [fit]. *)
Definition frequent_items_of : list (string * gset nat) :=
  filter (λ kv, k ≤ Z.of_nat (size kv.2)) (_build_tid_lists txs).

Lemma frequent_items_NoDup : NoDup frequent_items_of.*1.
Proof. apply NoDup_fst_filter, build_tid_lists_wf. Qed.

Lemma frequent_items_elem q v :
  (q, v) ∈ frequent_items_of ↔
  observed txs q ∧ v = cover txs {[q]} ∧ k ≤ Z.of_nat (size v).
Proof.
  unfold frequent_items_of. rewrite list_elem_of_filter. cbn [snd]. split.
  - intros [Hk Hin].
    assert (dict_get (_build_tid_lists txs) q = Ok v) as Hget
      by (apply dict_get_elem; [apply build_tid_lists_wf | done]).
    split; [|by split; [apply build_tid_lists_get|]].
    apply build_tid_lists_key, dict_get_key. eauto.
  - intros (Hobs & -> & Hk). split; [done|].
    apply build_tid_lists_key, dict_get_key in Hobs as [v Hv].
    apply dict_get_Ok_elem. by rewrite Hv, (build_tid_lists_get _ _ _ Hv).
Qed.

Lemma frequent_items_key q :
  q ∈ frequent_items_of.*1 ↔
  observed txs q ∧ k ≤ Z.of_nat (size (cover txs {[q]})).
Proof.
  rewrite list_elem_of_fmap. split.
  - intros ([q' v] & -> & (? & -> & ?)%frequent_items_elem). done.
  - intros [Hobs Hk]. exists (q, cover txs {[q]}). split; [done|].
    by apply frequent_items_elem.
Qed.

Lemma frequent_items_val q :
  q ∈ frequent_items_of.*1 → dict_val frequent_items_of q = cover txs {[q]}.
Proof.
  intros [Hobs Hk]%frequent_items_key. apply dict_val_get, dict_get_elem;
    [apply frequent_items_NoDup | by apply frequent_items_elem].
Qed.

Lemma frequent_items_nonempty q :
  q ∈ frequent_items_of.*1 → length txs ≠ 0%nat.
Proof.
  intros [(t & Ht & _) _]%frequent_items_key. by destruct txs; [apply elem_of_nil in Ht|].
Qed.

Lemma inter_tids_cover Q : ∀ S0,
  (∀ q, q ∈ Q → q ∈ frequent_items_of.*1) →
  inter_tids frequent_items_of (cover txs S0) Q
  = cover txs (S0 ∪ list_to_set Q).
Proof.
  induction Q as [|q Q IH]; intros S0 HQ.
  - cbn [inter_tids foldl list_to_set]. by rewrite (right_id_L ∅ (∪)).
  - rewrite inter_tids_cons, frequent_items_val by (apply HQ; left).
    unfold cover at 1 2. rewrite <- cover_from_union.
    fold (cover txs (S0 ∪ {[q]})).
    rewrite IH by (intros; apply HQ; by right).
    cbn [list_to_set]. by rewrite (assoc_L (∪)).
Qed.

Lemma list_tids_cover Q :
  Q ≠ [] → (∀ q, q ∈ Q → q ∈ frequent_items_of.*1) →
  list_tids frequent_items_of Q = cover txs (list_to_set Q).
Proof.
  destruct Q as [|q Q]; [done|]. intros _ HQ. cbn [list_tids list_to_set].
  rewrite frequent_items_val by (apply HQ; left).
  apply inter_tids_cover. intros; apply HQ; by right.
Qed.

End Covers.

(** * What a mining run leaves in [self.frequent_itemsets] *)

(** The count threshold [min_sup_count] of a run. *)
Definition min_count (ms : float) (txs : list (list string)) : result Z :=
  Py.int_of_float (Py.float_mul_int ms (Z.of_nat (length txs))).

(** What holds of every entry of a run over [txs] with threshold [k]. *)
Record entry_ok (txs : list (list string)) (k : Z) (e : entry) : Prop := {
  ok_nonempty : itemset e ≠ [];
  ok_sorted : StronglySorted item_lt (itemset e);
  ok_length : (length (itemset e) ≤ max_size)%nat;
  ok_observed : ∀ q, q ∈ itemset e → observed txs q;
  ok_tids : tid_list e = cover txs (list_to_set (itemset e));
  ok_count : k ≤ Z.of_nat (size (tid_list e));
  ok_support :
    Py.int_truediv (Z.of_nat (size (tid_list e))) (Z.of_nat (length txs))
    = Ok (support e)
}.

Lemma mine_configured ms mc txs :
  mine (configured ms mc) txs =
  k ← min_count ms txs;
  singles ← for_list
    (λ kv, sup ← Py.int_truediv (Z.of_nat (size kv.2))
                   (Z.of_nat (length txs));
           Ok [Entry [kv.1] sup kv.2])
    (frequent_items_of txs k);
  larger ← explore (length txs) (frequent_items_of txs k) k
             (Py.sorted (frequent_items_of txs k).*1);
  Ok {| min_support := ms;
        min_confidence := mc;
        frequent_itemsets := singles ++ larger;
        rules := [];
        tid_lists := _build_tid_lists txs;
        num_transactions := length txs |}.
Proof. reflexivity. Qed.

Lemma mine_inv ms mc txs s' :
  mine (configured ms mc) txs = Ok s' →
  ∃ k singles larger,
    min_count ms txs = Ok k ∧
    for_list
      (λ kv, sup ← Py.int_truediv (Z.of_nat (size kv.2))
                     (Z.of_nat (length txs));
             Ok [Entry [kv.1] sup kv.2])
      (frequent_items_of txs k) = Ok singles ∧
    explore (length txs) (frequent_items_of txs k) k
      (Py.sorted (frequent_items_of txs k).*1) = Ok larger ∧
    s' = {| min_support := ms;
            min_confidence := mc;
            frequent_itemsets := singles ++ larger;
            rules := [];
            tid_lists := _build_tid_lists txs;
            num_transactions := length txs |}.
Proof.
  rewrite mine_configured. intros H.
  apply bind_Ok_inv in H as (k & Hk & H).
  apply bind_Ok_inv in H as (singles & Hsingles & H).
  apply bind_Ok_inv in H as (larger & Hlarger & H).
  injection H as <-. by exists k, singles, larger.
Qed.

Lemma mine_total ms mc txs k :
  min_count ms txs = Ok k → ∃ s', mine (configured ms mc) txs = Ok s'.
Proof.
  rewrite mine_configured. intros ->. cbn [mbind result_bind].
  destruct txs as [|t txs]; [by eexists|].
  assert (length (t :: txs) ≠ 0%nat) as Hn by done.
  destruct (for_list_total
    (λ kv : string * gset nat,
       sup ← Py.int_truediv (Z.of_nat (size kv.2))
               (Z.of_nat (length (t :: txs)));
       Ok [Entry [kv.1] sup kv.2]) (frequent_items_of (t :: txs) k))
    as [singles ->].
  { intros [q v] Hin. unfold Py.int_truediv.
    destruct (Z.eqb_spec (Z.of_nat (length (t :: txs))) 0); [lia|].
    by eexists. }
  cbn [mbind result_bind].
  destruct (explore_total (length (t :: txs)) (frequent_items_of (t :: txs) k)
              k (Py.sorted (frequent_items_of (t :: txs) k).*1))
    as [larger ->]; [|done|by eexists].
  intros r. by rewrite elem_of_sorted.
Qed.

Lemma single_entry_ok txs k q v sup :
  (q, v) ∈ frequent_items_of txs k →
  Py.int_truediv (Z.of_nat (size v)) (Z.of_nat (length txs)) = Ok sup →
  entry_ok txs k (Entry [q] sup v).
Proof.
  intros (Hobs & -> & Hk)%frequent_items_elem Hsup.
  split; cbn [itemset tid_list support]; try done.
  - apply item_lt_sorted_cons. split; [constructor|].
    by intros ? ?%elem_of_nil.
  - unfold max_size. simpl. lia.
  - by intros ? ->%list_elem_of_singleton.
  - cbn [list_to_set]. by rewrite (right_id_L ∅ (∪)).
Qed.

Lemma mine_sound ms mc txs s' :
  mine (configured ms mc) txs = Ok s' →
  ∃ k, min_count ms txs = Ok k ∧
       ∀ e, e ∈ frequent_itemsets s' → entry_ok txs k e.
Proof.
  intros (k & singles & larger & Hk & Hs & Hl & ->)%mine_inv.
  exists k. split; [done|]. cbn [frequent_itemsets].
  intros e [He|He]%elem_of_app.
  - apply (for_list_Ok_elem _ _ _ Hs) in He as ([q v] & ys & Hin & Hb & He).
    apply bind_Ok_inv in Hb as (sup & Hsup & Hb). injection Hb as <-.
    apply list_elem_of_singleton in He as ->. by apply single_entry_ok.
  - destruct (explore_sound _ _ _ _ _ Hl e He)
      as ([Hlen Hmax] & Hsub & Htl & Hge & Hsup).
    assert (StronglySorted item_lt (itemset e)) as Hsorted.
    { eapply sublist_item_lt_sorted; [exact Hsub|].
      apply sorted_item_lt, frequent_items_NoDup. }
    assert (∀ q, q ∈ itemset e → q ∈ (frequent_items_of txs k).*1) as Hkeys.
    { intros q Hq. apply elem_of_sorted. by eapply elem_of_sublist. }
    assert (itemset e ≠ []) as Hne by (intros Heq; rewrite Heq in Hlen; simpl in Hlen; lia).
    split; try done.
    + intros q Hq. by apply Hkeys, frequent_items_key in Hq as [? _].
    + rewrite Htl. by apply list_tids_cover.
Qed.

Lemma singles_NoDup (n : nat) (FI : list (string * gset nat)) : ∀ singles,
  for_list
    (λ kv, sup ← Py.int_truediv (Z.of_nat (size kv.2)) (Z.of_nat n);
           Ok [Entry [kv.1] sup kv.2]) FI = Ok singles →
  NoDup FI.*1 → NoDup (itemset <$> singles).
Proof.
  induction FI as [|[q v] FI IH]; intros singles Hs Hnd.
  { injection Hs as <-. constructor. }
  cbn [for_list] in Hs.
  apply bind_Ok_inv in Hs as (ys & Hys & Hs).
  apply bind_Ok_inv in Hs as (zs & Hzs & Hs). injection Hs as <-.
  apply bind_Ok_inv in Hys as (sup & Hsup & Hys). injection Hys as <-.
  rewrite fmap_cons in Hnd. apply NoDup_cons in Hnd as [Hq Hnd].
  change (NoDup ([q] :: (itemset <$> zs))).
  apply NoDup_cons. split; [|by apply IH].
  intros (e & Hits & He)%list_elem_of_fmap.
  apply (for_list_Ok_elem _ _ _ Hzs) in He as ([q' v'] & ys & Hin & Hb & He).
  apply bind_Ok_inv in Hb as (sup' & Hsup' & Hb). injection Hb as <-.
  apply list_elem_of_singleton in He as ->. cbn [itemset fst] in Hits.
  injection Hits as <-. apply Hq, list_elem_of_fmap. by exists (q, v').
Qed.

Lemma mine_NoDup ms mc txs s' :
  mine (configured ms mc) txs = Ok s' →
  NoDup (itemset <$> frequent_itemsets s').
Proof.
  intros (k & singles & larger & Hk & Hs & Hl & ->)%mine_inv.
  cbn [frequent_itemsets]. rewrite fmap_app. apply NoDup_app.
  split; [|split].
  - eapply singles_NoDup; [exact Hs | apply frequent_items_NoDup].
  - intros its (e & -> & He)%list_elem_of_fmap
      (e' & Hits & He')%list_elem_of_fmap.
    apply (for_list_Ok_elem _ _ _ Hs) in He as ([q v] & ys & Hin & Hb & He).
    apply bind_Ok_inv in Hb as (sup & Hsup & Hb). injection Hb as <-.
    apply list_elem_of_singleton in He as ->. cbn [itemset fst] in Hits.
    destruct (explore_sound _ _ _ _ _ Hl e' He') as ([Hlen _] & _).
    rewrite <- Hits in Hlen. simpl in Hlen. lia.
  - eapply explore_NoDup; [exact Hl|].
    rewrite sorted_Permutation. apply frequent_items_NoDup.
Qed.

(** Completeness under the count threshold. *)
Lemma mine_complete ms mc txs s' k :
  mine (configured ms mc) txs = Ok s' → min_count ms txs = Ok k →
  ∀ Q, Q ≠ [] → StronglySorted item_lt Q → (length Q ≤ max_size)%nat →
    (∀ q, q ∈ Q → observed txs q) →
    k ≤ Z.of_nat (size (cover txs (list_to_set Q))) →
    ∃ e, e ∈ frequent_itemsets s' ∧ itemset e = Q.
Proof.
  intros (k' & singles & larger & Hk' & Hs & Hl & ->)%mine_inv Hk.
  assert (k' = k) as -> by congruence. clear Hk'.
  intros Q Hne Hsorted Hlen Hobs Hcount. cbn [frequent_itemsets].
  assert (∀ q, q ∈ Q → q ∈ (frequent_items_of txs k).*1) as Hkeys.
  { intros q Hq. apply frequent_items_key. split; [auto|].
    etrans; [exact Hcount|]. apply Nat2Z.inj_le, subseteq_size.
    apply cover_from_mono, singleton_subseteq_l.
    by apply elem_of_list_to_set. }
  destruct Q as [|q [|q' Q]]; [done| |].
  - assert ((q, cover txs {[q]}) ∈ frequent_items_of txs k) as Hin.
    { apply frequent_items_elem. split; [apply Hobs; left|].
      split; [done|]. cbn [list_to_set] in Hcount.
      by rewrite (right_id_L ∅ (∪)) in Hcount. }
    destruct (for_list_total
      (λ kv : string * gset nat,
         sup ← Py.int_truediv (Z.of_nat (size kv.2)) (Z.of_nat (length txs));
         Ok [Entry [kv.1] sup kv.2]) [(q, cover txs {[q]})]) as [ys Hys].
    { intros kv ->%list_elem_of_singleton. unfold Py.int_truediv.
      assert (length txs ≠ 0%nat) as Hn.
      { apply (frequent_items_nonempty txs k q), Hkeys. left. }
      destruct (Z.eqb_spec (Z.of_nat (length txs)) 0); [lia|]. by eexists. }
    cbn [for_list] in Hys.
    apply bind_Ok_inv in Hys as (ys' & Hys' & _).
    pose proof Hys' as Hbody.
    apply bind_Ok_inv in Hys' as (sup & Hsup & Hys'). injection Hys' as <-.
    exists (Entry [q] sup (cover txs {[q]})). split; [|done].
    apply elem_of_app. left. apply (for_list_Ok_elem _ _ _ Hs).
    exists (q, cover txs {[q]}), [Entry [q] sup (cover txs {[q]})].
    split; [done|]. split; [exact Hbody | left].
  - destruct (explore_complete _ _ _ _ _ Hl (q :: q' :: Q))
      as (e & He & Hits).
    + split; [simpl; lia | done].
    + apply item_lt_sorted_sublist; [done| |].
      * apply sorted_item_lt, frequent_items_NoDup.
      * intros r Hr. by apply elem_of_sorted, Hkeys.
    + by rewrite list_tids_cover.
    + exists e. split; [apply elem_of_app; by right | done].
Qed.

(** * Rule generation *)

Lemma combinations_sublist {A : Type} (l : list A) : ∀ i c,
  c ∈ Py.combinations l i → sublist c l ∧ length c = i.
Proof.
  induction l as [|x l IH]; intros [|i] c; cbn [Py.combinations].
  - intros ->%list_elem_of_singleton. done.
  - by intros ?%elem_of_nil.
  - intros ->%list_elem_of_singleton. split; [apply sublist_nil_l | done].
  - intros [Hc|Hc]%elem_of_app.
    + apply (list_elem_of_fmap (cons x)) in Hc as (c' & -> & Hc').
      destruct (IH _ _ Hc') as [Hsub Hlen].
      split; [by apply sublist_skip | by rewrite <- Hlen].
    + destruct (IH _ _ Hc) as [Hsub Hlen]. split; [by apply sublist_cons | done].
Qed.

Lemma combinations_complete {A : Type} (l c : list A) :
  sublist c l → c ∈ Py.combinations l (length c).
Proof.
  induction 1 as [|x c l Hsub IH|x c l Hsub IH]; cbn [Py.combinations length].
  - by apply list_elem_of_singleton.
  - apply elem_of_app. left. apply list_elem_of_fmap. by exists c.
  - destruct c as [|y c]; cbn [length Py.combinations] in *.
    + by apply list_elem_of_singleton.
    + apply elem_of_app. by right.
Qed.

(** A proper sublist of a duplicate-free list misses one of its items. *)
Lemma sublist_missing {A : Type} (l1 l2 : list A) :
  sublist l1 l2 → NoDup l2 → (length l1 < length l2)%nat →
  ∃ x, x ∈ l2 ∧ x ∉ l1.
Proof.
  induction 1 as [|x l1 l2 Hsub IH|x l1 l2 Hsub IH]; intros Hnd Hlen.
  - simpl in Hlen. lia.
  - apply NoDup_cons in Hnd as [Hx Hnd].
    destruct IH as (y & Hy & Hny); [done | simpl in Hlen; lia |].
    exists y. split; [by right|].
    intros [->|?]%elem_of_cons; done.
  - apply NoDup_cons in Hnd as [Hx Hnd].
    exists x. split; [left|]. intros Hin. apply Hx.
    by eapply elem_of_sublist.
Qed.

Lemma support_table_lookup fis K v :
  support_table fis !! K = Some v →
  ∃ e, e ∈ fis ∧ list_to_set (itemset e) = K ∧ support e = v.
Proof.
  unfold support_table.
  assert (∀ m : gmap (gset string) float,
    foldl (λ m fs, <[list_to_set (itemset fs) := support fs]> m) m fis !! K
      = Some v →
    m !! K = Some v ∨
    ∃ e, e ∈ fis ∧ list_to_set (itemset e) = K ∧ support e = v) as Hgen.
  { induction fis as [|fs fis IH]; intros m; cbn [foldl]; [by left|].
    intros [Hm | (e & He & HK & Hv)]%IH.
    - destruct (decide (list_to_set (itemset fs) = K)) as [HK|HK].
      + rewrite HK, lookup_insert_eq in Hm. injection Hm as <-.
        right. exists fs. split; [left | done].
      + rewrite lookup_insert_ne in Hm by done. by left.
    - right. exists e. split; [by right | done]. }
  intros [Hm|?]%Hgen; [by rewrite lookup_empty in Hm | done].
Qed.

(** A content that was appended is in the table. *)
Lemma support_table_elem fis e :
  e ∈ fis → is_Some (support_table fis !! list_to_set (itemset e)).
Proof.
  unfold support_table.
  assert (∀ m : gmap (gset string) float,
    e ∈ fis ∨ is_Some (m !! list_to_set (itemset e)) →
    is_Some (foldl (λ m fs, <[list_to_set (itemset fs) := support fs]> m)
               m fis !! list_to_set (itemset e))) as Hgen.
  { induction fis as [|fs fis IH]; intros m; cbn [foldl].
    - intros [?%elem_of_nil|?]; done.
    - intros [[->|?]%elem_of_cons|Hm]; apply IH; [right|by left|right].
      + rewrite lookup_insert_eq. by eexists.
      + destruct (decide (list_to_set (itemset fs)
                          = (list_to_set (itemset e) : gset string))) as [->|?].
        * rewrite lookup_insert_eq. by eexists.
        * by rewrite lookup_insert_ne. }
  intros He. apply Hgen. by left.
Qed.

Lemma split_rule_Ok table mc its isup ante rs r :
  split_rule table mc its isup ante = Ok rs → r ∈ rs →
  ∃ asup,
    table !! (list_to_set ante : gset string) = Some asup ∧
    Py.float_truediv isup asup = Ok (confidence r) ∧
    PrimFloat.leb mc (confidence r) = true ∧
    antecedent r = ante ∧
    consequent r = filter (λ it, it ∉ ante) its ∧
    rule_support r = isup ∧
    Py.float_truediv (confidence r)
      (default default_consequent_support
         (table !! (list_to_set (consequent r) : gset string)))
    = Ok (lift r).
Proof.
  unfold split_rule. intros H Hr.
  destruct (table !! list_to_set ante) as [asup|];
    [|injection H as <-; by apply elem_of_nil in Hr].
  apply bind_Ok_inv in H as (conf & Hconf & H).
  destruct (PrimFloat.leb mc conf) eqn:Hle;
    [|injection H as <-; by apply elem_of_nil in Hr].
  apply bind_Ok_inv in H as (lft & Hlft & H). injection H as <-.
  apply list_elem_of_singleton in Hr as ->. by exists asup.
Qed.

Lemma itemset_rules_Ok table mc fs rs r :
  itemset_rules table mc fs = Ok rs → r ∈ rs →
  (2 ≤ length (itemset fs))%nat ∧
  ∃ i ante rs',
    (1 ≤ i < length (itemset fs))%nat ∧
    ante ∈ Py.combinations (itemset fs) i ∧
    split_rule table mc (itemset fs) (support fs) ante = Ok rs' ∧ r ∈ rs'.
Proof.
  unfold itemset_rules. intros H Hr.
  destruct (Nat.ltb_spec (length (itemset fs)) 2) as [Hlt|Hge];
    [injection H as <-; by apply elem_of_nil in Hr|].
  split; [done|].
  apply (for_list_Ok_elem _ _ _ H) in Hr as (i & ys & Hi & Hys & Hr).
  apply (for_list_Ok_elem _ _ _ Hys) in Hr as (ante & rs' & Hante & Hrs' & Hr).
  exists i, ante, rs'. split; [|done].
  apply elem_of_seq in Hi. lia.
Qed.

Lemma generate_rules_Ok self s' :
  _generate_rules self = Ok s' →
  frequent_itemsets s' = frequent_itemsets self ∧
  min_confidence s' = min_confidence self ∧
  ∀ r, r ∈ rules s' →
    ∃ fs rs, fs ∈ frequent_itemsets self ∧
      itemset_rules (support_table (frequent_itemsets self))
        (min_confidence self) fs = Ok rs ∧ r ∈ rs.
Proof.
  unfold _generate_rules. intros H.
  apply bind_Ok_inv in H as (rs & Hrs & H). injection H as <-.
  cbn [frequent_itemsets min_confidence rules]. split; [done|]. split; [done|].
  intros r Hr.
  apply (for_list_Ok_elem _ _ _ Hrs) in Hr as (fs & ys & Hfs & Hys & Hr).
  by exists fs, ys.
Qed.

Lemma fit_inv self txs s' :
  fit self txs = Ok s' →
  ∃ s1, mine self txs = Ok s1 ∧ _generate_rules s1 = Ok s'.
Proof. unfold fit. apply bind_Ok_inv. Qed.

(** Everything a successful [fit] on a fresh object records about one of
    its rules. *)
Lemma fit_rule_inv ms mc txs s' r :
  fit (configured ms mc) txs = Ok s' → r ∈ rules s' →
  ∃ k fs fa,
    min_count ms txs = Ok k ∧
    fs ∈ frequent_itemsets s' ∧ entry_ok txs k fs ∧
    fa ∈ frequent_itemsets s' ∧ entry_ok txs k fa ∧
    (2 ≤ length (itemset fs))%nat ∧
    sublist (antecedent r) (itemset fs) ∧
    (1 ≤ length (antecedent r) < length (itemset fs))%nat ∧
    consequent r = filter (λ it, it ∉ antecedent r) (itemset fs) ∧
    list_to_set (itemset fa) = (list_to_set (antecedent r) : gset string) ∧
    rule_support r = support fs ∧
    Py.float_truediv (support fs) (support fa) = Ok (confidence r) ∧
    PrimFloat.leb mc (confidence r) = true.
Proof.
  intros (s1 & Hmine & Hgen)%fit_inv Hr.
  destruct (generate_rules_Ok _ _ Hgen) as (Hfis & Hmc & Hrules).
  destruct (Hrules r Hr) as (fs & rs & Hfs & Hrs & Hr').
  destruct (itemset_rules_Ok _ _ _ _ _ Hrs Hr')
    as (Hlen & i & ante & rs' & Hi & Hante & Hsplit & Hr'').
  destruct (split_rule_Ok _ _ _ _ _ _ _ Hsplit Hr'')
    as (asup & Hlook & Hconf & Hle & Ha & Hc & Hrs'' & _).
  destruct (support_table_lookup _ _ _ Hlook) as (fa & Hfa & Hcontent & Hsup).
  destruct (mine_sound _ _ _ _ Hmine) as (k & Hk & Hok).
  destruct (combinations_sublist _ _ _ Hante) as [Hsub Hleni].
  assert (min_confidence s1 = mc) as Hmc1.
  { apply mine_inv in Hmine as (? & ? & ? & _ & _ & _ & ->). done. }
  exists k, fs, fa. rewrite Hfis, Ha, Hc, Hrs'', Hleni, Hsup.
  rewrite Hmc1 in Hle. split_and!; auto; lia.
Qed.

(** * Binary64 rounding *)

Module IEEE.

(** ** Powers of two *)

Definition bpow (e : Z) : Q := Qpower 2 e.

Lemma bpow_pos e : (0 < bpow e)%Q.
Proof. apply Qpower_0_lt. reflexivity. Qed.

Lemma bpow_plus a b : (bpow (a + b) == bpow a * bpow b)%Q.
Proof. apply Qpower_plus. discriminate. Qed.

Lemma bpow_0 : (bpow 0 == 1)%Q.
Proof. reflexivity. Qed.

Lemma bpow_1 : (bpow 1 == 2)%Q.
Proof. reflexivity. Qed.

Lemma bpow_succ a : (bpow (a + 1) == 2 * bpow a)%Q.
Proof. rewrite bpow_plus, bpow_1. ring. Qed.

Lemma bpow_le a b : a ≤ b → (bpow a <= bpow b)%Q.
Proof. intros H. apply Qpower_le_compat_l; [done | discriminate]. Qed.

Lemma bpow_lt a b : a < b → (bpow a < bpow b)%Q.
Proof. intros H. apply Qpower_lt_compat_l; [done | reflexivity]. Qed.

Lemma bpow_lt_inv a b : (bpow a < bpow b)%Q → a < b.
Proof.
  intros H. destruct (Z.lt_ge_cases a b) as [|Hge]; [done|].
  apply bpow_le in Hge. lra.
Qed.

Lemma bpow_le_inv a b : (bpow a <= bpow b)%Q → a ≤ b.
Proof.
  intros H. destruct (Z.le_gt_cases a b) as [|Hgt]; [done|].
  apply bpow_lt in Hgt. lra.
Qed.

Lemma bpow_inject n : 0 ≤ n → (bpow n == inject_Z (2 ^ n))%Q.
Proof. intros H. unfold bpow. by rewrite Zpower_Qpower. Qed.

Lemma bpow_opp a : (bpow (- a) == / bpow a)%Q.
Proof. apply Qpower_opp. Qed.

Lemma bpow_mul_opp a : (bpow a * bpow (- a) == 1)%Q.
Proof. rewrite <- bpow_plus, Z.add_opp_diag_r. reflexivity. Qed.


(** ** Round to nearest, ties to even, on the rationals *)

Definition rne (y : Q) : Z :=
  let f := Qfloor y in
  match (y - inject_Z f ?= 1 # 2)%Q with
  | Lt => f
  | Eq => if Z.even f then f else f + 1
  | Gt => f + 1
  end.

(** [located y m l]: [m] is the integer part of [y] and [l] tells where [y]
    lies between [m] and [m + 1]. *)
Inductive located (y : Q) (m : Z) : location → Prop :=
  | located_exact : (y == inject_Z m)%Q → located y m loc_Exact
  | located_inexact c :
      (inject_Z m < y)%Q → (y < inject_Z m + 1)%Q →
      (y ?= inject_Z m + (1 # 2))%Q = c →
      located y m (loc_Inexact c).

Lemma Qcompare_Lt x y : (x < y)%Q → (x ?= y)%Q = Lt.
Proof. apply Qlt_alt. Qed.

Lemma Qcompare_Gt x y : (y < x)%Q → (x ?= y)%Q = Gt.
Proof. apply Qgt_alt. Qed.

Lemma Qcompare_Eq x y : (x == y)%Q → (x ?= y)%Q = Eq.
Proof. apply Qeq_alt. Qed.

Lemma inject_Z_lt a b : a < b → (inject_Z a < inject_Z b)%Q.
Proof. by rewrite <- Zlt_Qlt. Qed.

Lemma inject_Z_le a b : a ≤ b → (inject_Z a <= inject_Z b)%Q.
Proof. by rewrite <- Zle_Qle. Qed.

Lemma Qfloor_unique y m :
  (inject_Z m <= y)%Q → (y < inject_Z m + 1)%Q → Qfloor y = m.
Proof.
  intros Hle Hlt.
  pose proof (Qfloor_le y) as H1. pose proof (Qlt_floor y) as H2.
  rewrite inject_Z_plus in H2. change (inject_Z 1) with 1%Q in H2.
  assert (inject_Z (Qfloor y) < inject_Z (m + 1))%Q as H3
    by (rewrite inject_Z_plus; change (inject_Z 1) with 1%Q; lra).
  assert (inject_Z m < inject_Z (Qfloor y + 1))%Q as H4
    by (rewrite inject_Z_plus; change (inject_Z 1) with 1%Q; lra).
  rewrite <- Zlt_Qlt in H3, H4. lia.
Qed.

Lemma located_floor y m l : located y m l → Qfloor y = m.
Proof. intros [H | c H1 H2 _]; apply Qfloor_unique; lra. Qed.

Lemma located_Qeq y y' m l : (y == y')%Q → located y m l → located y' m l.
Proof.
  intros Heq [H | c H1 H2 H3]; constructor; rewrite <- ?Heq; try done.
Qed.

Lemma Qcompare_shift y m c :
  (y ?= inject_Z m + (1 # 2))%Q = c → (y - inject_Z m ?= 1 # 2)%Q = c.
Proof.
  intros <-.
  destruct (Qcompare_spec y (inject_Z m + (1 # 2))) as [H|H|H].
  - apply Qcompare_Eq. lra.
  - apply Qcompare_Lt. lra.
  - apply Qcompare_Gt. lra.
Qed.

Lemma rne_located y m l : located y m l → round_nearest_even m l = rne y.
Proof.
  intros Hloc. unfold rne. rewrite (located_floor _ _ _ Hloc).
  destruct Hloc as [H | c H1 H2 H3].
  - assert ((y - inject_Z m ?= 1 # 2)%Q = Lt) as -> by (apply Qcompare_Lt; lra).
    done.
  - rewrite (Qcompare_shift _ _ _ H3). by destruct c.
Qed.

Lemma rne_inject n : rne (inject_Z n) = n.
Proof.
  unfold rne. rewrite Qfloor_Z.
  assert ((inject_Z n - inject_Z n ?= 1 # 2)%Q = Lt) as ->
    by (apply Qcompare_Lt; lra).
  done.
Qed.

Lemma rne_Qeq y y' : (y == y')%Q → rne y = rne y'.
Proof.
  intros Heq. unfold rne.
  assert (Qfloor y = Qfloor y') as -> by by rewrite Heq.
  by rewrite Heq.
Qed.

Lemma rne_mono y1 y2 : (y1 <= y2)%Q → rne y1 ≤ rne y2.
Proof.
  intros Hle. unfold rne.
  pose proof (Qfloor_resp_le _ _ Hle) as Hf.
  pose proof (Qfloor_le y1) as Ha1. pose proof (Qlt_floor y1) as Hb1.
  pose proof (Qfloor_le y2) as Ha2. pose proof (Qlt_floor y2) as Hb2.
  rewrite inject_Z_plus in Hb1, Hb2. change (inject_Z 1) with 1%Q in Hb1, Hb2.
  destruct (Z.eq_dec (Qfloor y1) (Qfloor y2)) as [Heq|Hne].
  - rewrite <- Heq in *.
    destruct (Qcompare_spec (y1 - inject_Z (Qfloor y1)) (1 # 2)) as [H1|H1|H1];
    destruct (Qcompare_spec (y2 - inject_Z (Qfloor y1)) (1 # 2)) as [H2|H2|H2];
      try lra; destruct (Z.even (Qfloor y1)); lia.
  - assert (Qfloor y1 + 1 ≤ Qfloor y2) by lia.
    destruct (y1 - inject_Z (Qfloor y1) ?= 1 # 2)%Q;
    destruct (y2 - inject_Z (Qfloor y2) ?= 1 # 2)%Q;
      try destruct (Z.even (Qfloor y1)); try destruct (Z.even (Qfloor y2)); lia.
Qed.

Lemma rne_le_inject y n : (y <= inject_Z n)%Q → rne y ≤ n.
Proof. intros H%rne_mono. by rewrite rne_inject in H. Qed.

Lemma rne_ge_inject y n : (inject_Z n <= y)%Q → n ≤ rne y.
Proof. intros H%rne_mono. by rewrite rne_inject in H. Qed.

(** ** Shifting a mantissa right *)

Definition rec_located (y : Q) (mrs : shr_record) : Prop :=
  located y (shr_m mrs) (loc_of_shr_record mrs) ∧ 0 ≤ shr_m mrs.

Lemma shr_1_eq m r s :
  0 ≤ m →
  shr_1 (Build_shr_record m r s)
  = Build_shr_record (Z.div2 m) (Z.odd m) (r || s).
Proof. by destruct m as [|[p|p|]|p]. Qed.

Lemma inject_div2 m :
  (inject_Z m == 2 * inject_Z (Z.div2 m) + (if Z.odd m then 1 else 0))%Q.
Proof.
  rewrite (Z.div2_odd m) at 1. rewrite inject_Z_plus, inject_Z_mult.
  destruct (Z.odd m); simpl Z.b2z; reflexivity.
Qed.

Lemma shr_1_located y y' mrs :
  (y == 2 * y')%Q → rec_located y mrs → rec_located y' (shr_1 mrs).
Proof.
  destruct mrs as [m r s]. unfold rec_located. cbn [shr_m].
  intros Hy [Hloc Hm]. rewrite (shr_1_eq _ _ _ Hm). cbn [shr_m].
  split; [|by apply Z.div2_nonneg].
  pose proof (inject_div2 m) as Hdiv.
  destruct r, s; cbn [loc_of_shr_record orb] in *; inversion Hloc; subst;
    destruct (Z.odd m); cbn [loc_of_shr_record];
    constructor;
    first [ apply Qcompare_Lt | apply Qcompare_Gt | apply Qcompare_Eq | idtac ];
    lra.
Qed.

Lemma iter_pos_shr_1_located p : ∀ y y' mrs,
  (y == bpow (Z.pos p) * y')%Q →
  rec_located y mrs → rec_located y' (SpecFloat.iter_pos shr_1 p mrs).
Proof.
  induction p as [p IH|p IH|]; intros y y' mrs Hy Hloc; cbn [SpecFloat.iter_pos].
  - apply (IH (bpow (Z.pos p) * y')%Q); [reflexivity|].
    apply (IH (bpow (Z.pos p) * (bpow (Z.pos p) * y'))%Q); [reflexivity|].
    apply (shr_1_located y); [|done].
    rewrite Hy, Pos2Z.inj_xI, <- Z.add_diag, Z.add_comm, !bpow_plus, bpow_1.
    ring.
  - apply (IH (bpow (Z.pos p) * y')%Q); [reflexivity|].
    apply (IH y); [|done].
    rewrite Hy, Pos2Z.inj_xO, <- Z.add_diag, !bpow_plus. ring.
  - apply (shr_1_located y); [|done]. by rewrite Hy, bpow_1.
Qed.

(** ** Digits and magnitude *)

Lemma digits2_pos_bounds p :
  2 ^ (Z.pos (digits2_pos p) - 1) ≤ Z.pos p < 2 ^ Z.pos (digits2_pos p).
Proof.
  induction p as [p IH|p IH|]; cbn [digits2_pos]; [| |done].
  - rewrite Pos2Z.inj_succ.
    replace (Z.succ (Z.pos (digits2_pos p)) - 1)
      with (Z.succ (Z.pos (digits2_pos p) - 1)) by lia.
    rewrite !Z.pow_succ_r by lia. lia.
  - rewrite Pos2Z.inj_succ.
    replace (Z.succ (Z.pos (digits2_pos p)) - 1)
      with (Z.succ (Z.pos (digits2_pos p) - 1)) by lia.
    rewrite !Z.pow_succ_r by lia. lia.
Qed.

Lemma Zdigits2_bounds m :
  0 < m → 0 < Zdigits2 m ∧ 2 ^ (Zdigits2 m - 1) ≤ m < 2 ^ Zdigits2 m.
Proof.
  destruct m as [|p|p]; [lia| |lia]. intros _. cbn [Zdigits2].
  split; [lia | apply digits2_pos_bounds].
Qed.

(** [mag_of x k]: [x] lies in the binade [2^(k-1), 2^k). *)
Definition mag_of (x : Q) (k : Z) : Prop :=
  (bpow (k - 1) <= x)%Q ∧ (x < bpow k)%Q.

Lemma mag_of_unique x k k' : mag_of x k → mag_of x k' → k = k'.
Proof.
  intros [H1 H2] [H1' H2'].
  assert (bpow (k - 1) < bpow k')%Q as Ha%bpow_lt_inv by lra.
  assert (bpow (k' - 1) < bpow k)%Q as Hb%bpow_lt_inv by lra.
  lia.
Qed.

Lemma mag_of_Qeq x x' k : (x == x')%Q → mag_of x k → mag_of x' k.
Proof. intros Heq [H1 H2]. split; by rewrite <- Heq. Qed.

Lemma mag_of_le x y k k' : (x <= y)%Q → mag_of x k → mag_of y k' → k ≤ k'.
Proof.
  intros Hle [H1 H2] [H1' H2'].
  assert (bpow (k - 1) < bpow k')%Q as Ha%bpow_lt_inv by lra. lia.
Qed.

Lemma mag_of_scale x k e : mag_of x k → mag_of (x * bpow e) (k + e).
Proof.
  intros [H1 H2]. pose proof (bpow_pos e) as He. split.
  - replace (k + e - 1) with ((k - 1) + e) by lia. rewrite bpow_plus.
    by apply Qmult_le_compat_r; [|apply Qlt_le_weak].
  - rewrite bpow_plus. by apply Qmult_lt_compat_r.
Qed.

Lemma mag_of_inject m : 0 < m → mag_of (inject_Z m) (Zdigits2 m).
Proof.
  intros Hm. destruct (Zdigits2_bounds m Hm) as (Hd & Hlo & Hhi).
  split; rewrite bpow_inject by lia.
  - by rewrite <- Zle_Qle.
  - by rewrite <- Zlt_Qlt.
Qed.

Lemma mag_of_located y m l :
  0 < m → located y m l → mag_of y (Zdigits2 m).
Proof.
  intros Hm Hloc. destruct (Zdigits2_bounds m Hm) as (Hd & Hlo & Hhi).
  assert (inject_Z m <= y ∧ y < inject_Z (m + 1))%Q as [Hy1 Hy2].
  { rewrite inject_Z_plus. change (inject_Z 1) with 1%Q.
    destruct Hloc; split; lra. }
  split; rewrite bpow_inject by lia.
  - rewrite Zle_Qle in Hlo. lra.
  - assert (m + 1 ≤ 2 ^ Zdigits2 m) as Hle by lia.
    rewrite Zle_Qle in Hle. lra.
Qed.

(** ** The exponent function of binary64 *)

Lemma fexp_eq k : SpecFloat.fexp prec emax k = Z.max (k - 53) (-1074).
Proof. reflexivity. Qed.

Lemma shr_record_of_loc_m m l : shr_m (shr_record_of_loc m l) = m.
Proof. by destruct l as [|[]]. Qed.

Lemma loc_of_shr_record_of_loc m l :
  loc_of_shr_record (shr_record_of_loc m l) = l.
Proof. by destruct l as [|[]]. Qed.

(** Shifting to a coarser exponent keeps the location of the value. *)
Lemma shr_located x y mrs e n :
  (x == y * bpow e)%Q → rec_located y mrs → 0 ≤ n →
  ∃ mrs', shr mrs e n = (mrs', e + n) ∧
          rec_located (x * bpow (- (e + n))) mrs'.
Proof.
  intros Hx Hloc Hn. destruct n as [|p|p]; [| |lia].
  - exists mrs. split; [by rewrite Z.add_0_r|].
    destruct Hloc as [Hloc Hm]. split; [|done].
    apply (located_Qeq y); [|done].
    rewrite Hx, Z.add_0_r, <- Qmult_assoc, bpow_mul_opp. ring.
  - exists (SpecFloat.iter_pos shr_1 p mrs). split; [done|].
    apply (iter_pos_shr_1_located p y); [|done].
    rewrite Hx, Z.opp_add_distr, bpow_plus.
    transitivity (y * (bpow e * bpow (- e)) * (bpow (Z.pos p) * bpow (- Z.pos p)))%Q;
      [|ring].
    rewrite !bpow_mul_opp. ring.
Qed.

(** ** Rounding a located value *)

(** The canonical exponent of the binade [k]. *)
Definition cexp (k : Z) : Z := Z.max (k - 53) (-1074).

(** What [binary_round_aux] returns for a positive value [x] of binade
    [k]: the integer nearest to [x / 2^cexp k], ties to even, scaled back;
    zero when that integer is zero, infinity only from binade 1024 on. *)
Definition rounded_spec (x : Q) (k : Z) (r : spec_float) : Prop :=
  match r with
  | S754_zero s => s = false ∧ rne (x * bpow (- cexp k)) = 0
  | S754_finite s m e =>
      s = false ∧
      (inject_Z (Z.pos m) * bpow e
       == inject_Z (rne (x * bpow (- cexp k))) * bpow (cexp k))%Q
  | S754_infinity s => s = false ∧ 971 ≤ cexp k
  | S754_nan => False
  end.

Lemma second_shift z k :
  0 ≤ z → z ≤ 2 ^ Z.max (k - cexp k) 0 →
  let n := cexp (Zdigits2 z + cexp k) - cexp k in
  n ≤ 0 ∨ (n = 1 ∧ z = 2 ^ 53).
Proof.
  intros Hz Hle n. subst n. unfold cexp in *.
  destruct (Z.eq_dec z 0) as [->|Hne]; [cbn [Zdigits2]; lia|].
  destruct (Zdigits2_bounds z) as (Hd & Hlo & Hhi); [lia|].
  set (j := Z.max (k - Z.max (k - 53) (-1074)) 0) in *.
  assert (Zdigits2 z - 1 ≤ j) as Hdj.
  { destruct (Z.le_gt_cases (Zdigits2 z - 1) j) as [|Hgt]; [done|].
    assert (2 ^ j < 2 ^ (Zdigits2 z - 1)); [|lia].
    apply Z.pow_lt_mono_r; lia. }
  destruct (Z.le_gt_cases (Zdigits2 z) (k - Z.max (k - 53) (-1074)))
    as [Hsmall|Hbig]; [lia|].
  destruct (Z.lt_ge_cases (k - 53) (-1074)) as [Hsub|Hnorm]; [lia|].
  right. assert (j = 53) as Hj by lia.
  assert (Zdigits2 z = 54) as Hdz by lia.
  rewrite Hj in Hle. rewrite Hdz in Hlo. change (54 - 1) with 53 in Hlo. lia.
Qed.

Theorem binary_round_aux_correct x k y m e l :
  (0 < x)%Q → mag_of x k → 0 < m → located y m l → (x == y * bpow e)%Q →
  e ≤ cexp k →
  rounded_spec x k (binary_round_aux prec emax false m e l).
Proof.
  intros Hx Hmag Hm Hloc Hxy He.
  assert (Zdigits2 m + e = k) as Hdig.
  { eapply mag_of_unique; [|exact Hmag].
    apply (mag_of_Qeq (y * bpow e)); [by symmetry|].
    apply mag_of_scale. by eapply mag_of_located. }
  unfold binary_round_aux, shr_fexp.
  change (SpecFloat.fexp prec emax (Zdigits2 m + e))
    with (cexp (Zdigits2 m + e)).
  rewrite Hdig.
  destruct (shr_located x y (shr_record_of_loc m l) e (cexp k - e))
    as (mrs1 & Hshr1 & Hloc1 & Hm1); [done| |lia|].
  { split; [|rewrite shr_record_of_loc_m; lia].
    by rewrite shr_record_of_loc_m, loc_of_shr_record_of_loc. }
  replace (e + (cexp k - e)) with (cexp k) in * by lia.
  rewrite Hshr1, (rne_located _ _ _ Hloc1).
  set (z := rne (x * bpow (- cexp k))).
  assert (0 < x * bpow (- cexp k))%Q as Hy1
    by (apply Qmult_lt_0_compat; [done | apply bpow_pos]).
  assert (0 ≤ z) as Hz by (apply rne_ge_inject, Qlt_le_weak, Hy1).
  assert (z ≤ 2 ^ Z.max (k - cexp k) 0) as Hzle.
  { apply rne_le_inject. rewrite <- bpow_inject by lia.
    destruct (mag_of_scale _ _ (- cexp k) Hmag) as [_ Hlt].
    apply Qlt_le_weak. eapply Qlt_le_trans; [exact Hlt|].
    apply bpow_le. lia. }
  change (SpecFloat.fexp prec emax (Zdigits2 z + cexp k))
    with (cexp (Zdigits2 z + cexp k)).
  destruct (second_shift z k Hz Hzle) as [Hn | [Hn Hz53]].
  - assert (shr (shr_record_of_loc z loc_Exact) (cexp k)
              (cexp (Zdigits2 z + cexp k) - cexp k)
            = (shr_record_of_loc z loc_Exact, cexp k)) as ->.
    { destruct (cexp (Zdigits2 z + cexp k) - cexp k); [done | lia | done]. }
    cbn [shr_record_of_loc shr_m].
    unfold rounded_spec. fold z.
    destruct z as [|p|p]; [done| |lia].
    change (Z.sub emax prec) with 971.
    destruct (Z.leb_spec (cexp k) 971); [split; [done|reflexivity] | split; [done|lia]].
  - rewrite Hn. rewrite Hz53.
    change (shr (shr_record_of_loc (2 ^ 53) loc_Exact) (cexp k) 1)
      with (Build_shr_record (2 ^ 52) false false, cexp k + 1).
    cbn [shr_m]. change (2 ^ 52) with (Z.pos (2 ^ 52)).
    change (Z.sub emax prec) with 971. unfold rounded_spec. fold z.
    destruct (Z.leb_spec (cexp k + 1) 971); [|split; [done|lia]].
    split; [done|]. rewrite Hz53, bpow_succ.
    change (inject_Z (Z.pos (2 ^ 52))) with (inject_Z (2 ^ 52)).
    change (2 ^ 53) with (2 * 2 ^ 52). rewrite inject_Z_mult. 
    change (inject_Z 2) with 2%Q. ring.
Qed.

(** ** Rounding as a function on values *)

(** The rounding of a value [x] of binade [k]. *)
Definition rnd (x : Q) (k : Z) : Q :=
  (inject_Z (rne (x * bpow (- cexp k))) * bpow (cexp k))%Q.

Lemma cexp_mono k k' : k ≤ k' → cexp k ≤ cexp k'.
Proof. unfold cexp. lia. Qed.

Lemma rnd_upper x k : mag_of x k → (rnd x k <= bpow (Z.max k (cexp k)))%Q.
Proof.
  intros [_ Hlt]. unfold rnd.
  assert (rne (x * bpow (- cexp k)) ≤ 2 ^ (Z.max k (cexp k) - cexp k)) as Hle.
  { apply rne_le_inject. rewrite <- bpow_inject by lia.
    replace (Z.max k (cexp k) - cexp k) with (Z.max k (cexp k) + - cexp k)
      by lia.
    rewrite bpow_plus. apply Qmult_le_compat_r; [|apply Qlt_le_weak, bpow_pos].
    apply Qlt_le_weak. eapply Qlt_le_trans; [exact Hlt|]. apply bpow_le. lia. }
  rewrite Zle_Qle in Hle. rewrite <- bpow_inject in Hle by lia.
  replace (Z.max k (cexp k)) with ((Z.max k (cexp k) - cexp k) + cexp k)
    by lia.
  rewrite bpow_plus. by apply Qmult_le_compat_r; [|apply Qlt_le_weak, bpow_pos].
Qed.

Lemma rnd_lower x k :
  mag_of x k → cexp k ≤ k - 1 → (bpow (k - 1) <= rnd x k)%Q.
Proof.
  intros [Hge _] Hc. unfold rnd.
  assert (2 ^ (k - 1 - cexp k) ≤ rne (x * bpow (- cexp k))) as Hle.
  { apply rne_ge_inject. rewrite <- bpow_inject by lia.
    replace (k - 1 - cexp k) with ((k - 1) + - cexp k) by lia.
    rewrite bpow_plus. by apply Qmult_le_compat_r; [|apply Qlt_le_weak, bpow_pos]. }
  rewrite Zle_Qle in Hle. rewrite <- bpow_inject in Hle by lia.
  replace (k - 1) with ((k - 1 - cexp k) + cexp k) at 1 by lia.
  rewrite bpow_plus. by apply Qmult_le_compat_r; [|apply Qlt_le_weak, bpow_pos].
Qed.

Lemma rnd_Qeq x x' k : (x == x')%Q → (rnd x k == rnd x' k)%Q.
Proof.
  intros Heq. unfold rnd.
  assert (rne (x * bpow (- cexp k)) = rne (x' * bpow (- cexp k))) as ->
    by (apply rne_Qeq; by rewrite Heq).
  reflexivity.
Qed.

(** Rounding is monotone. *)
Lemma rnd_mono x x' k k' :
  (x <= x')%Q → mag_of x k → mag_of x' k' → (rnd x k <= rnd x' k')%Q.
Proof.
  intros Hle Hk Hk'. pose proof (mag_of_le _ _ _ _ Hle Hk Hk') as Hkk.
  destruct (Z.eq_dec (cexp k) (cexp k')) as [Heq|Hne].
  - unfold rnd. rewrite <- Heq.
    apply Qmult_le_compat_r; [|apply Qlt_le_weak, bpow_pos].
    rewrite <- Zle_Qle. apply rne_mono.
    by apply Qmult_le_compat_r; [|apply Qlt_le_weak, bpow_pos].
  - assert (cexp k < cexp k') as Hlt by (unfold cexp in *; lia).
    apply Qle_trans with (bpow (k' - 1)).
    + eapply Qle_trans; [by apply rnd_upper|]. apply bpow_le.
      unfold cexp in *. lia.
    + apply rnd_lower; [done|]. unfold cexp in *. lia.
Qed.

(** A value with enough trailing zeros is its own rounding. *)
Lemma rnd_exact x k n e :
  mag_of x k → (x == inject_Z n * bpow e)%Q → cexp k ≤ e → (rnd x k == x)%Q.
Proof.
  intros Hk Hx He. unfold rnd.
  assert (x * bpow (- cexp k) == inject_Z (n * 2 ^ (e - cexp k)))%Q as Hy.
  { rewrite inject_Z_mult, <- bpow_inject, Hx by lia.
    replace (e - cexp k) with (e + - cexp k) by lia.
    rewrite bpow_plus. ring. }
  rewrite (rne_Qeq _ _ Hy), rne_inject, inject_Z_mult, <- bpow_inject by lia.
  rewrite Hx, <- Qmult_assoc, <- bpow_plus.
  by replace (e - cexp k + cexp k) with e by lia.
Qed.

(** ** Values of floats *)

(** The value of a finite float; the other floats are given value 0. *)
Definition SF2Q (f : spec_float) : Q :=
  match f with
  | S754_finite s m e =>
      ((if s then -1 else 1) * inject_Z (Z.pos m) * bpow e)%Q
  | _ => 0%Q
  end.

(** A float that is zero or positive and finite. *)
Definition nonneg_finite (f : spec_float) : Prop :=
  match f with
  | S754_zero _ => True
  | S754_finite s _ _ => s = false
  | _ => False
  end.

Lemma rounded_spec_value x k r :
  rounded_spec x k r → cexp k < 971 →
  nonneg_finite r ∧ (SF2Q r == rnd x k)%Q.
Proof.
  unfold rounded_spec, rnd.
  destruct r as [s|s| |s m e]; cbn [nonneg_finite SF2Q]; [|lia|done|].
  - intros [-> ->] _. split; [done|]. ring.
  - intros [-> Heq] _. split; [done|]. rewrite <- Heq. ring.
Qed.

(** ** Comparison of valid floats *)

Lemma valid_finite_canonical s m e :
  valid_binary (S754_finite s m e) = true →
  cexp (Z.pos (digits2_pos m) + e) = e ∧ e ≤ 971.
Proof.
  cbn [SpecFloat.valid_binary]. unfold bounded, canonical_mantissa.
  intros [H1 H2]%andb_true_iff. apply Z.eqb_eq in H1. apply Z.leb_le in H2.
  done.
Qed.

Lemma canonical_value_lt m1 e1 m2 e2 :
  cexp (Z.pos (digits2_pos m1) + e1) = e1 →
  cexp (Z.pos (digits2_pos m2) + e2) = e2 →
  e1 < e2 →
  (inject_Z (Z.pos m1) * bpow e1 < inject_Z (Z.pos m2) * bpow e2)%Q.
Proof.
  unfold cexp. intros H1 H2 Hlt.
  pose proof (digits2_pos_bounds m1) as [_ Hhi].
  pose proof (digits2_pos_bounds m2) as [Hlo _].
  assert (Z.pos (digits2_pos m2) = 53) as Hd2 by lia.
  assert (Z.pos (digits2_pos m1) ≤ 53) as Hd1 by lia.
  rewrite Hd2 in Hlo. change (53 - 1) with 52 in Hlo.
  assert (Z.pos m1 < 2 ^ 53) as Hm1.
  { eapply Z.lt_le_trans; [exact Hhi|]. apply Z.pow_le_mono_r; lia. }
  rewrite Zlt_Qlt in Hm1. rewrite Zle_Qle in Hlo.
  rewrite <- !bpow_inject in * by lia.
  apply Qlt_le_trans with (bpow 53 * bpow e1)%Q.
  { apply Qmult_lt_compat_r; [apply bpow_pos | done]. }
  apply Qle_trans with (bpow 52 * bpow e2)%Q.
  { rewrite <- !bpow_plus. apply bpow_le. lia. }
  apply Qmult_le_compat_r; [done | apply Qlt_le_weak, bpow_pos].
Qed.

Lemma SFcompare_values r1 r2 :
  valid_binary r1 = true → valid_binary r2 = true →
  nonneg_finite r1 → nonneg_finite r2 →
  SFcompare r1 r2 = Some (SF2Q r1 ?= SF2Q r2)%Q.
Proof.
  destruct r1 as [s1|s1| |s1 m1 e1], r2 as [s2|s2| |s2 m2 e2];
    cbn [nonneg_finite SF2Q SFcompare]; try done.
  - intros _ _ _ ->. f_equal. symmetry. apply Qcompare_Lt.
    apply Qmult_lt_0_compat; [|apply bpow_pos]. reflexivity.
  - intros _ _ -> _. f_equal. symmetry. apply Qcompare_Gt.
    apply Qmult_lt_0_compat; [|apply bpow_pos]. reflexivity.
  - intros [Hc1 _]%valid_finite_canonical [Hc2 _]%valid_finite_canonical -> ->.
    f_equal. rewrite !Qmult_1_l.
    destruct (Z.compare_spec e1 e2) as [->|Hlt|Hgt].
    + pose proof (bpow_pos e2) as Hb.
      change (Pos.compare_cont Eq m1 m2) with (Z.pos m1 ?= Z.pos m2).
      destruct (Z.compare_spec (Z.pos m1) (Z.pos m2)) as [Heq|Hlt|Hgt];
        symmetry.
      * apply Qcompare_Eq. by rewrite Heq.
      * apply Qcompare_Lt, Qmult_lt_compat_r; [done|]. by rewrite <- Zlt_Qlt.
      * apply Qcompare_Gt, Qmult_lt_compat_r; [done|]. by rewrite <- Zlt_Qlt.
    + symmetry. by apply Qcompare_Lt, canonical_value_lt.
    + symmetry. by apply Qcompare_Gt, canonical_value_lt.
Qed.

Lemma SFleb_values r1 r2 :
  valid_binary r1 = true → valid_binary r2 = true →
  nonneg_finite r1 → nonneg_finite r2 →
  SFleb r1 r2 = true ↔ (SF2Q r1 <= SF2Q r2)%Q.
Proof.
  intros Hv1 Hv2 Hn1 Hn2. unfold SFleb.
  rewrite (SFcompare_values _ _ Hv1 Hv2 Hn1 Hn2).
  destruct (Qcompare_spec (SF2Q r1) (SF2Q r2)) as [H|H|H]; split; try done.
  - intros _. lra.
  - intros _. lra.
  - intros Hle. lra.
Qed.

Lemma SFltb_values r1 r2 :
  valid_binary r1 = true → valid_binary r2 = true →
  nonneg_finite r1 → nonneg_finite r2 →
  SFltb r1 r2 = true ↔ (SF2Q r1 < SF2Q r2)%Q.
Proof.
  intros Hv1 Hv2 Hn1 Hn2. unfold SFltb.
  rewrite (SFcompare_values _ _ Hv1 Hv2 Hn1 Hn2).
  destruct (Qcompare_spec (SF2Q r1) (SF2Q r2)) as [H|H|H]; split; try done.
  - intros Hlt. lra.
  - intros Hlt. lra.
Qed.

(** ** Conversion of an integer *)

Lemma Zdigits2_unique m d :
  0 < d → 2 ^ (d - 1) ≤ m < 2 ^ d → Zdigits2 m = d.
Proof.
  intros Hd [Hlo Hhi].
  assert (0 < m) as Hm by (pose proof (Z.pow_pos_nonneg 2 (d - 1)); lia).
  destruct (Zdigits2_bounds m Hm) as (Hd' & Hlo' & Hhi').
  destruct (Z.lt_trichotomy (Zdigits2 m) d) as [Hlt|[Heq|Hgt]]; [|done|].
  - assert (2 ^ Zdigits2 m ≤ 2 ^ (d - 1)) by (apply Z.pow_le_mono_r; lia). lia.
  - assert (2 ^ d ≤ 2 ^ (Zdigits2 m - 1)) by (apply Z.pow_le_mono_r; lia). lia.
Qed.

Lemma pos_iter_xO p n : Z.pos (Pos.iter xO p n) = Z.pos p * 2 ^ Z.pos n.
Proof.
  induction n as [|n IH] using Pos.peano_ind.
  - cbn [Pos.iter]. lia.
  - rewrite Pos.iter_succ, Pos2Z.inj_succ, Z.pow_succ_r by lia.
    rewrite Pos2Z.inj_xO, IH. lia.
Qed.

Lemma valid_normal m e :
  Z.pos (digits2_pos m) = 53 → -1074 ≤ e ≤ 971 →
  valid_binary (S754_finite false m e) = true.
Proof.
  intros Hd He. cbn [SpecFloat.valid_binary]. unfold bounded, canonical_mantissa.
  apply andb_true_iff.
  split; [apply Z.eqb_eq | apply Z.leb_le; change (Z.sub emax prec) with 971; lia].
  change (SpecFloat.fexp prec emax (Z.pos (digits2_pos m) + e))
    with (cexp (Z.pos (digits2_pos m) + e)).
  rewrite Hd. unfold cexp. lia.
Qed.

Lemma binary_round_aux_canonical m e :
  Z.pos (digits2_pos m) = 53 → -1074 ≤ e ≤ 971 →
  binary_round_aux prec emax false (Z.pos m) e loc_Exact
  = S754_finite false m e.
Proof.
  intros Hd He. unfold binary_round_aux, shr_fexp.
  cbn [Zdigits2 shr_record_of_loc].
  change (SpecFloat.fexp prec emax (Z.pos (digits2_pos m) + e))
    with (cexp (Z.pos (digits2_pos m) + e)).
  rewrite Hd. replace (cexp (53 + e) - e) with 0 by (unfold cexp; lia).
  cbn [shr shr_m loc_of_shr_record round_nearest_even Zdigits2
       shr_record_of_loc].
  change (SpecFloat.fexp prec emax (Z.pos (digits2_pos m) + e))
    with (cexp (Z.pos (digits2_pos m) + e)).
  rewrite Hd. replace (cexp (53 + e) - e) with 0 by (unfold cexp; lia).
  cbn [shr shr_m]. change (Z.sub emax prec) with 971.
  by destruct (Z.leb_spec e 971); [|lia].
Qed.

(** The conversion of a positive integer below [2^53] is exact. *)
Lemma binary_normalize_int z :
  0 < z < 2 ^ 53 →
  ∃ m e, binary_normalize prec emax z 0 false = S754_finite false m e ∧
         Z.pos (digits2_pos m) = 53 ∧ -52 ≤ e ≤ 0 ∧
         (inject_Z (Z.pos m) * bpow e == inject_Z z)%Q.
Proof.
  destruct z as [|p|p]; [lia| |lia]. intros [_ Hp].
  pose proof (digits2_pos_bounds p) as [Hlo Hhi].
  set (d := Z.pos (digits2_pos p)) in *.
  assert (0 < d ≤ 53) as Hd.
  { split; [done|]. destruct (Z.le_gt_cases d 53) as [|Hgt]; [done|].
    assert (2 ^ 53 ≤ 2 ^ (d - 1)) by (apply Z.pow_le_mono_r; lia). lia. }
  cbn [binary_normalize]. unfold binary_round.
  change (SpecFloat.fexp prec emax (Z.pos (digits2_pos p) + 0))
    with (cexp (d + 0)).
  replace (cexp (d + 0)) with (d - 53) by (unfold cexp; lia).
  unfold shl_align. destruct (d - 53 - 0) as [|q|q] eqn:Hq; [|lia|].
  - assert (d = 53) as Hd53 by lia.
    exists p, 0. rewrite binary_round_aux_canonical by (done || lia).
    split; [done|]. split; [done|]. split; [lia|].
    rewrite bpow_0. ring.
  - assert (Z.pos q = 53 - d) as Hq' by lia.
    assert (Z.pos (Pos.iter xO p q) = Z.pos p * 2 ^ (53 - d)) as Hm
      by (rewrite pos_iter_xO; by rewrite Hq').
    assert (2 ^ 52 = 2 ^ (d - 1) * 2 ^ (53 - d)) as H52
      by (rewrite <- Z.pow_add_r by lia; f_equal; lia).
    assert (2 ^ 53 = 2 ^ d * 2 ^ (53 - d)) as H53
      by (rewrite <- Z.pow_add_r by lia; f_equal; lia).
    assert (0 < 2 ^ (53 - d)) as Hpow by (apply Z.pow_pos_nonneg; lia).
    assert (Z.pos (digits2_pos (Pos.iter xO p q)) = 53) as Hdig.
    { apply (Zdigits2_unique (Z.pos (Pos.iter xO p q)) 53); [lia|].
      rewrite Hm. change (53 - 1) with 52. rewrite H52, H53. nia. }
    exists (Pos.iter xO p q), (d - 53).
    rewrite binary_round_aux_canonical by (done || lia).
    split; [done|]. split; [done|]. split; [lia|].
    rewrite Hm, inject_Z_mult, <- bpow_inject, <- Qmult_assoc, <- bpow_plus by lia.
    replace (53 - d + (d - 53)) with 0 by lia. rewrite bpow_0. ring.
Qed.

(** ** Truncation *)

Lemma shiftl_floor m e :
  0 ≤ Z.shiftl (Z.pos m) e ∧
  (inject_Z (Z.shiftl (Z.pos m) e) <= inject_Z (Z.pos m) * bpow e)%Q.
Proof.
  destruct (Z.le_gt_cases 0 e) as [He|He].
  - rewrite Z.shiftl_mul_pow2 by done. split; [lia|].
    rewrite inject_Z_mult, <- bpow_inject by done. lra.
  - rewrite Z.shiftl_div_pow2 by lia.
    assert (0 < 2 ^ (- e)) as Hpow by (apply Z.pow_pos_nonneg; lia).
    split; [apply Z.div_pos; lia|].
    pose proof (Z.mul_div_le (Z.pos m) (2 ^ (- e)) Hpow) as Hle.
    rewrite Zle_Qle, inject_Z_mult, <- bpow_inject in Hle by lia.
    pose proof (bpow_pos e) as Hb. pose proof (bpow_mul_opp e) as Hinv.
    apply Qle_trans
      with (bpow (- e) * inject_Z (Z.pos m / 2 ^ (- e)) * bpow e)%Q.
    + assert (bpow (- e) * inject_Z (Z.pos m / 2 ^ (- e)) * bpow e
              == inject_Z (Z.pos m / 2 ^ (- e)))%Q as Heq.
      { transitivity
          (inject_Z (Z.pos m / 2 ^ (- e)) * (bpow e * bpow (- e)))%Q; [ring|].
        rewrite Hinv. ring. }
      rewrite Heq. apply Qle_refl.
    + by apply Qmult_le_compat_r; [|apply Qlt_le_weak].
Qed.

(** ** Multiplication *)

Lemma SF2Q_finite m e :
  (SF2Q (S754_finite false m e) == inject_Z (Z.pos m) * bpow e)%Q.
Proof. cbn [SF2Q]. ring. Qed.

Lemma SF2Q_pos m e : (0 < SF2Q (S754_finite false m e))%Q.
Proof.
  rewrite SF2Q_finite. apply Qmult_lt_0_compat; [reflexivity | apply bpow_pos].
Qed.

Lemma SFmul_spec m1 e1 m2 e2 :
  Z.pos (digits2_pos m2) = 53 →
  ∃ k,
    mag_of (SF2Q (S754_finite false m1 e1) * SF2Q (S754_finite false m2 e2)) k ∧
    rounded_spec
      (SF2Q (S754_finite false m1 e1) * SF2Q (S754_finite false m2 e2)) k
      (SFmul prec emax (S754_finite false m1 e1) (S754_finite false m2 e2)).
Proof.
  intros Hd2. cbn [SFmul xorb].
  set (x := (SF2Q (S754_finite false m1 e1)
             * SF2Q (S754_finite false m2 e2))%Q).
  assert (x == inject_Z (Z.pos (m1 * m2)) * bpow (e1 + e2))%Q as Hx.
  { unfold x. rewrite !SF2Q_finite, Pos2Z.inj_mul, inject_Z_mult, bpow_plus.
    ring. }
  exists (Zdigits2 (Z.pos (m1 * m2)) + (e1 + e2)).
  assert (mag_of x (Zdigits2 (Z.pos (m1 * m2)) + (e1 + e2))) as Hmag.
  { apply (mag_of_Qeq (inject_Z (Z.pos (m1 * m2)) * bpow (e1 + e2)));
      [by symmetry|].
    apply mag_of_scale, mag_of_inject. lia. }
  split; [done|].
  apply (binary_round_aux_correct x _ (inject_Z (Z.pos (m1 * m2)))); try done.
  - unfold x. apply Qmult_lt_0_compat; apply SF2Q_pos.
  - by constructor.
  - pose proof (digits2_pos_bounds m2) as [Hlo _].
    rewrite Hd2 in Hlo. change (53 - 1) with 52 in Hlo.
    destruct (Zdigits2_bounds (Z.pos (m1 * m2))) as (Hd & _ & Hhi); [lia|].
    assert (52 < Zdigits2 (Z.pos (m1 * m2))).
    { apply (Z.pow_lt_mono_r_iff 2); [lia | lia |]. nia. }
    unfold cexp. lia.
Qed.

(** ** Division *)

Lemma div_eucl_eq a b : Z.div_eucl a b = (a / b, a mod b).
Proof. unfold Z.div, Z.modulo. by destruct (Z.div_eucl a b). Qed.

Lemma new_location_located a b :
  0 ≤ a → 0 < b →
  located (inject_Z a / inject_Z b) (a / b) (new_location b (a mod b)).
Proof.
  intros Ha Hb.
  pose proof (Z.div_mod a b) as Hdm. pose proof (Z.mod_pos_bound a b Hb) as Hr.
  set (q := a / b) in *. set (r := a mod b) in *.
  assert (0 < inject_Z b)%Q as HB by (by apply (inject_Z_lt 0 b)).
  assert (inject_Z a / inject_Z b * inject_Z b
          == inject_Z b * inject_Z q + inject_Z r)%Q as Hy.
  { rewrite Qmult_comm, Qmult_div_r by lra.
    rewrite Hdm at 1 by lia. by rewrite inject_Z_plus, inject_Z_mult. }
  set (y := (inject_Z a / inject_Z b)%Q) in *.
  assert (∀ u v : Q, (u * inject_Z b < v * inject_Z b)%Q → (u < v)%Q) as Hlt
    by (intros u v; by apply Qmult_lt_r).
  assert (0 <= inject_Z r)%Q as Hr0 by (apply (inject_Z_le 0 r), Hr).
  assert (inject_Z r < inject_Z b)%Q as Hrb by (apply inject_Z_lt, Hr).
  assert (∀ c, r ≠ 0 → (y ?= inject_Z q + (1 # 2))%Q = c →
               located y q (loc_Inexact c)) as Hin.
  { intros c Hr' Hc. constructor; [| |done].
    - apply Hlt. rewrite Hy.
      assert (0 < inject_Z r)%Q by (apply (inject_Z_lt 0 r); lia). lra.
    - apply Hlt. rewrite Hy. lra. }
  assert (2 * r < b → (y ?= inject_Z q + (1 # 2))%Q = Lt) as HLt.
  { intros H%inject_Z_lt. rewrite inject_Z_mult in H.
    apply Qcompare_Lt, Hlt. rewrite Hy. change (inject_Z 2) with 2%Q in H. lra. }
  assert (b < 2 * r → (y ?= inject_Z q + (1 # 2))%Q = Gt) as HGt.
  { intros H%inject_Z_lt. rewrite inject_Z_mult in H.
    apply Qcompare_Gt, Hlt. rewrite Hy. change (inject_Z 2) with 2%Q in H. lra. }
  assert (2 * r = b → (y ?= inject_Z q + (1 # 2))%Q = Eq) as HEq.
  { intros H. apply (f_equal inject_Z) in H. rewrite inject_Z_mult in H.
    change (inject_Z 2) with 2%Q in H.
    apply Qcompare_Eq. apply (Qmult_inj_r _ _ (inject_Z b)); [lra|].
    rewrite Hy, <- H. ring. }
  assert (r = 0 → located y q loc_Exact) as Hex.
  { intros Hr'. constructor. apply (Qmult_inj_r _ _ (inject_Z b)); [lra|].
    rewrite Hy, Hr'. change (inject_Z 0) with 0%Q. ring. }
  unfold new_location, new_location_even, new_location_odd.
  destruct (Z.even b) eqn:Heven; cbv beta;
    (destruct (Z.eqb_spec r 0) as [Hr'|Hr']; [by apply Hex|]);
    apply Hin; try done.
  - destruct (Z.compare_spec (2 * r) b); auto.
  - assert (2 * r ≠ b) as Hne.
    { intros Heq. rewrite <- Heq in Heven. by rewrite Z.even_mul in Heven. }
    destruct (Z.compare_spec (2 * r + 1) b);
      [apply HLt|apply HLt|apply HGt]; lia.
Qed.

Lemma SFdiv_core_normal m1 e1 m2 e2 :
  Z.pos (digits2_pos m1) = 53 → Z.pos (digits2_pos m2) = 53 →
  -1021 ≤ e1 - e2 →
  SFdiv_core_binary prec emax (Z.pos m1) e1 (Z.pos m2) e2
  = ((Z.pos m1 * 2 ^ 53) / Z.pos m2, e1 - e2 - 53,
     new_location (Z.pos m2) ((Z.pos m1 * 2 ^ 53) mod Z.pos m2)).
Proof.
  intros Hd1 Hd2 He. unfold SFdiv_core_binary. cbn [Zdigits2].
  rewrite Hd1, Hd2.
  change (SpecFloat.fexp prec emax (53 + e1 - (53 + e2)))
    with (cexp (53 + e1 - (53 + e2))).
  replace (Z.min (cexp (53 + e1 - (53 + e2))) (e1 - e2)) with (e1 - e2 - 53)
    by (unfold cexp; lia).
  replace (e1 - e2 - (e1 - e2 - 53)) with 53 by lia.
  cbv iota beta. rewrite div_eucl_eq, Z.shiftl_mul_pow2 by lia. done.
Qed.

Lemma SFdiv_spec m1 e1 m2 e2 :
  Z.pos (digits2_pos m1) = 53 → Z.pos (digits2_pos m2) = 53 →
  -1021 ≤ e1 - e2 →
  ∃ k,
    mag_of (SF2Q (S754_finite false m1 e1) / SF2Q (S754_finite false m2 e2)) k ∧
    k ≤ e1 - e2 + 1 ∧
    rounded_spec
      (SF2Q (S754_finite false m1 e1) / SF2Q (S754_finite false m2 e2)) k
      (SFdiv prec emax (S754_finite false m1 e1) (S754_finite false m2 e2)).
Proof.
  intros Hd1 Hd2 He. cbn [SFdiv xorb].
  rewrite (SFdiv_core_normal _ _ _ _ Hd1 Hd2 He).
  pose proof (digits2_pos_bounds m1) as [Hlo1 Hhi1].
  pose proof (digits2_pos_bounds m2) as [Hlo2 Hhi2].
  rewrite Hd1 in Hlo1, Hhi1. rewrite Hd2 in Hlo2, Hhi2.
  change (53 - 1) with 52 in *.
  set (a := Z.pos m1 * 2 ^ 53). set (q := a / Z.pos m2).
  assert (2 ^ 52 ≤ q) as Hq1.
  { apply Z.div_le_lower_bound; [lia|]. unfold a. nia. }
  assert (q < 2 ^ 54) as Hq2.
  { apply Z.div_lt_upper_bound; [lia|]. unfold a.
    change (2 ^ 54) with (2 * 2 ^ 53). nia. }
  set (x := (SF2Q (S754_finite false m1 e1)
             / SF2Q (S754_finite false m2 e2))%Q).
  assert (x == inject_Z a / inject_Z (Z.pos m2) * bpow (e1 - e2 - 53))%Q as Hx.
  { assert (¬ inject_Z (Z.pos m2) == 0)%Q as Hm2 by done.
    pose proof (SF2Q_pos m2 e2) as Hpos2.
    apply (Qmult_inj_r _ _ (SF2Q (S754_finite false m2 e2))); [lra|].
    unfold x. rewrite Qmult_comm, Qmult_div_r by lra.
    unfold a. rewrite !SF2Q_finite, inject_Z_mult, <- bpow_inject by lia.
    replace (e1 - e2 - 53) with (e1 + - e2 + - 53) by lia.
    rewrite !bpow_plus. unfold Qdiv.
    transitivity (inject_Z (Z.pos m1) * bpow e1
                  * (inject_Z (Z.pos m2) * / inject_Z (Z.pos m2))
                  * (bpow 53 * bpow (- 53)) * (bpow e2 * bpow (- e2)))%Q;
      [|ring].
    rewrite Qmult_inv_r, !bpow_mul_opp by done. ring. }
  assert (located (inject_Z a / inject_Z (Z.pos m2)) q
            (new_location (Z.pos m2) (a mod Z.pos m2))) as Hloc
    by (apply new_location_located; unfold a; lia).
  assert (52 < Zdigits2 q ≤ 54) as Hdq.
  { destruct (Zdigits2_bounds q) as (Hd & Hlo & Hhi); [lia|]. split.
    - apply (Z.pow_lt_mono_r_iff 2); lia.
    - destruct (Z.le_gt_cases (Zdigits2 q) 54) as [|Hgt]; [done|].
      assert (2 ^ 54 ≤ 2 ^ (Zdigits2 q - 1)) by (apply Z.pow_le_mono_r; lia).
      lia. }
  assert (mag_of x (Zdigits2 q + (e1 - e2 - 53))) as Hmag.
  { apply (mag_of_Qeq _ _ _ (Qeq_sym _ _ Hx)).
    apply mag_of_scale. eapply mag_of_located; [|exact Hloc]. lia. }
  exists (Zdigits2 q + (e1 - e2 - 53)). split; [done|]. split; [lia|].
  eapply (binary_round_aux_correct x); try done.
  - unfold x. apply Qlt_shift_div_l; [apply SF2Q_pos|].
    rewrite Qmult_0_l. apply SF2Q_pos.
  - lia.
  - unfold cexp. lia.
Qed.

End IEEE.

(** * The worked example *)

Definition worked_example : list (list string) :=
  [["A"; "B"]; ["A"; "B"]; ["A"; "C"]; ["B"; "C"]; ["A"; "B"; "C"]]%string.

Lemma float_neq (x y : float) : Prim2SF x ≠ Prim2SF y → x ≠ y.
Proof. intros H ->. by apply H. Qed.

(** [min_support] lies in the unit interval (which excludes [nan] and the
    infinities). *)
Definition unit_interval (x : float) : Prop :=
  PrimFloat.leb 0 x = true ∧ PrimFloat.leb x 1 = true.

(** The content of an entry, as the [frozenset] key of the lookup table. *)
Definition content (e : entry) : gset string := list_to_set (itemset e).

(** ** C1: the worked example *)

(** The decimals 0.75 and 0.9375 of the worked example are the values of
    the rule A ⇒ B up to rounding, not bit for bit: the binary64 quotient
    of 0.6 by 0.8 is one unit in the last place below 0.75. *)
Lemma worked_example_not_bit_exact :
  ¬ ∃ s r,
      fit (configured 0.4 0.5) worked_example = Ok s ∧ r ∈ rules s ∧
      antecedent r = ["A"]%string ∧ consequent r = ["B"]%string ∧
      confidence r = 0.75%float ∧ lift r = 0.9375%float.
Proof.
  intros (s & r & Hfit & Hr & Ha & Hc & Hconf & _).
  vm_compute in Hfit. injection Hfit as <-. cbn [rules] in Hr.
  repeat (apply elem_of_cons in Hr as [->|Hr]); try by apply elem_of_nil in Hr.
  all: cbn [antecedent consequent confidence] in *; discriminate.
Qed.

(** C1: on the five transactions with [min_support = 0.4] and
    [min_confidence = 0.5] the count threshold is 2, the run emits exactly
    {A} 0.8, {B} 0.8, {C} 0.6, {A,B} 0.6, {A,C} 0.4, {B,C} 0.4, the set
    {A,B,C} (one transaction of five, quotient 0.2) is not emitted, and the
    rule A ⇒ B is kept with confidence 0.75 and lift 0.9375 within the
    tolerance 1e-9 of the specification (the binary64 values are
    0.7499999999999999 and 0.9374999999999998). *)
Theorem C1_worked_example :
  min_count 0.4 worked_example = Ok 2 ∧
  ∃ s,
    fit (configured 0.4 0.5) worked_example = Ok s ∧
    res_frequent_itemsets (get_results s) =
      [(["A"], 0.8); (["B"], 0.8); (["C"], 0.6);
       (["A"; "B"], 0.6); (["A"; "C"], 0.4); (["B"; "C"], 0.4)]%string%float ∧
    (∀ e, e ∈ frequent_itemsets s →
          content e ≠ list_to_set ["A"; "B"; "C"]%string) ∧
    support_count worked_example (list_to_set ["A"; "B"; "C"]%string) = 1%nat ∧
    Py.int_truediv 1 5 = Ok 0.2%float ∧
    ∃ r, r ∈ rules s ∧
      antecedent r = ["A"]%string ∧ consequent r = ["B"]%string ∧
      PrimFloat.leb 0.5 (confidence r) = true ∧
      confidence r = 0.74999999999999989%float ∧
      lift r = 0.93749999999999978%float ∧
      PrimFloat.leb (abs (confidence r - 0.75)) 1e-9 = true ∧
      PrimFloat.leb (abs (lift r - 0.9375)) 1e-9 = true.
Proof.
  split; [by vm_compute|].
  eexists. split; [vm_compute; reflexivity|].
  split; [by vm_compute|]. split.
  { intros e He. cbn [frequent_itemsets] in He. unfold content.
    repeat (apply elem_of_cons in He as [->|He]);
      try by apply elem_of_nil in He.
    all: cbn [itemset]; intros Heq;
      apply (f_equal (λ X : gset string, bool_decide ("C"%string ∈ X ∧
                                                     "A"%string ∈ X ∧
                                                     "B"%string ∈ X))) in Heq;
      vm_compute in Heq; discriminate. }
  split; [by vm_compute|]. split; [by vm_compute|].
  eexists. split; [cbn [rules]; left|]. cbn.
  repeat split; by vm_compute.
Qed.

(** ** C2: the empty input *)

Lemma unit_interval_SF ms :
  unit_interval ms →
  (∃ s, Prim2SF ms = S754_zero s) ∨ (∃ m e, Prim2SF ms = S754_finite false m e).
Proof.
  unfold unit_interval. rewrite !leb_spec.
  change (Prim2SF 0) with (S754_zero false).
  destruct (Prim2SF ms) as [s|s| |s m e]; intros [H0 H1].
  - left. by exists s.
  - destruct s; [discriminate H0 | discriminate H1].
  - discriminate H0.
  - right. destruct s; [discriminate H0|]. by exists m, e.
Qed.

Lemma min_count_empty ms : unit_interval ms → min_count ms [] = Ok 0.
Proof.
  intros Hms. unfold min_count, Py.int_of_float, Py.float_mul_int.
  change (Py.float_of_int (Z.of_nat (length []))) with 0%float.
  rewrite mul_spec. change (Prim2SF 0) with (S754_zero false).
  destruct (unit_interval_SF ms Hms) as [[s ->] | (m & e & ->)]; done.
Qed.

(** C2: on the empty transaction list a fresh object with [min_support]
    in the unit interval raises nothing; [frequent_itemsets] and [rules] are
    empty and both counts are 0. The vertical index is empty, so no loop
    body runs, although the support division by [N = 0] would raise. *)
Theorem C2_empty_input ms mc :
  unit_interval ms →
  ∃ s, fit (configured ms mc) [] = Ok s ∧
       frequent_itemsets s = [] ∧ rules s = [] ∧ tid_lists s = [] ∧
       get_results s = Results [] [] 0 0 ∧
       ∀ c, Py.int_truediv c (Z.of_nat (num_transactions s))
            = Raise ZeroDivisionError.
Proof.
  intros Hms. unfold fit. rewrite mine_configured, (min_count_empty ms Hms).
  eexists. split; [reflexivity|]. done.
Qed.

Lemma C2_empty_input_witness :
  unit_interval 0.05 ∧
  ∃ s, fit init [] = Ok s ∧
       frequent_itemsets s = [] ∧ rules s = [] ∧ tid_lists s = [] ∧
       get_results s = Results [] [] 0 0 ∧
       ∀ c, Py.int_truediv c (Z.of_nat (num_transactions s))
            = Raise ZeroDivisionError.
Proof.
  split; [by vm_compute|].
  apply (C2_empty_input 0.05 0.3). by vm_compute.
Defined.

(** ** C5: each itemset is generated once, in increasing item order *)

Lemma run_itemsets ms mc txs s' :
  mine (configured ms mc) txs = Ok s' ∨ fit (configured ms mc) txs = Ok s' →
  ∃ s1, mine (configured ms mc) txs = Ok s1 ∧
        frequent_itemsets s' = frequent_itemsets s1.
Proof.
  intros [H | (s1 & Hmine & Hgen)%fit_inv]; [by exists s'|].
  exists s1. split; [done|]. by apply generate_rules_Ok in Hgen as [? _].
Qed.

(** C5: after the mining steps of a run on a fresh object (and so after
    the whole of [fit], which leaves the list untouched), no two entries of
    [frequent_itemsets] have the same content, and the items of every entry
    are strictly increasing in the order of [sorted]. *)
Theorem C5_generated_once ms mc txs s' :
  mine (configured ms mc) txs = Ok s' ∨ fit (configured ms mc) txs = Ok s' →
  NoDup (content <$> frequent_itemsets s') ∧
  ∀ e, e ∈ frequent_itemsets s' → StronglySorted item_lt (itemset e).
Proof.
  intros (s1 & Hmine & ->)%run_itemsets.
  destruct (mine_sound _ _ _ _ Hmine) as (k & Hk & Hok).
  split; [|intros e He; apply (Hok e He)].
  change content with ((list_to_set : list string → gset string) ∘ itemset).
  rewrite list_fmap_compose. apply NoDup_fmap_2_strong; [|by eapply mine_NoDup].
  intros Q1 Q2 (e1 & -> & He1)%list_elem_of_fmap
    (e2 & -> & He2)%list_elem_of_fmap Heq.
  apply item_lt_sorted_content; [apply (Hok e1 He1) | apply (Hok e2 He2) | done].
Qed.

(** The object after the mining steps on the single transaction [B, A]. *)
Definition small_run : EclatAlgorithm :=
  Eclat 0.05 0.3
    [Entry ["B"] 1 {[0%nat]}; Entry ["A"] 1 {[0%nat]};
     Entry ["A"; "B"] 1 {[0%nat]}]%string%float
    [] [("B"%string, {[0%nat]}); ("A"%string, {[0%nat]})] 1.

Lemma C5_generated_once_witness :
  (mine (configured 0.05 0.3) [["B"; "A"]]%string = Ok small_run ∨
   fit (configured 0.05 0.3) [["B"; "A"]]%string = Ok small_run) ∧
  NoDup (content <$> frequent_itemsets small_run) ∧
  ∀ e, e ∈ frequent_itemsets small_run → StronglySorted item_lt (itemset e).
Proof.
  assert (mine (configured 0.05 0.3) [["B"; "A"]]%string = Ok small_run) as H
    by (vm_compute; reflexivity).
  split; [by left|].
  apply (C5_generated_once 0.05 0.3 [["B"; "A"]]%string small_run). by left.
Defined.

(** ** C7: rule closure *)

(** C7: every rule of a successful [fit] on a fresh object has a
    non-empty antecedent and a non-empty consequent, the two are disjoint,
    and their union is the content of an entry of [frequent_itemsets] with
    at least two items. *)
Theorem C7_rule_closure ms mc txs s' r :
  fit (configured ms mc) txs = Ok s' → r ∈ rules s' →
  antecedent r ≠ [] ∧ consequent r ≠ [] ∧
  (list_to_set (antecedent r) : gset string) ## list_to_set (consequent r) ∧
  ∃ e, e ∈ frequent_itemsets s' ∧ (2 ≤ length (itemset e))%nat ∧
       list_to_set (antecedent r) ∪ list_to_set (consequent r) = content e.
Proof.
  intros Hfit Hr.
  destruct (fit_rule_inv _ _ _ _ _ Hfit Hr)
    as (k & fs & fa & _ & Hfs & Hok & _ & _ & Hlen & Hsub & Hi & Hc & _).
  split; [intros Heq; rewrite Heq in Hi; simpl in Hi; lia|].
  split; [|split].
  - destruct (sublist_missing _ _ Hsub) as (x & Hx & Hnx);
      [apply item_lt_sorted_NoDup, Hok | lia |].
    rewrite Hc. intros Hnil.
    assert (x ∈ filter (λ it, it ∉ antecedent r) (itemset fs)) as Hin
      by by apply list_elem_of_filter.
    rewrite Hnil in Hin. by apply elem_of_nil in Hin.
  - rewrite Hc. intros x Ha Hcons.
    apply elem_of_list_to_set in Ha.
    apply elem_of_list_to_set, list_elem_of_filter in Hcons as [Hn _]. done.
  - exists fs. split; [done|]. split; [done|].
    unfold content. rewrite Hc. apply set_eq. intros x.
    rewrite elem_of_union, !elem_of_list_to_set, list_elem_of_filter.
    split.
    + intros [Ha | [_ ?]]; [by eapply elem_of_sublist | done].
    + intros Hx. destruct (decide (x ∈ antecedent r)); [by left | by right].
Qed.

(** ** C9: missing lookups never fail *)

(** The rule the loop body appends when the consequent is missing from the
    table: its lift is the confidence divided by the default 0.0001. *)
Definition smoothed_rule (its : list string) (isup : float) (ante : list string)
  (conf : float) : rule :=
  Rule ante (filter (λ it, it ∉ ante) its) isup conf
       (PrimFloat.div conf default_consequent_support).

(** An object whose list of itemsets is not closed downwards: the pair
    A, B is there with A, but B alone is not. *)
Definition gapped : EclatAlgorithm :=
  {| min_support := 0.05;
     min_confidence := 0.3;
     frequent_itemsets :=
       [Entry ["A"] 0.5 {[0%nat]}; Entry ["A"; "B"] 0.5 {[0%nat]}];
     rules := [];
     tid_lists := [];
     num_transactions := 2 |}.

Definition gapped_run : EclatAlgorithm :=
  Eval vm_compute in
    match _generate_rules gapped with
    | Ok s => s
    | Raise _ => gapped
    end.

Lemma float_truediv_Raise x y e :
  Py.float_truediv x y = Raise e →
  e = ZeroDivisionError ∧ PrimFloat.eqb y 0 = true.
Proof.
  unfold Py.float_truediv. destruct (PrimFloat.eqb y 0); [|discriminate].
  by intros [= <-].
Qed.

Lemma float_truediv_Ok x y q :
  Py.float_truediv x y = Ok q →
  PrimFloat.eqb y 0 = false ∧ q = PrimFloat.div x y.
Proof.
  unfold Py.float_truediv. destruct (PrimFloat.eqb y 0); [discriminate|].
  by intros [= <-].
Qed.

Lemma split_rule_Raise table mc its isup ante e :
  split_rule table mc its isup ante = Raise e →
  e = ZeroDivisionError ∧
  ∃ K z, table !! K = Some z ∧ PrimFloat.eqb z 0 = true ∧
         (K = list_to_set ante ∨
          K = list_to_set (filter (λ it, it ∉ ante) its)).
Proof.
  unfold split_rule.
  destruct (table !! list_to_set ante) as [asup|] eqn:Ha; [|discriminate].
  intros [H | (conf & Hconf & H)]%bind_Raise_inv.
  - apply float_truediv_Raise in H as [-> Hz]. split; [done|].
    exists (list_to_set ante), asup. auto.
  - destruct (PrimFloat.leb mc conf); [|discriminate].
    apply bind_Raise_inv in H as [H | (lft & _ & H)]; [|discriminate].
    apply float_truediv_Raise in H as [-> Hz]. split; [done|].
    destruct (table !! list_to_set (filter (λ it, it ∉ ante) its))
      as [csup|] eqn:Hc; cbn [default] in Hz; [|by vm_compute in Hz].
    exists (list_to_set (filter (λ it, it ∉ ante) its)), csup. auto.
Qed.

Lemma generate_rules_Raise self e :
  _generate_rules self = Raise e →
  e = ZeroDivisionError ∧
  ∃ fe, fe ∈ frequent_itemsets self ∧ PrimFloat.eqb (support fe) 0 = true.
Proof.
  unfold _generate_rules.
  intros [H | (rs & _ & H)]%bind_Raise_inv; [|discriminate].
  apply for_list_Raise in H as (fs & _ & H). unfold itemset_rules in H.
  destruct (Nat.ltb _ _); [discriminate|].
  apply for_list_Raise in H as (i & _ & H).
  apply for_list_Raise in H as (a & _ & H).
  apply split_rule_Raise in H as (-> & K & z & Hlook & Hz & _).
  split; [done|].
  apply support_table_lookup in Hlook as (fe & Hfe & _ & <-). eauto.
Qed.

(** An exception of [_generate_rules] is the division by a support that
    was found in the table, for some split of some entry. *)
Lemma generate_rules_Raise_split self e :
  _generate_rules self = Raise e →
  e = ZeroDivisionError ∧
  ∃ fs ante K z,
    fs ∈ frequent_itemsets self ∧ sublist ante (itemset fs) ∧
    (K = list_to_set ante ∨
     K = list_to_set (filter (λ it, it ∉ ante) (itemset fs))) ∧
    support_table (frequent_itemsets self) !! K = Some z ∧
    PrimFloat.eqb z 0 = true.
Proof.
  unfold _generate_rules.
  intros [H | (rs & _ & H)]%bind_Raise_inv; [|discriminate].
  apply for_list_Raise in H as (fs & Hfs & H). unfold itemset_rules in H.
  destruct (Nat.ltb _ _); [discriminate|].
  apply for_list_Raise in H as (i & _ & H).
  apply for_list_Raise in H as (a & Ha & H).
  apply split_rule_Raise in H as (-> & K & z & Hlook & Hz & HK).
  split; [done|]. exists fs, a, K, z.
  destruct (combinations_sublist _ _ _ Ha) as [Hsub _]. done.
Qed.

(** With no zero in the table the loop body returns. *)
Lemma split_rule_total table mc its isup ante :
  (∀ K z, table !! K = Some z → PrimFloat.eqb z 0 = false) →
  ∃ rs, split_rule table mc its isup ante = Ok rs.
Proof.
  intros Hnz.
  destruct (split_rule table mc its isup ante) as [rs|e] eqn:H; [eauto|].
  apply split_rule_Raise in H as (_ & K & z & Hlook & Hz & _).
  rewrite (Hnz K z Hlook) in Hz. discriminate.
Qed.

Lemma generate_rules_total self :
  (∀ fe, fe ∈ frequent_itemsets self → PrimFloat.eqb (support fe) 0 = false) →
  ∃ s', _generate_rules self = Ok s'.
Proof.
  intros Hnz.
  destruct (_generate_rules self) as [s'|e] eqn:H; [eauto|].
  apply generate_rules_Raise in H as (_ & fe & Hfe & Hz).
  rewrite (Hnz fe Hfe) in Hz. discriminate.
Qed.

(** The loops reach every split of every entry: the body is run on each
    non-empty proper sub-list of the items, and what it returns is in
    [rules]. *)
Lemma generate_rules_split self s' fs ante :
  _generate_rules self = Ok s' → fs ∈ frequent_itemsets self →
  sublist ante (itemset fs) → (1 ≤ length ante < length (itemset fs))%nat →
  ∃ rs,
    split_rule (support_table (frequent_itemsets self)) (min_confidence self)
      (itemset fs) (support fs) ante = Ok rs ∧
    ∀ r, r ∈ rs → r ∈ rules s'.
Proof.
  intros Hgen Hfs Hsub Hlen. unfold _generate_rules in Hgen.
  apply bind_Ok_inv in Hgen as (rs & Hrs & Hs). injection Hs as <-.
  cbn [rules].
  destruct (for_list_Ok_all _ _ _ Hrs fs Hfs) as [ys Hys].
  pose proof Hys as Hys'. unfold itemset_rules in Hys'.
  destruct (Nat.ltb_spec (length (itemset fs)) 2) as [|_]; [lia|].
  destruct (for_list_Ok_all _ _ _ Hys' (length ante)) as [zs Hzs];
    [apply elem_of_seq; lia|].
  destruct (for_list_Ok_all _ _ _ Hzs ante) as [ws Hws];
    [by apply combinations_complete|].
  exists ws. split; [done|]. intros r Hr.
  apply (for_list_Ok_elem _ _ _ Hrs). exists fs, ys. split; [done|].
  split; [done|].
  apply (for_list_Ok_elem _ _ _ Hys'). exists (length ante), zs.
  split; [apply elem_of_seq; lia|]. split; [done|].
  apply (for_list_Ok_elem _ _ _ Hzs). exists ante, ws.
  split; [by apply combinations_complete|]. done.
Qed.

(** C9: [_generate_rules], on any object, never fails on a lookup.
    (1) The only exception it can raise is a [ZeroDivisionError], and then
    the divisor is a support that was found in the table, under the
    antecedent or the consequent of a split of an entry, and is zero: it is
    never the default. (2) When no entry of [frequent_itemsets] records a
    zero support it returns. When it returns: (3) every rule has an
    antecedent that is in the lookup table, and a rule whose consequent is
    not in the table has as lift its confidence divided by the default
    0.0001; (4) for every entry and every non-empty proper sub-list of its
    items taken as antecedent, if the antecedent is not in the table no
    rule has it as antecedent (the split is dropped), and if it is in the
    table, the confidence passes the filter and the consequent is not in
    the table, then the rule with the default in its lift is in [rules]. *)
Theorem C9_missing_lookups self :
  let table := support_table (frequent_itemsets self) in
  (∀ e, _generate_rules self = Raise e →
        e = ZeroDivisionError ∧
        ∃ fs ante K z,
          fs ∈ frequent_itemsets self ∧ sublist ante (itemset fs) ∧
          (K = list_to_set ante ∨
           K = list_to_set (filter (λ it, it ∉ ante) (itemset fs))) ∧
          table !! K = Some z ∧ PrimFloat.eqb z 0 = true) ∧
  ((∀ fe, fe ∈ frequent_itemsets self → PrimFloat.eqb (support fe) 0 = false) →
   ∃ s', _generate_rules self = Ok s') ∧
  ∀ s', _generate_rules self = Ok s' →
    (∀ r, r ∈ rules s' →
       is_Some (table !! (list_to_set (antecedent r) : gset string)) ∧
       (table !! (list_to_set (consequent r) : gset string) = None →
        lift r = PrimFloat.div (confidence r) 0.0001)) ∧
    ∀ fs ante,
      fs ∈ frequent_itemsets self → sublist ante (itemset fs) →
      (1 ≤ length ante < length (itemset fs))%nat →
      (table !! (list_to_set ante : gset string) = None →
       ∀ r, r ∈ rules s' → antecedent r ≠ ante) ∧
      (∀ asup,
         table !! (list_to_set ante : gset string) = Some asup →
         PrimFloat.leb (min_confidence self)
           (PrimFloat.div (support fs) asup) = true →
         table !! (list_to_set (filter (λ it, it ∉ ante) (itemset fs))
                   : gset string) = None →
         smoothed_rule (itemset fs) (support fs) ante
           (PrimFloat.div (support fs) asup) ∈ rules s').
Proof.
  intros table.
  split; [apply generate_rules_Raise_split|].
  split; [apply generate_rules_total|].
  intros s' Hgen.
  assert (∀ r, r ∈ rules s' →
            is_Some (table !! (list_to_set (antecedent r) : gset string)) ∧
            (table !! (list_to_set (consequent r) : gset string) = None →
             lift r = PrimFloat.div (confidence r) 0.0001)) as Hrule.
  { intros r Hr.
    destruct (generate_rules_Ok _ _ Hgen) as (_ & _ & Hrules).
    destruct (Hrules r Hr) as (fs & rs & Hfs & Hrs & Hr').
    destruct (itemset_rules_Ok _ _ _ _ _ Hrs Hr')
      as (_ & i & ante & rs' & _ & _ & Hsplit & Hr'').
    destruct (split_rule_Ok _ _ _ _ _ _ _ Hsplit Hr'')
      as (asup & Hlook & _ & _ & Ha & _ & _ & Hlift).
    split; [rewrite Ha; by exists asup|].
    intros Hnone. unfold table in Hnone. rewrite Hnone in Hlift.
    cbn [default] in Hlift.
    by apply float_truediv_Ok in Hlift as [_ ->]. }
  split; [exact Hrule|].
  intros fs ante Hfs Hsub Hlen.
  destruct (generate_rules_split _ _ _ _ Hgen Hfs Hsub Hlen)
    as (rs & Hsplit & Hin).
  split.
  - intros Hnone r Hr Heq. destruct (Hrule r Hr) as [[z Hz] _].
    rewrite Heq, Hnone in Hz. discriminate.
  - intros asup Hlook Hle Hnone. apply Hin.
    unfold split_rule in Hsplit. fold table in Hsplit.
    rewrite Hlook in Hsplit.
    apply bind_Ok_inv in Hsplit as (conf & Hconf & Hsplit).
    apply float_truediv_Ok in Hconf as [_ ->].
    rewrite Hle, Hnone in Hsplit. cbn [default] in Hsplit.
    apply bind_Ok_inv in Hsplit as (lft & Hlft & Hsplit).
    apply float_truediv_Ok in Hlft as [_ ->].
    injection Hsplit as <-. left.
Qed.

(** On the object with the gap: the split A ⇒ B has its consequent
    missing and is kept with lift 1.0 / 0.0001 = 10000.0; the split B ⇒ A
    has its antecedent missing and is dropped. *)
Lemma C9_missing_lookups_witness :
  _generate_rules gapped = Ok gapped_run ∧
  rules gapped_run = [Rule ["A"] ["B"] 0.5 1 10000] ∧
  smoothed_rule ["A"; "B"] 0.5 ["A"] 1 ∈ rules gapped_run ∧
  (∀ r, r ∈ rules gapped_run → antecedent r ≠ ["B"]%string).
Proof.
  assert (_generate_rules gapped = Ok gapped_run) as Hgen
    by (vm_compute; reflexivity).
  assert (Entry ["A"; "B"] 0.5 {[0%nat]} ∈ frequent_itemsets gapped) as Hfs
    by (right; left).
  assert ((1 ≤ 1 < 2)%nat) as Hlen by lia.
  destruct (C9_missing_lookups gapped) as (_ & _ & Hok).
  destruct (Hok gapped_run Hgen) as [_ Hsplits].
  split; [exact Hgen|]. split; [reflexivity|]. split.
  - destruct (Hsplits (Entry ["A"; "B"] 0.5 {[0%nat]}) ["A"]%string Hfs
                (sublist_skip _ _ _ (sublist_nil_l _)) Hlen) as [_ Hkeep].
    apply (Hkeep 0.5%float); by vm_compute.
  - destruct (Hsplits (Entry ["A"; "B"] 0.5 {[0%nat]}) ["B"]%string Hfs
                (sublist_cons _ _ _ (sublist_skip _ _ _ (sublist_nil_l _)))
                Hlen) as [Hdrop _].
    apply Hdrop. by vm_compute.
Defined.

(** The object after [fit] on the worked example, and its first rule. *)
Definition worked_run : EclatAlgorithm :=
  Eval vm_compute in
    match fit (configured 0.4 0.5) worked_example with
    | Ok s => s
    | Raise _ => init
    end.

Definition worked_rule : rule :=
  Rule ["A"] ["B"] 0.6 0.74999999999999989 0.93749999999999978.

Lemma C7_rule_closure_witness :
  fit (configured 0.4 0.5) worked_example = Ok worked_run ∧
  worked_rule ∈ rules worked_run ∧
  antecedent worked_rule ≠ [] ∧ consequent worked_rule ≠ [] ∧
  (list_to_set (antecedent worked_rule) : gset string)
    ## list_to_set (consequent worked_rule) ∧
  ∃ e, e ∈ frequent_itemsets worked_run ∧ (2 ≤ length (itemset e))%nat ∧
       list_to_set (antecedent worked_rule)
       ∪ list_to_set (consequent worked_rule) = content e.
Proof.
  assert (fit (configured 0.4 0.5) worked_example = Ok worked_run) as Hfit
    by (vm_compute; reflexivity).
  assert (worked_rule ∈ rules worked_run) as Hr by left.
  split; [exact Hfit|]. split; [exact Hr|].
  exact (C7_rule_closure 0.4 0.5 worked_example worked_run worked_rule Hfit Hr).
Defined.

(** * Emission is decided by the count *)

Lemma sorted_elements (S : gset string) :
  StronglySorted item_lt (Py.sorted (elements S)) ∧
  list_to_set (Py.sorted (elements S)) = S ∧
  length (Py.sorted (elements S)) = size S.
Proof.
  split; [apply sorted_item_lt, NoDup_elements|]. split.
  - apply set_eq. intros x.
    by rewrite elem_of_list_to_set, elem_of_sorted, elem_of_elements.
  - unfold size, set_size. simpl. by rewrite sorted_Permutation.
Qed.

(** In a run with count threshold [k], a set of one to five observed items
    is the content of an entry exactly when at least [k] transactions
    contain all of its items. *)
Lemma emitted_iff_count ms mc txs s k (S : gset string) :
  mine (configured ms mc) txs = Ok s → min_count ms txs = Ok k →
  (1 ≤ size S ≤ max_size)%nat → (∀ q, q ∈ S → observed txs q) →
  (∃ e, e ∈ frequent_itemsets s ∧ content e = S)
  ↔ k ≤ Z.of_nat (support_count txs S).
Proof.
  intros Hmine Hk Hsize Hobs. split.
  - intros (e & He & <-).
    destruct (mine_sound _ _ _ _ Hmine) as (k' & Hk' & Hok).
    assert (k' = k) as -> by congruence.
    destruct (Hok e He) as [_ _ _ _ Htl Hc _].
    unfold content. by rewrite <- size_cover, <- Htl.
  - intros Hcount.
    destruct (sorted_elements S) as (Hsorted & Hset & Hlen).
    destruct (mine_complete _ _ _ _ _ Hmine Hk (Py.sorted (elements S)))
      as (e & He & Hits); try done.
    + intros Hnil. rewrite Hnil in Hlen. simpl in Hlen. lia.
    + lia.
    + intros q Hq. apply Hobs. by rewrite <- Hset, elem_of_list_to_set.
    + by rewrite Hset, size_cover.
    + exists e. split; [done|]. unfold content. by rewrite Hits.
Qed.

(** ** C10: the miner is not sound for the support fraction *)

Definition disjoint_pair : list (list string) := [["A"]; ["B"]]%string.

(** C10: on the two transactions [A] and [B] with the default
    [min_support = 0.05] the threshold is [int(0.1) = 0], the run succeeds
    and emits [A, B] with an empty tid-list and support exactly 0, below
    [min_support]. In every run, a set of one to five observed items is
    emitted exactly when its transaction count reaches the threshold
    [int(min_support * N)]: nothing else decides emission. *)
Theorem C10_unsound_for_fraction :
  (∃ s e,
     disjoint_pair ≠ [] ∧ PrimFloat.ltb 0 (min_support init) = true ∧
     min_count (min_support init) disjoint_pair = Ok 0 ∧
     fit init disjoint_pair = Ok s ∧ e ∈ frequent_itemsets s ∧
     itemset e = ["A"; "B"]%string ∧ tid_list e = ∅ ∧
     support e = 0%float ∧
     PrimFloat.ltb (support e) (min_support init) = true) ∧
  (∀ ms mc txs s k (S : gset string),
     mine (configured ms mc) txs = Ok s → min_count ms txs = Ok k →
     (1 ≤ size S ≤ max_size)%nat → (∀ q, q ∈ S → observed txs q) →
     (∃ e, e ∈ frequent_itemsets s ∧ content e = S)
     ↔ k ≤ Z.of_nat (support_count txs S)).
Proof.
  split; [|intros; by eapply emitted_iff_count].
  eexists _, (Entry ["A"; "B"]%string 0%float ∅).
  split; [done|]. split; [by vm_compute|]. split; [by vm_compute|].
  split; [vm_compute; reflexivity|].
  split; [|by vm_compute].
  cbn [frequent_itemsets]. do 2 right. left.
Qed.

(** * Python floats as values *)

(** The exact value of a finite float. *)
Definition value (x : float) : Q := IEEE.SF2Q (Prim2SF x).

(** The fraction of transactions that contain every item of [S]. *)
Definition support_fraction (txs : list (list string)) (S : gset string) : Q :=
  (inject_Z (Z.of_nat (support_count txs S))
   / inject_Z (Z.of_nat (length txs)))%Q.

Lemma float_of_int_0 : Prim2SF (Py.float_of_int 0) = S754_zero false.
Proof. reflexivity. Qed.

Lemma float_of_int_pos z :
  0 < z < 2 ^ 53 →
  ∃ m e, Prim2SF (Py.float_of_int z) = S754_finite false m e ∧
         Z.pos (digits2_pos m) = 53 ∧ -52 ≤ e ≤ 0 ∧
         (inject_Z (Z.pos m) * IEEE.bpow e == inject_Z z)%Q.
Proof.
  intros Hz. destruct (IEEE.binary_normalize_int z Hz)
    as (m & e & Hn & Hd & He & Hv).
  exists m, e. split; [|done]. unfold Py.float_of_int. rewrite Hn.
  apply Prim2SF_SF2Prim, IEEE.valid_normal; [done | lia].
Qed.

Lemma unit_interval_value ms :
  unit_interval ms →
  IEEE.nonneg_finite (Prim2SF ms) ∧ (0 <= value ms)%Q ∧ (value ms <= 1)%Q.
Proof.
  intros Hms. pose proof Hms as [_ H1]. rewrite leb_spec in H1.
  assert (IEEE.nonneg_finite (Prim2SF ms)) as Hnn
    by (destruct (unit_interval_SF ms Hms) as [[s ->] | (m & e & ->)]; done).
  split; [done|]. split.
  - unfold value. destruct (unit_interval_SF ms Hms) as [[s ->] | (m & e & ->)].
    + apply Qle_refl.
    + apply Qlt_le_weak, IEEE.SF2Q_pos.
  - apply IEEE.SFleb_values in H1; [|apply Prim2SF_valid..|done|done].
    unfold value. eapply Qle_trans; [exact H1|]. by vm_compute.
Qed.

(** ** The quotient of two counts *)

(** [a / n] for two counts, as [support] records it. *)
Definition quot (a n : Z) : float :=
  PrimFloat.div (Py.float_of_int a) (Py.float_of_int n).

Lemma int_truediv_quot a n sup :
  Py.int_truediv a n = Ok sup → n ≠ 0 ∧ sup = quot a n.
Proof.
  unfold Py.int_truediv. destruct (Z.eqb_spec n 0); [discriminate|].
  by intros [= <-].
Qed.

Lemma quot_zero n : 0 < n < 2 ^ 53 → Prim2SF (quot 0 n) = S754_zero false.
Proof.
  intros Hn. destruct (float_of_int_pos n Hn) as (m & e & Hm & _).
  unfold quot. by rewrite div_spec, float_of_int_0, Hm.
Qed.

Lemma count_fraction_bounds a n :
  0 < a ≤ n → n < 2 ^ 53 →
  (IEEE.bpow (-53) <= inject_Z a / inject_Z n)%Q ∧
  (inject_Z a / inject_Z n <= 1)%Q.
Proof.
  intros Ha Hn.
  assert (0 < inject_Z n)%Q as Hn0 by (apply (IEEE.inject_Z_lt 0 n); lia).
  assert (1 <= inject_Z a)%Q as Ha1 by (apply (IEEE.inject_Z_le 1 a); lia).
  assert (inject_Z a <= inject_Z n)%Q as Han by (apply IEEE.inject_Z_le; lia).
  assert (inject_Z n <= IEEE.bpow 53)%Q as Hn53
    by (rewrite IEEE.bpow_inject by lia; apply IEEE.inject_Z_le; lia).
  split.
  - apply Qle_shift_div_l; [done|].
    apply Qle_trans with (IEEE.bpow (-53) * IEEE.bpow 53)%Q.
    + apply Qmult_le_l; [apply IEEE.bpow_pos | done].
    + rewrite <- IEEE.bpow_plus. by rewrite IEEE.bpow_0.
  - apply Qle_shift_div_r; [done|]. lra.
Qed.

(** A positive quotient of counts is a normal float, the rounding of the
    exact fraction. *)
Lemma quot_pos a n :
  0 < a ≤ n → n < 2 ^ 53 →
  ∃ m e k,
    Prim2SF (quot a n) = S754_finite false m e ∧
    Z.pos (digits2_pos m) = 53 ∧ -105 ≤ e ≤ -51 ∧
    IEEE.mag_of (inject_Z a / inject_Z n) k ∧
    (value (quot a n) == IEEE.rnd (inject_Z a / inject_Z n) k)%Q.
Proof.
  intros Ha Hn.
  destruct (float_of_int_pos a) as (ma & ea & HSa & Hda & Hea & Hva); [lia|].
  destruct (float_of_int_pos n) as (mn & en & HSn & Hdn & Hen & Hvn); [lia|].
  pose proof (Prim2SF_valid (quot a n)) as Hvalid.
  unfold value, quot in *. rewrite div_spec, HSa, HSn in *. unfold SF64div in *.
  destruct (IEEE.SFdiv_spec ma ea mn en Hda Hdn) as (k & Hmag & Hk & Hspec);
    [lia|].
  set (r := SFdiv prec emax (S754_finite false ma ea) (S754_finite false mn en))
    in *.
  assert (IEEE.SF2Q (S754_finite false ma ea) / IEEE.SF2Q (S754_finite false mn en)
          == inject_Z a / inject_Z n)%Q as Hx
    by (by rewrite !IEEE.SF2Q_finite, Hva, Hvn).
  apply (IEEE.mag_of_Qeq _ _ _ Hx) in Hmag.
  destruct (IEEE.rounded_spec_value _ _ _ Hspec) as [Hnn Hval];
    [unfold IEEE.cexp; lia|].
  rewrite (IEEE.rnd_Qeq _ _ _ Hx) in Hval.
  destruct (count_fraction_bounds a n Ha Hn) as [Hlo Hhi].
  set (x := (inject_Z a / inject_Z n)%Q) in *.
  assert (-52 ≤ k ≤ 1) as Hkr.
  { destruct Hmag as [H1 H2]. split.
    - assert (IEEE.bpow (-53) < IEEE.bpow k)%Q as H%IEEE.bpow_lt_inv by lra. lia.
    - assert (IEEE.bpow (k - 1) <= IEEE.bpow 0)%Q as H%IEEE.bpow_le_inv
        by (rewrite IEEE.bpow_0; lra). lia. }
  pose proof (IEEE.rnd_lower x k Hmag) as Hrlo.
  pose proof (IEEE.rnd_upper x k Hmag) as Hrhi.
  replace (Z.max k (IEEE.cexp k)) with k in Hrhi by (unfold IEEE.cexp; lia).
  assert (IEEE.bpow (k - 1) <= IEEE.rnd x k)%Q as Hrlo'
    by (apply Hrlo; unfold IEEE.cexp; lia).
  pose proof (IEEE.bpow_pos (k - 1)) as Hpos.
  destruct r as [s|s| |s m e]; cbn [IEEE.nonneg_finite] in Hnn; try done.
  { cbn [IEEE.SF2Q] in Hval. lra. }
  subst s. destruct (IEEE.valid_finite_canonical _ _ _ Hvalid) as [Hcan _].
  assert (IEEE.mag_of (IEEE.SF2Q (S754_finite false m e))
            (Z.pos (digits2_pos m) + e)) as [Hm1 Hm2].
  { apply (IEEE.mag_of_Qeq (inject_Z (Z.pos m) * IEEE.bpow e));
      [by rewrite IEEE.SF2Q_finite|].
    apply IEEE.mag_of_scale. by apply (IEEE.mag_of_inject (Z.pos m)). }
  assert (k ≤ Z.pos (digits2_pos m) + e ≤ k + 1) as Hde.
  { split.
    - assert (IEEE.bpow (k - 1) < IEEE.bpow (Z.pos (digits2_pos m) + e))%Q
        as H%IEEE.bpow_lt_inv by lra. lia.
    - assert (IEEE.bpow (Z.pos (digits2_pos m) + e - 1) <= IEEE.bpow k)%Q
        as H%IEEE.bpow_le_inv by lra. lia. }
  exists m, e, k. unfold IEEE.cexp in Hcan.
  split; [done|]. split; [lia|]. split; [lia|]. done.
Qed.

(** The quotient is monotone in the numerator. *)
Lemma quot_value_le a b n :
  0 ≤ a ≤ b → b ≤ n → 0 < n < 2 ^ 53 →
  IEEE.nonneg_finite (Prim2SF (quot a n)) ∧
  IEEE.nonneg_finite (Prim2SF (quot b n)) ∧
  (0 <= value (quot a n))%Q ∧ (value (quot a n) <= value (quot b n))%Q.
Proof.
  intros Hab Hbn Hn.
  assert (∀ c, 0 < c ≤ n →
    IEEE.nonneg_finite (Prim2SF (quot c n)) ∧ (0 < value (quot c n))%Q) as Hpos.
  { intros c Hc. destruct (quot_pos c n) as (m & e & k & HS & _); [lia..|].
    unfold value. rewrite HS. split; [done | apply IEEE.SF2Q_pos]. }
  destruct (Z.eq_dec a 0) as [->|Ha].
  - unfold value at 1 2. rewrite (quot_zero n Hn). cbn [IEEE.SF2Q].
    split; [done|]. destruct (Z.eq_dec b 0) as [->|Hb].
    + unfold value. rewrite (quot_zero n Hn). cbn [IEEE.SF2Q].
      split; [done|]. split; apply Qle_refl.
    + destruct (Hpos b) as [Hnn Hv]; [lia|].
      split; [done|]. split; [apply Qle_refl | by apply Qlt_le_weak].
  - destruct (Hpos a) as [Hnna Hva]; [lia|].
    destruct (Hpos b) as [Hnnb Hvb]; [lia|].
    split; [done|]. split; [done|]. split; [by apply Qlt_le_weak|].
    destruct (quot_pos a n) as (ma & ea & ka & _ & _ & _ & Hka & ->); [lia..|].
    destruct (quot_pos b n) as (mb & eb & kb & _ & _ & _ & Hkb & ->); [lia..|].
    apply IEEE.rnd_mono; [|done..].
    assert (0 < inject_Z n)%Q by (apply (IEEE.inject_Z_lt 0 n); lia).
    apply Qmult_le_compat_r; [apply IEEE.inject_Z_le; lia|].
    by apply Qlt_le_weak, Qinv_lt_0_compat.
Qed.

Lemma quot_mono a b n :
  0 ≤ a ≤ b → b ≤ n → 0 < n < 2 ^ 53 →
  PrimFloat.leb (quot a n) (quot b n) = true.
Proof.
  intros Hab Hbn Hn.
  destruct (quot_value_le a b n Hab Hbn Hn) as (Hnna & Hnnb & _ & Hle).
  rewrite leb_spec. by apply IEEE.SFleb_values; [apply Prim2SF_valid..| | |].
Qed.

Lemma rnd_integer c :
  0 < c < 2 ^ 53 →
  ∃ k, IEEE.mag_of (inject_Z c) k ∧ (IEEE.rnd (inject_Z c) k == inject_Z c)%Q.
Proof.
  intros Hc. exists (Zdigits2 c).
  assert (IEEE.mag_of (inject_Z c) (Zdigits2 c)) as Hmag
    by (apply IEEE.mag_of_inject; lia).
  split; [done|]. apply (IEEE.rnd_exact _ _ c 0); [done| |].
  - rewrite IEEE.bpow_0. ring.
  - destruct (IEEE.Zdigits2_bounds c) as (Hd & Hlo & _); [lia|].
    assert (Zdigits2 c - 1 < 53).
    { apply (Z.pow_lt_mono_r_iff 2); lia. }
    unfold IEEE.cexp. lia.
Qed.

(** The confidence of a rule never exceeds 1. *)
Lemma quot_ratio_le_1 a b n :
  0 ≤ a ≤ b → b ≤ n → 0 < n < 2 ^ 53 →
  PrimFloat.eqb (quot b n) 0 = false →
  PrimFloat.leb (PrimFloat.div (quot a n) (quot b n)) 1 = true.
Proof.
  intros Hab Hbn Hn Hnz.
  assert (0 < b) as Hb.
  { destruct (Z.eq_dec b 0) as [->|]; [|lia].
    rewrite FloatAxioms.eqb_spec, (quot_zero n Hn) in Hnz. discriminate Hnz. }
  destruct (quot_pos b n) as (mb & eb & kb & HSb & Hdb & Heb & _); [lia..|].
  pose proof (Prim2SF_valid (PrimFloat.div (quot a n) (quot b n))) as Hvalid.
  rewrite leb_spec. rewrite div_spec in *. rewrite HSb in *.
  destruct (Z.eq_dec a 0) as [->|Ha].
  { by rewrite (quot_zero n Hn). }
  destruct (quot_value_le a b n Hab Hbn Hn) as (_ & _ & _ & Hle).
  unfold value in Hle. rewrite HSb in Hle.
  destruct (quot_pos a n) as (ma & ea & ka & HSa & Hda & Hea & _); [lia..|].
  rewrite HSa in *. unfold SF64div in *.
  destruct (IEEE.SFdiv_spec ma ea mb eb Hda Hdb) as (k & Hmag & Hk & Hspec);
    [lia|].
  destruct (IEEE.rounded_spec_value _ _ _ Hspec) as [Hnn Hval];
    [unfold IEEE.cexp; lia|].
  apply IEEE.SFleb_values; [done | apply Prim2SF_valid | done | done |].
  rewrite Hval.
  pose proof (IEEE.SF2Q_pos mb eb) as Hposb.
  assert (IEEE.mag_of 1 1) as Hmag1 by (split; by vm_compute).
  apply Qle_trans with (IEEE.rnd 1 1).
  - apply IEEE.rnd_mono; [|done..].
    apply Qle_shift_div_r; [done|]. lra.
  - by vm_compute.
Qed.

(** ** The count threshold *)

Lemma int_of_float_nonneg x :
  IEEE.nonneg_finite (Prim2SF x) →
  ∃ k, Py.int_of_float x = Ok k ∧ 0 ≤ k ∧ (inject_Z k <= value x)%Q.
Proof.
  unfold Py.int_of_float, value.
  destruct (Prim2SF x) as [s|s| |s m e]; cbn [IEEE.nonneg_finite]; try done.
  - intros _. exists 0. split; [done|]. split; [done | apply Qle_refl].
  - intros ->. exists (Z.shiftl (Z.pos m) e). cbn [cond_Zopp].
    split; [done|]. rewrite IEEE.SF2Q_finite. apply IEEE.shiftl_floor.
Qed.

(** For [min_support] in the unit interval and fewer than [2^53]
    transactions, the threshold is computed without an exception, lies
    between 0 and [N], and is at most every integer that bounds the exact
    product [min_support * N] from above. *)
Lemma min_count_spec ms txs :
  unit_interval ms → Z.of_nat (length txs) < 2 ^ 53 →
  ∃ k, min_count ms txs = Ok k ∧ 0 ≤ k ≤ Z.of_nat (length txs) ∧
       ∀ c, (value ms * inject_Z (Z.of_nat (length txs)) <= inject_Z c)%Q →
            k ≤ c.
Proof.
  intros Hms Hn. unfold min_count, Py.float_mul_int.
  set (n := Z.of_nat (length txs)) in *.
  destruct (unit_interval_value ms Hms) as (Hnn & Hv0 & Hv1).
  assert (0 ≤ n) as Hn0 by (unfold n; lia).
  assert (∀ c, (value ms * inject_Z n <= inject_Z c)%Q → 0 ≤ c) as Hcpos.
  { intros c Hc. rewrite Zle_Qle.
    eapply Qle_trans; [|exact Hc]. apply Qmult_le_0_compat; [done|].
    by apply (IEEE.inject_Z_le 0 n). }
  assert (Prim2SF (PrimFloat.mul ms (Py.float_of_int n)) = S754_zero false ∨
          Prim2SF (PrimFloat.mul ms (Py.float_of_int n)) = S754_zero true ∨
          (0 < n ∧ ∃ m e, Prim2SF ms = S754_finite false m e))
    as [Hz | [Hz | (Hnpos & m & e & HSm)]].
  { rewrite mul_spec. destruct (Z.eq_dec n 0) as [->|Hne].
    - rewrite float_of_int_0.
      destruct (unit_interval_SF ms Hms) as [[[] ->] | (m & e & ->)]; auto.
    - destruct (float_of_int_pos n) as (mn & en & -> & _); [lia|].
      destruct (unit_interval_SF ms Hms) as [[[] ->] | (m & e & Hm)]; auto.
      right. right. split; [lia|]. eauto. }
  1,2: unfold Py.int_of_float; rewrite Hz; exists 0;
    (split; [done|]); (split; [lia|]); intros c Hc; by apply Hcpos.
  destruct (float_of_int_pos n) as (mn & en & HSn & Hdn & Hen & Hvn); [lia|].
  pose proof (mul_spec ms (Py.float_of_int n)) as Hmul.
  rewrite HSm, HSn in Hmul. unfold SF64mul in Hmul.
  destruct (IEEE.SFmul_spec m e mn en Hdn) as (k' & Hmag & Hspec).
  rewrite <- Hmul in Hspec.
  assert (IEEE.SF2Q (S754_finite false m e) * IEEE.SF2Q (S754_finite false mn en)
          == value ms * inject_Z n)%Q as Hx.
  { unfold value. rewrite HSm. by rewrite (IEEE.SF2Q_finite mn en), Hvn. }
  set (x := (IEEE.SF2Q (S754_finite false m e)
             * IEEE.SF2Q (S754_finite false mn en))%Q) in *.
  assert (0 < inject_Z n)%Q as Hnq by (by apply (IEEE.inject_Z_lt 0 n)).
  assert (x <= inject_Z n)%Q as Hxn.
  { rewrite Hx. rewrite <- (Qmult_1_l (inject_Z n)) at 2.
    apply Qmult_le_compat_r; [done | by apply Qlt_le_weak]. }
  assert (k' ≤ 53) as Hk'.
  { destruct Hmag as [H1 _].
    assert (inject_Z n < IEEE.bpow 53)%Q as Hn53
      by (rewrite IEEE.bpow_inject by lia; by apply IEEE.inject_Z_lt).
    assert (IEEE.bpow (k' - 1) < IEEE.bpow 53)%Q as H%IEEE.bpow_lt_inv by lra.
    lia. }
  destruct (IEEE.rounded_spec_value _ _ _ Hspec) as [Hnnr Hval];
    [unfold IEEE.cexp; lia|].
  destruct (int_of_float_nonneg _ Hnnr) as (k & Hk & Hk0 & Hkv).
  exists k. split; [done|]. unfold value in Hkv. rewrite Hval in Hkv.
  assert (∀ c, 0 < c ≤ n → (x <= inject_Z c)%Q → k ≤ c) as Hcore.
  { intros c Hc Hxc. destruct (rnd_integer c) as (kc & Hkc & Hrc); [lia|].
    rewrite Zle_Qle. eapply Qle_trans; [exact Hkv|]. rewrite <- Hrc.
    by apply IEEE.rnd_mono. }
  split; [split; [done | by apply Hcore; [lia|]]|].
  intros c Hc. rewrite <- Hx in Hc.
  assert (0 < x)%Q as Hxpos
    by (unfold x; apply Qmult_lt_0_compat; apply IEEE.SF2Q_pos).
  assert (0 < c) as Hc0.
  { rewrite Zlt_Qlt. change (inject_Z 0) with 0%Q. lra. }
  destruct (Z.le_gt_cases c n) as [Hcn|Hcn].
  - by apply Hcore.
  - etrans; [apply (Hcore n); [lia | done]|]. lia.
Qed.

Lemma shiftl_floor_lt m e :
  (inject_Z (Z.pos m) * IEEE.bpow e < inject_Z (Z.shiftl (Z.pos m) e + 1))%Q.
Proof.
  rewrite inject_Z_plus. change (inject_Z 1) with 1%Q.
  destruct (Z.le_gt_cases 0 e) as [He|He].
  - rewrite Z.shiftl_mul_pow2 by done.
    rewrite inject_Z_mult, <- IEEE.bpow_inject by done. lra.
  - rewrite Z.shiftl_div_pow2 by lia.
    assert (0 < 2 ^ (- e)) as Hpow by (apply Z.pow_pos_nonneg; lia).
    pose proof (Z.mul_succ_div_gt (Z.pos m) (2 ^ (- e)) Hpow) as Hlt.
    apply IEEE.inject_Z_lt in Hlt.
    rewrite inject_Z_mult, <- IEEE.bpow_inject in Hlt by lia.
    unfold Z.succ in Hlt. rewrite inject_Z_plus in Hlt.
    change (inject_Z 1) with 1%Q in Hlt.
    pose proof (IEEE.bpow_pos e) as Hb.
    pose proof (IEEE.bpow_mul_opp e) as Hinv.
    set (q := inject_Z (Z.pos m / 2 ^ (- e))) in *.
    apply Qlt_le_trans with (IEEE.bpow (- e) * (q + 1) * IEEE.bpow e)%Q.
    + by apply Qmult_lt_compat_r.
    + assert (IEEE.bpow (- e) * (q + 1) * IEEE.bpow e == q + 1)%Q as ->.
      { transitivity ((q + 1) * (IEEE.bpow e * IEEE.bpow (- e)))%Q; [ring|].
        rewrite Hinv. ring. }
      apply Qle_refl.
Qed.

Lemma int_of_float_floor x k c :
  IEEE.nonneg_finite (Prim2SF x) → Py.int_of_float x = Ok k →
  (inject_Z c <= value x)%Q → c ≤ k.
Proof.
  unfold Py.int_of_float, value.
  destruct (Prim2SF x) as [s|s| |s m e]; cbn [IEEE.nonneg_finite]; try done.
  - intros _ [= <-]. cbn [IEEE.SF2Q]. change 0%Q with (inject_Z 0).
    by rewrite <- Zle_Qle.
  - intros -> [= <-]. cbn [cond_Zopp]. rewrite IEEE.SF2Q_finite. intros Hc.
    pose proof (shiftl_floor_lt m e) as Hlt.
    assert (inject_Z c < inject_Z (Z.shiftl (Z.pos m) e + 1))%Q as H by lra.
    rewrite <- Zlt_Qlt in H. lia.
Qed.

(** The threshold is never below an integer that the exact product
    reaches. *)
Lemma min_count_lower ms txs k c :
  unit_interval ms → Z.of_nat (length txs) < 2 ^ 53 →
  min_count ms txs = Ok k →
  (inject_Z c <= value ms * inject_Z (Z.of_nat (length txs)))%Q → c ≤ k.
Proof.
  intros Hms Hn Hk Hc.
  destruct (min_count_spec ms txs Hms Hn) as (k' & Hk' & [Hk0 _] & _).
  assert (k' = k) as -> by congruence. clear Hk'.
  destruct (Z.le_gt_cases c 0) as [|Hcpos]; [lia|].
  unfold min_count, Py.float_mul_int in Hk.
  set (n := Z.of_nat (length txs)) in *.
  destruct (unit_interval_value ms Hms) as (Hnn & Hv0 & Hv1).
  assert (0 < inject_Z c)%Q as Hcq by (by apply (IEEE.inject_Z_lt 0 c)).
  assert (0 < n) as Hnpos.
  { destruct (Z.le_gt_cases n 0) as [Hle|]; [|done].
    apply (IEEE.inject_Z_le n 0) in Hle. change (inject_Z 0) with 0%Q in Hle.
    assert (value ms * inject_Z n <= 0)%Q; [|lra].
    assert (0 <= value ms * (0 - inject_Z n))%Q as H0
      by (apply Qmult_le_0_compat; lra).
    assert (value ms * (0 - inject_Z n) == - (value ms * inject_Z n))%Q as Heq
      by ring.
    rewrite Heq in H0. lra. }
  assert (0 < inject_Z n)%Q as Hnq by (by apply (IEEE.inject_Z_lt 0 n)).
  assert (inject_Z c <= inject_Z n)%Q as Hcn.
  { eapply Qle_trans; [exact Hc|]. rewrite <- (Qmult_1_l (inject_Z n)) at 2.
    apply Qmult_le_compat_r; [done | by apply Qlt_le_weak]. }
  rewrite <- Zle_Qle in Hcn.
  destruct (unit_interval_SF ms Hms) as [[s HSm] | (m & e & HSm)].
  { unfold value in Hc. rewrite HSm in Hc. cbn [IEEE.SF2Q] in Hc. lra. }
  destruct (float_of_int_pos n) as (mn & en & HSn & Hdn & Hen & Hvn); [lia|].
  pose proof (mul_spec ms (Py.float_of_int n)) as Hmul.
  rewrite HSm, HSn in Hmul. unfold SF64mul in Hmul.
  destruct (IEEE.SFmul_spec m e mn en Hdn) as (k' & Hmag & Hspec).
  rewrite <- Hmul in Hspec.
  assert (IEEE.SF2Q (S754_finite false m e) * IEEE.SF2Q (S754_finite false mn en)
          == value ms * inject_Z n)%Q as Hx.
  { unfold value. rewrite HSm. by rewrite (IEEE.SF2Q_finite mn en), Hvn. }
  set (x := (IEEE.SF2Q (S754_finite false m e)
             * IEEE.SF2Q (S754_finite false mn en))%Q) in *.
  assert (x <= inject_Z n)%Q as Hxn.
  { rewrite Hx. rewrite <- (Qmult_1_l (inject_Z n)) at 2.
    apply Qmult_le_compat_r; [done | by apply Qlt_le_weak]. }
  assert (k' ≤ 53) as Hk'.
  { destruct Hmag as [H1 _].
    assert (inject_Z n < IEEE.bpow 53)%Q as Hn53
      by (rewrite IEEE.bpow_inject by lia; by apply IEEE.inject_Z_lt).
    assert (IEEE.bpow (k' - 1) < IEEE.bpow 53)%Q as H%IEEE.bpow_lt_inv by lra.
    lia. }
  destruct (IEEE.rounded_spec_value _ _ _ Hspec) as [Hnnr Hval];
    [unfold IEEE.cexp; lia|].
  apply (int_of_float_floor _ _ _ Hnnr Hk). unfold value. rewrite Hval.
  destruct (rnd_integer c) as (kc & Hkc & Hrc); [lia|].
  rewrite <- Hrc. apply IEEE.rnd_mono; [|done..]. by rewrite Hx.
Qed.

(** * Recorded supports *)

Lemma support_count_mono txs (S1 S2 : gset string) :
  S1 ⊆ S2 → (support_count txs S2 ≤ support_count txs S1)%nat.
Proof.
  intros HS. rewrite <- !size_cover. apply subseteq_size.
  by apply cover_from_mono.
Qed.

(** The support recorded for an entry is the float quotient of the number
    of transactions containing its items by the number of transactions. *)
Lemma entry_support_quot txs k e :
  entry_ok txs k e →
  0 < Z.of_nat (length txs) ∧
  support e = quot (Z.of_nat (support_count txs (content e)))
                   (Z.of_nat (length txs)).
Proof.
  intros [_ _ _ _ Htl _ Hsup].
  apply int_truediv_quot in Hsup as [Hn ->]. split; [lia|].
  by rewrite Htl, size_cover.
Qed.

Lemma entry_support_mono txs k eA eB :
  Z.of_nat (length txs) < 2 ^ 53 →
  entry_ok txs k eA → entry_ok txs k eB → content eA ⊆ content eB →
  PrimFloat.leb (support eB) (support eA) = true.
Proof.
  intros Hn [HnA ->]%entry_support_quot [_ ->]%entry_support_quot Hsub.
  pose proof (support_count_mono txs _ _ Hsub).
  pose proof (support_count_le txs (content eA)).
  apply quot_mono; lia.
Qed.

(** ** C6: anti-monotonicity of the recorded supports *)

(** C6: for two entries of [frequent_itemsets] of one run (after the mining
    steps, or after the whole of [fit]) on fewer than 2^53 transactions,
    where the content of the first is a strict subset of the content of
    the second, the support recorded for the second is at most the support
    recorded for the first, as floats. *)
Theorem C6_anti_monotone ms mc txs s eA eB :
  mine (configured ms mc) txs = Ok s ∨ fit (configured ms mc) txs = Ok s →
  Z.of_nat (length txs) < 2 ^ 53 →
  eA ∈ frequent_itemsets s → eB ∈ frequent_itemsets s →
  content eA ⊂ content eB →
  PrimFloat.leb (support eB) (support eA) = true.
Proof.
  intros (s1 & Hmine & ->)%run_itemsets Hn HA HB [Hsub _].
  destruct (mine_sound _ _ _ _ Hmine) as (k & _ & Hok).
  by apply (entry_support_mono txs k); [|apply Hok..|].
Qed.

Lemma C6_anti_monotone_witness :
  (mine (configured 0.4 0.5) worked_example = Ok worked_run ∨
   fit (configured 0.4 0.5) worked_example = Ok worked_run) ∧
  Z.of_nat (length worked_example) < 2 ^ 53 ∧
  Entry ["A"] 0.8 {[0; 1; 2; 4]}%nat ∈ frequent_itemsets worked_run ∧
  Entry ["A"; "B"] 0.6 {[0; 1; 4]}%nat ∈ frequent_itemsets worked_run ∧
  content (Entry ["A"] 0.8 {[0; 1; 2; 4]}%nat)
    ⊂ content (Entry ["A"; "B"] 0.6 {[0; 1; 4]}%nat) ∧
  PrimFloat.leb (support (Entry ["A"; "B"] 0.6 {[0; 1; 4]}%nat))
                (support (Entry ["A"] 0.8 {[0; 1; 2; 4]}%nat)) = true.
Proof.
  assert (content (Entry ["A"] 0.8 {[0; 1; 2; 4]}%nat)
            ⊂ content (Entry ["A"; "B"] 0.6 {[0; 1; 4]}%nat)) as Hsub
    by (unfold content; cbn [itemset list_to_set]; set_solver).
  assert (fit (configured 0.4 0.5) worked_example = Ok worked_run) as Hfit
    by (vm_compute; reflexivity).
  assert (Z.of_nat (length worked_example) < 2 ^ 53) as Hn by (simpl; lia).
  assert (Entry ["A"] 0.8 {[0; 1; 2; 4]}%nat ∈ frequent_itemsets worked_run)
    as HA by (apply (list_elem_of_lookup_2 _ 0%nat); vm_compute; reflexivity).
  assert (Entry ["A"; "B"] 0.6 {[0; 1; 4]}%nat ∈ frequent_itemsets worked_run)
    as HB by (apply (list_elem_of_lookup_2 _ 3%nat); vm_compute; reflexivity).
  split; [right; exact Hfit|]. split; [exact Hn|]. split; [exact HA|].
  split; [exact HB|]. split; [exact Hsub|].
  exact (C6_anti_monotone 0.4 0.5 worked_example worked_run _ _
           (or_intror Hfit) Hn HA HB Hsub).
Defined.

(** ** C8: the confidence of a rule *)

(** C8: every rule of a successful [fit] on a fresh object, run on fewer
    than 2^53 transactions, has a confidence between [min_confidence] and
    1.0 (as floats), and that confidence is the float quotient of the
    support recorded for the entry whose content is the union of antecedent
    and consequent by the support recorded for the entry whose content is
    the antecedent. *)
Theorem C8_confidence_bound ms mc txs s r :
  fit (configured ms mc) txs = Ok s → Z.of_nat (length txs) < 2 ^ 53 →
  r ∈ rules s →
  PrimFloat.leb mc (confidence r) = true ∧
  PrimFloat.leb (confidence r) 1 = true ∧
  ∃ eI eA,
    eI ∈ frequent_itemsets s ∧ eA ∈ frequent_itemsets s ∧
    content eI = list_to_set (antecedent r) ∪ list_to_set (consequent r) ∧
    content eA = list_to_set (antecedent r) ∧
    confidence r = PrimFloat.div (support eI) (support eA).
Proof.
  intros Hfit Hn Hr.
  destruct (fit_rule_inv _ _ _ _ _ Hfit Hr)
    as (k & fs & fa & _ & Hfs & Hoks & Hfa & Hoka & _ & Hsub & _ & Hc & Hset
        & _ & Hdiv & Hmc).
  apply float_truediv_Ok in Hdiv as [Hnz Hconf].
  assert (content fs
          = list_to_set (antecedent r) ∪ list_to_set (consequent r)) as HI.
  { unfold content. rewrite Hc. apply set_eq. intros x.
    rewrite elem_of_union, !elem_of_list_to_set, list_elem_of_filter.
    split.
    - intros Hx. destruct (decide (x ∈ antecedent r)); [by left | by right].
    - intros [Ha | [_ ?]]; [by eapply elem_of_sublist | done]. }
  split; [done|]. split.
  - rewrite Hconf.
    destruct (entry_support_quot _ _ _ Hoks) as [HN Hs].
    destruct (entry_support_quot _ _ _ Hoka) as [_ Ha].
    rewrite Hs, Ha. rewrite Ha in Hnz.
    assert (content fa ⊆ content fs) as Hle
      by (unfold content at 1; rewrite Hset, HI; set_solver).
    pose proof (support_count_mono txs _ _ Hle).
    pose proof (support_count_le txs (content fa)).
    apply quot_ratio_le_1; [lia..|done].
  - by exists fs, fa.
Qed.

Lemma C8_confidence_bound_witness :
  fit (configured 0.4 0.5) worked_example = Ok worked_run ∧
  Z.of_nat (length worked_example) < 2 ^ 53 ∧
  worked_rule ∈ rules worked_run ∧
  PrimFloat.leb 0.5 (confidence worked_rule) = true ∧
  PrimFloat.leb (confidence worked_rule) 1 = true ∧
  ∃ eI eA,
    eI ∈ frequent_itemsets worked_run ∧ eA ∈ frequent_itemsets worked_run ∧
    content eI = list_to_set (antecedent worked_rule)
                 ∪ list_to_set (consequent worked_rule) ∧
    content eA = list_to_set (antecedent worked_rule) ∧
    confidence worked_rule = PrimFloat.div (support eI) (support eA).
Proof.
  assert (fit (configured 0.4 0.5) worked_example = Ok worked_run) as Hfit
    by (vm_compute; reflexivity).
  assert (Z.of_nat (length worked_example) < 2 ^ 53) as Hn by (simpl; lia).
  assert (worked_rule ∈ rules worked_run) as Hr by left.
  split; [exact Hfit|]. split; [exact Hn|]. split; [exact Hr|].
  exact (C8_confidence_bound 0.4 0.5 worked_example worked_run worked_rule
           Hfit Hn Hr).
Defined.

(** ** C3: completeness of the miner *)





(** The hypothesis on the items is needed when [min_support] is 0: an
    item that occurs in no transaction has support 0, which reaches the
    threshold, and it has no entry. *)
Lemma unobserved_not_emitted :
  (value 0 <= support_fraction [["A"%string]] {["B"%string]})%Q ∧
  ∃ s, fit (configured 0 0.3) [["A"%string]] = Ok s ∧
       ¬ ∃ e, e ∈ frequent_itemsets s ∧ content e = {["B"%string]}.
Proof.
  split; [by vm_compute|].
  eexists. split; [vm_compute; reflexivity|].
  intros (e & He & Hc). cbn [frequent_itemsets] in He.
  apply list_elem_of_singleton in He as ->. unfold content in Hc.
  cbn [itemset] in Hc.
  apply (f_equal (λ X : gset string, bool_decide ("B"%string ∈ X))) in Hc.
  vm_compute in Hc. discriminate.
Qed.

(** ** C4: the count threshold *)

(** Ten playlists with the item A in six of them, and a hundred with A in
    twenty-eight. *)
Definition ten_playlists : list (list string) :=
  replicate 6 ["A"%string] ++ replicate 4 ["B"%string].

Definition hundred_playlists : list (list string) :=
  replicate 28 ["A"%string] ++ replicate 72 ["B"%string].

Definition ten_run : EclatAlgorithm :=
  Eval vm_compute in
    match mine (configured 0.7 0.3) ten_playlists with
    | Ok s => s
    | Raise _ => init
    end.

Definition hundred_run : EclatAlgorithm :=
  Eval vm_compute in
    match mine (configured 0.29 0.3) hundred_playlists with
    | Ok s => s
    | Raise _ => init
    end.

(** C4, as stated, fails: the threshold is the truncation of the binary64
    product, which is not the floor of the exact product. With
    [min_support = 0.7] and ten transactions the float product is 7.0 and
    the threshold 7, while the exact product of the float 0.7 (a little
    below seven tenths) by 10 has floor 6: an item in six transactions
    reaches that floor and is not emitted. With [min_support = 0.29] and a
    hundred transactions the float product is 28.999999999999996 and the
    threshold 28, while the floor of 29/100 times 100 is 29: an item in
    twenty-eight transactions is emitted. *)
Lemma C4_not_floor_of_exact_product :
  (unit_interval 0.7 ∧
   min_count 0.7 ten_playlists = Ok 7 ∧
   Qfloor (value 0.7 * inject_Z (Z.of_nat (length ten_playlists))) = 6 ∧
   Qfloor ((7 # 10) * inject_Z (Z.of_nat (length ten_playlists))) = 7 ∧
   size (dict_val (_build_tid_lists ten_playlists) "A") = 6%nat ∧
   mine (configured 0.7 0.3) ten_playlists = Ok ten_run ∧
   ¬ ∃ e, e ∈ frequent_itemsets ten_run ∧ itemset e = ["A"%string]) ∧
  (unit_interval 0.29 ∧
   min_count 0.29 hundred_playlists = Ok 28 ∧
   Qfloor (value 0.29 * inject_Z (Z.of_nat (length hundred_playlists))) = 28 ∧
   Qfloor ((29 # 100) * inject_Z (Z.of_nat (length hundred_playlists))) = 29 ∧
   size (dict_val (_build_tid_lists hundred_playlists) "A") = 28%nat ∧
   mine (configured 0.29 0.3) hundred_playlists = Ok hundred_run ∧
   ∃ e, e ∈ frequent_itemsets hundred_run ∧ itemset e = ["A"%string]).
Proof.
  split.
  - split; [split; reflexivity|]. split; [by vm_compute|].
    split; [by vm_compute|]. split; [by vm_compute|].
    split; [by vm_compute|]. split; [vm_compute; reflexivity|].
    intros (e & He & _). cbn [frequent_itemsets ten_run] in He.
    by apply elem_of_nil in He.
  - split; [split; reflexivity|]. split; [by vm_compute|].
    split; [by vm_compute|]. split; [by vm_compute|].
    split; [by vm_compute|]. split; [vm_compute; reflexivity|].
    eexists. split; [cbn [frequent_itemsets hundred_run]; left|]. reflexivity.
Qed.

(** C4 (amended): for [min_support] in the unit interval and fewer than
    2^53 transactions, the threshold [int(min_support * N)] is computed
    without an exception; it is the floor or the ceiling of the exact
    product of the value of [min_support] by [N] (the ceiling when the
    binary64 product rounds up to an integer), and that product itself
    when it is an integer. The mining steps return, and an item is emitted
    as a size-1 itemset exactly when it occurs in the data and its tid-list
    has at least that many elements. *)
Theorem C4_threshold ms mc txs :
  unit_interval ms → Z.of_nat (length txs) < 2 ^ 53 →
  ∃ k s,
    min_count ms txs = Ok k ∧
    Qfloor (value ms * inject_Z (Z.of_nat (length txs))) ≤ k ∧
    k ≤ Qceiling (value ms * inject_Z (Z.of_nat (length txs))) ∧
    (∀ c, (value ms * inject_Z (Z.of_nat (length txs)) == inject_Z c)%Q →
          k = c) ∧
    mine (configured ms mc) txs = Ok s ∧
    ∀ it,
      (∃ e, e ∈ frequent_itemsets s ∧ itemset e = [it]) ↔
      observed txs it ∧
      k ≤ Z.of_nat (size (dict_val (_build_tid_lists txs) it)).
Proof.
  intros Hms Hn.
  destruct (min_count_spec ms txs Hms Hn) as (k & Hk & _ & Hup).
  pose proof (min_count_lower ms txs k) as Hlo.
  destruct (mine_total ms mc txs k Hk) as [s Hmine].
  exists k, s. split; [done|]. split; [|split; [|split; [|split]]].
  - apply Hlo; [done..|]. apply Qfloor_le.
  - apply Hup, Qle_ceiling.
  - intros c Hc. apply Z.le_antisymm.
    + apply Hup. rewrite Hc. apply Qle_refl.
    + apply Hlo; [done..|]. rewrite Hc. apply Qle_refl.
  - done.
  - intros it. rewrite build_tid_lists_val.
    assert ((list_to_set [it] : gset string) = {[it]}) as Hset by set_solver.
    split.
    + intros (e & He & Hit).
      destruct (mine_sound _ _ _ _ Hmine) as (k' & Hk' & Hok).
      assert (k' = k) as -> by congruence.
      destruct (Hok e He) as [_ _ _ Hobs Htl Hc _].
      rewrite Hit in Hobs, Htl. rewrite Htl, Hset in Hc.
      split; [apply Hobs; left | done].
    + intros [Hobs Hc].
      apply (mine_complete ms mc txs s k Hmine Hk [it]).
      * done.
      * repeat constructor.
      * cbn. unfold max_size. lia.
      * by intros q ->%list_elem_of_singleton.
      * by rewrite Hset.
Qed.

Lemma C4_threshold_witness :
  unit_interval 0.7 ∧ Z.of_nat (length ten_playlists) < 2 ^ 53 ∧
  ∃ k s,
    min_count 0.7 ten_playlists = Ok k ∧
    Qfloor (value 0.7 * inject_Z (Z.of_nat (length ten_playlists))) ≤ k ∧
    k ≤ Qceiling (value 0.7 * inject_Z (Z.of_nat (length ten_playlists))) ∧
    (∀ c, (value 0.7 * inject_Z (Z.of_nat (length ten_playlists))
           == inject_Z c)%Q → k = c) ∧
    mine (configured 0.7 0.3) ten_playlists = Ok s ∧
    ∀ it,
      (∃ e, e ∈ frequent_itemsets s ∧ itemset e = [it]) ↔
      observed ten_playlists it ∧
      k ≤ Z.of_nat (size (dict_val (_build_tid_lists ten_playlists) it)).
Proof.
  assert (unit_interval 0.7) as Hms by (split; reflexivity).
  assert (Z.of_nat (length ten_playlists) < 2 ^ 53) as Hn by (simpl; lia).
  split; [exact Hms|]. split; [exact Hn|].
  exact (C4_threshold 0.7 0.3 ten_playlists Hms Hn).
Defined.

(** * Further properties of [EclatAlgorithm] *)

(** What a run on a fresh object leaves in the fields other than
    [frequent_itemsets] and [rules]. *)
Lemma run_fields ms mc txs s :
  mine (configured ms mc) txs = Ok s ∨ fit (configured ms mc) txs = Ok s →
  tid_lists s = _build_tid_lists txs ∧ num_transactions s = length txs.
Proof.
  assert (∀ s1, mine (configured ms mc) txs = Ok s1 →
            tid_lists s1 = _build_tid_lists txs
            ∧ num_transactions s1 = length txs) as Hmine.
  { intros s1 (? & ? & ? & _ & _ & _ & ->)%mine_inv. done. }
  intros [H | (s1 & H & Hgen)%fit_inv]; [by apply Hmine|].
  unfold _generate_rules in Hgen.
  apply bind_Ok_inv in Hgen as (rs & _ & Hgen). injection Hgen as <-.
  cbn [tid_lists num_transactions]. by apply Hmine.
Qed.

(** ** The vertical index *)

Lemma elem_of_cover txs (S : gset string) i :
  i ∈ cover txs S ↔ ∃ t, txs !! i = Some t ∧ ∀ q, q ∈ S → q ∈ t.
Proof.
  unfold cover. rewrite elem_of_cover_from. split.
  - intros (j & t & -> & Hj & Ht). exists t. split; [done|].
    intros q Hq. apply Ht in Hq. by apply elem_of_list_to_set in Hq.
  - intros (t & Hi & Ht). exists i, t. split; [done|]. split; [done|].
    intros q Hq. apply Ht in Hq. by apply elem_of_list_to_set.
Qed.

(** X1: the vertical index built by [_build_tid_lists] has no repeated
    key, has a key exactly for the items that occur in some transaction, and
    stores under each key the positions of the transactions that contain
    the item. *)
Theorem X1_build_tid_lists txs it :
  NoDup (_build_tid_lists txs).*1 ∧
  ((∃ v, dict_get (_build_tid_lists txs) it = Ok v) ↔ observed txs it) ∧
  ∀ v i, dict_get (_build_tid_lists txs) it = Ok v →
         (i ∈ v ↔ ∃ t, txs !! i = Some t ∧ it ∈ t).
Proof.
  split; [apply build_tid_lists_wf|]. split.
  - by rewrite <- dict_get_key, build_tid_lists_key.
  - intros v i ->%build_tid_lists_get. rewrite elem_of_cover. split.
    + intros (t & Hi & Ht). exists t. split; [done|].
      apply Ht. by apply elem_of_singleton.
    + intros (t & Hi & Ht). exists t. split; [done|].
      by intros q ->%elem_of_singleton.
Qed.

(** ** What every entry records *)

(** X2: in a run on a fresh object every entry of [frequent_itemsets] has
    one to five items; its tid-list holds exactly the positions of the
    transactions that contain all of its items, which is the intersection
    of the tid-lists its items have in the vertical index; the size of the
    tid-list reaches the count threshold; and the recorded support is that
    size divided by the number of transactions. *)
Theorem X2_entry_sound ms mc txs s e :
  mine (configured ms mc) txs = Ok s ∨ fit (configured ms mc) txs = Ok s →
  e ∈ frequent_itemsets s →
  (1 ≤ length (itemset e) ≤ max_size)%nat ∧
  (∀ i, i ∈ tid_list e ↔
        ∃ t, txs !! i = Some t ∧ ∀ q, q ∈ itemset e → q ∈ t) ∧
  (∀ i, i ∈ tid_list e ↔
        ∀ q, q ∈ itemset e → i ∈ dict_val (tid_lists s) q) ∧
  ∃ k, min_count ms txs = Ok k ∧
       k ≤ Z.of_nat (size (tid_list e)) ∧
       Py.int_truediv (Z.of_nat (size (tid_list e))) (Z.of_nat (length txs))
       = Ok (support e).
Proof.
  intros Hrun He. destruct (run_fields _ _ _ _ Hrun) as [-> _].
  apply run_itemsets in Hrun as (s1 & Hmine & Hfis). rewrite Hfis in He.
  destruct (mine_sound _ _ _ _ Hmine) as (k & Hk & Hok).
  destruct (Hok e He) as [Hne Hsorted Hlen Hobs Htl Hc Hsup].
  assert (∀ i, i ∈ tid_list e ↔
            ∃ t, txs !! i = Some t ∧ ∀ q, q ∈ itemset e → q ∈ t) as Hin.
  { intros i. rewrite Htl, elem_of_cover.
    by setoid_rewrite elem_of_list_to_set. }
  split; [|split; [done|]; split; [|by exists k]].
  - split; [|done]. destruct (itemset e); [done | simpl; lia].
  - intros i. rewrite Hin. setoid_rewrite build_tid_lists_val.
    setoid_rewrite elem_of_cover. split.
    + intros (t & Hi & Ht) q Hq. exists t. split; [done|].
      intros ? ->%elem_of_singleton. by apply Ht.
    + intros Hall. destruct (itemset e) as [|q0 Q] eqn:HQ; [done|].
      destruct (Hall q0) as (t & Hi & _); [left|].
      exists t. split; [done|]. intros q Hq.
      destruct (Hall q Hq) as (t' & Hi' & Ht').
      assert (t' = t) as -> by congruence. apply Ht'. set_solver.
Qed.

Lemma X2_entry_sound_witness :
  (mine (configured 0.05 0.3) [["B"; "A"]]%string = Ok small_run ∨
   fit (configured 0.05 0.3) [["B"; "A"]]%string = Ok small_run) ∧
  Entry ["A"; "B"] 1 {[0%nat]} ∈ frequent_itemsets small_run ∧
  (1 ≤ length ["A"; "B"]%string ≤ max_size)%nat ∧
  (∀ i, i ∈ ({[0%nat]} : gset nat) ↔
        ∃ t, [["B"; "A"]]%string !! i = Some t
             ∧ ∀ q, q ∈ ["A"; "B"]%string → q ∈ t) ∧
  (∀ i, i ∈ ({[0%nat]} : gset nat) ↔
        ∀ q, q ∈ ["A"; "B"]%string → i ∈ dict_val (tid_lists small_run) q) ∧
  ∃ k, min_count 0.05 [["B"; "A"]]%string = Ok k ∧
       k ≤ Z.of_nat (size ({[0%nat]} : gset nat)) ∧
       Py.int_truediv (Z.of_nat (size ({[0%nat]} : gset nat)))
         (Z.of_nat (length [["B"; "A"]]%string))
       = Ok 1%float.
Proof.
  assert (mine (configured 0.05 0.3) [["B"; "A"]]%string = Ok small_run) as H
    by (vm_compute; reflexivity).
  assert (Entry ["A"; "B"] 1 {[0%nat]} ∈ frequent_itemsets small_run) as He
    by (apply (list_elem_of_lookup_2 _ 2%nat); reflexivity).
  split; [by left|]. split; [exact He|].
  exact (X2_entry_sound 0.05 0.3 [["B"; "A"]]%string small_run _
           (or_introl H) He).
Defined.

(** ** Which itemsets are emitted *)

(** X3: every non-empty subset of the content of an entry is itself the
    content of an entry: the emitted itemsets are closed downwards. *)
Theorem X3_downward_closed ms mc txs s e (S : gset string) :
  mine (configured ms mc) txs = Ok s ∨ fit (configured ms mc) txs = Ok s →
  e ∈ frequent_itemsets s → S ≠ ∅ → S ⊆ content e →
  ∃ e', e' ∈ frequent_itemsets s ∧ content e' = S.
Proof.
  intros (s1 & Hmine & ->)%run_itemsets He Hne Hsub.
  destruct (mine_sound _ _ _ _ Hmine) as (k & Hk & Hok).
  destruct (Hok e He) as [_ Hsorted Hlen Hobs Htl Hc _].
  apply (emitted_iff_count ms mc txs s1 k S Hmine Hk).
  - split.
    + destruct (decide (size S = 0%nat)) as [H0%size_empty_inv|]; [|lia].
      by apply leibniz_equiv in H0.
    + etrans; [by apply subseteq_size|]. unfold content.
      rewrite size_list_to_set by by apply item_lt_sorted_NoDup. done.
  - intros q Hq. apply Hobs. apply Hsub in Hq.
    by apply elem_of_list_to_set in Hq.
  - etrans; [exact Hc|]. rewrite Htl, size_cover.
    apply Nat2Z.inj_le. by apply support_count_mono.
Qed.

Lemma X3_downward_closed_witness :
  (mine (configured 0.05 0.3) [["B"; "A"]]%string = Ok small_run ∨
   fit (configured 0.05 0.3) [["B"; "A"]]%string = Ok small_run) ∧
  Entry ["A"; "B"] 1 {[0%nat]} ∈ frequent_itemsets small_run ∧
  ({["B"%string]} : gset string) ≠ ∅ ∧
  ({["B"%string]} : gset string) ⊆ content (Entry ["A"; "B"] 1 {[0%nat]}) ∧
  ∃ e', e' ∈ frequent_itemsets small_run ∧ content e' = {["B"%string]}.
Proof.
  assert (({["B"%string]} : gset string) ≠ ∅) as Hne by set_solver.
  assert (({["B"%string]} : gset string)
            ⊆ content (Entry ["A"; "B"] 1 {[0%nat]})) as Hsub
    by (unfold content; cbn [itemset list_to_set]; set_solver).
  assert (mine (configured 0.05 0.3) [["B"; "A"]]%string = Ok small_run) as H
    by (vm_compute; reflexivity).
  assert (Entry ["A"; "B"] 1 {[0%nat]} ∈ frequent_itemsets small_run) as He
    by (apply (list_elem_of_lookup_2 _ 2%nat); reflexivity).
  split; [left; exact H|]. split; [exact He|]. split; [exact Hne|].
  split; [exact Hsub|].
  exact (X3_downward_closed 0.05 0.3 [["B"; "A"]]%string small_run _ _
           (or_introl H) He Hne Hsub).
Defined.

(** ** The count threshold *)

(** X4: for [min_support] in the unit interval and fewer than 2^53
    transactions, [int(min_support * N)] raises nothing and lies between
    the floor and the ceiling of the exact product of the value of
    [min_support] by [N]; when that product is an integer the threshold is
    that integer. *)
Theorem X4_threshold_bounds ms txs :
  unit_interval ms → Z.of_nat (length txs) < 2 ^ 53 →
  ∃ k, min_count ms txs = Ok k ∧
       Qfloor (value ms * inject_Z (Z.of_nat (length txs))) ≤ k ∧
       k ≤ Qceiling (value ms * inject_Z (Z.of_nat (length txs))) ∧
       ∀ c, (value ms * inject_Z (Z.of_nat (length txs)) == inject_Z c)%Q →
            k = c.
Proof.
  intros Hms Hn.
  destruct (min_count_spec ms txs Hms Hn) as (k & Hk & _ & Hup).
  pose proof (min_count_lower ms txs k) as Hlo.
  exists k. split; [done|]. split; [|split].
  - apply Hlo; [done..|]. apply Qfloor_le.
  - apply Hup, Qle_ceiling.
  - intros c Hc. apply Z.le_antisymm.
    + apply Hup. rewrite Hc. apply Qle_refl.
    + apply Hlo; [done..|]. rewrite Hc. apply Qle_refl.
Qed.

Lemma X4_threshold_bounds_witness :
  unit_interval 0.4 ∧ Z.of_nat (length worked_example) < 2 ^ 53 ∧
  ∃ k, min_count 0.4 worked_example = Ok k ∧
       Qfloor (value 0.4 * inject_Z (Z.of_nat (length worked_example))) ≤ k ∧
       k ≤ Qceiling (value 0.4 * inject_Z (Z.of_nat (length worked_example))) ∧
       ∀ c, (value 0.4 * inject_Z (Z.of_nat (length worked_example))
             == inject_Z c)%Q → k = c.
Proof.
  assert (unit_interval 0.4) as Hms by (split; reflexivity).
  assert (Z.of_nat (length worked_example) < 2 ^ 53) as Hn by (simpl; lia).
  split; [exact Hms|]. split; [exact Hn|].
  exact (X4_threshold_bounds 0.4 worked_example Hms Hn).
Defined.

(** ** When [fit] raises *)

Lemma int_of_float_Raise x e :
  Py.int_of_float x = Raise e → e = ValueError ∨ e = OverflowError.
Proof.
  unfold Py.int_of_float.
  destruct (Prim2SF x); intros [= <-]; auto.
Qed.

(** A support recorded under a positive threshold is not zero. *)
Lemma entry_support_nonzero txs k e :
  Z.of_nat (length txs) < 2 ^ 53 → 1 ≤ k → entry_ok txs k e →
  PrimFloat.eqb (support e) 0 = false.
Proof.
  intros Hn Hk Hok. destruct (entry_support_quot _ _ _ Hok) as [HN ->].
  destruct Hok as [_ _ _ _ Htl Hc _]. rewrite Htl, size_cover in Hc.
  fold (content e) in Hc.
  pose proof (support_count_le txs (content e)).
  destruct (quot_pos (Z.of_nat (support_count txs (content e)))
              (Z.of_nat (length txs))) as (m & ex & ? & HS & _); [lia..|].
  by rewrite FloatAxioms.eqb_spec, HS.
Qed.

(** Where an exception of [fit] on a fresh object comes from. *)
Lemma fit_Raise_inv ms mc txs e :
  Z.of_nat (length txs) < 2 ^ 53 →
  fit (configured ms mc) txs = Raise e →
  (min_count ms txs = Raise e ∧ (e = ValueError ∨ e = OverflowError)) ∨
  (e = ZeroDivisionError ∧ ∃ k, min_count ms txs = Ok k ∧ k ≤ 0).
Proof.
  intros Hn. unfold fit.
  intros [H | (s1 & Hmine & H)]%bind_Raise_inv.
  - left. destruct (min_count ms txs) as [k|e'] eqn:Hk.
    + destruct (mine_total ms mc txs k Hk) as [s' Hs']. congruence.
    + rewrite mine_configured, Hk in H. injection H as ->.
      split; [done|]. by eapply int_of_float_Raise.
  - right. apply generate_rules_Raise in H as (-> & fe & Hfe & Hz).
    split; [done|].
    destruct (mine_sound _ _ _ _ Hmine) as (k & Hk & Hok).
    exists k. split; [done|].
    destruct (Z.le_gt_cases k 0) as [|Hpos]; [done|].
    rewrite (entry_support_nonzero txs k fe) in Hz; [done | done | lia |].
    by apply Hok.
Qed.

(** X5: [fit] on a fresh object never raises [KeyError]. On fewer than
    2^53 transactions an exception is either the [ValueError] or
    [OverflowError] of [int(min_support * N)], or a [ZeroDivisionError], and
    the latter only when the count threshold is not positive. *)
Theorem X5_fit_exceptions ms mc txs e :
  Z.of_nat (length txs) < 2 ^ 53 →
  fit (configured ms mc) txs = Raise e →
  e ≠ KeyError ∧
  ((min_count ms txs = Raise e ∧ (e = ValueError ∨ e = OverflowError)) ∨
   (e = ZeroDivisionError ∧ ∃ k, min_count ms txs = Ok k ∧ k ≤ 0)).
Proof.
  intros Hn H. pose proof (fit_Raise_inv ms mc txs e Hn H) as Hinv.
  split; [|done].
  destruct Hinv as [[_ [-> | ->]] | [-> _]]; discriminate.
Qed.

(** X6: when the count threshold [int(min_support * N)] is at least 1, and
    there are fewer than 2^53 transactions, [fit] on a fresh object returns
    without an exception. *)
Theorem X6_fit_succeeds ms mc txs k :
  Z.of_nat (length txs) < 2 ^ 53 → min_count ms txs = Ok k → 1 ≤ k →
  ∃ s, fit (configured ms mc) txs = Ok s.
Proof.
  intros Hn Hk Hpos.
  destruct (fit (configured ms mc) txs) as [s|e] eqn:Hfit; [by exists s|].
  destruct (fit_Raise_inv ms mc txs e Hn Hfit)
    as [[Hr _] | (_ & k' & Hk' & Hle)]; [congruence|].
  assert (k' = k) by congruence. lia.
Qed.

Lemma X6_fit_succeeds_witness :
  Z.of_nat (length worked_example) < 2 ^ 53 ∧
  min_count 0.4 worked_example = Ok 2 ∧ 1 ≤ 2 ∧
  ∃ s, fit (configured 0.4 0.5) worked_example = Ok s.
Proof.
  assert (Z.of_nat (length worked_example) < 2 ^ 53) as Hn by (simpl; lia).
  assert (min_count 0.4 worked_example = Ok 2) as Hk
    by (vm_compute; reflexivity).
  assert (1 ≤ 2) as Hpos by lia.
  split; [exact Hn|]. split; [exact Hk|]. split; [exact Hpos|].
  exact (X6_fit_succeeds 0.4 0.5 worked_example 2 Hn Hk Hpos).
Defined.

(** X7: with the thresholds of [__init__] ([min_support = 0.05]), [fit]
    on a list of at least 20 and fewer than 2^53 transactions returns
    without an exception. *)
Theorem X7_fit_default_succeeds txs :
  20 ≤ Z.of_nat (length txs) < 2 ^ 53 → ∃ s, fit init txs = Ok s.
Proof.
  intros [H20 Hn]. change init with (configured 0.05 0.3).
  assert (unit_interval 0.05) as Hms by (split; reflexivity).
  destruct (min_count_spec 0.05 txs Hms Hn) as (k & Hk & _).
  assert (1 ≤ k) as Hpos; [|
    destruct (fit (configured 0.05 0.3) txs) as [s|e] eqn:Hfit;
      [by exists s|];
    destruct (fit_Raise_inv 0.05 0.3 txs e Hn Hfit)
      as [[Hr _] | (_ & k' & Hk' & Hle)]; [congruence|];
    assert (k' = k) by congruence; lia].
  apply (min_count_lower 0.05 txs k 1 Hms Hn Hk).
  assert ((1 # 20) <= value 0.05)%Q as Hv by (by vm_compute).
  apply (IEEE.inject_Z_le 20) in H20.
  apply Qle_trans with ((1 # 20) * inject_Z 20)%Q; [by vm_compute|].
  apply Qle_trans with ((1 # 20) * inject_Z (Z.of_nat (length txs)))%Q.
  - apply Qmult_le_l; [done | done].
  - apply Qmult_le_compat_r; [done|].
    apply Qle_trans with (inject_Z 20); [by vm_compute | done].
Qed.

Lemma X7_fit_default_succeeds_witness :
  20 ≤ Z.of_nat (length (replicate 20 ["A"%string])) < 2 ^ 53 ∧
  ∃ s, fit init (replicate 20 ["A"%string]) = Ok s.
Proof.
  assert (20 ≤ Z.of_nat (length (replicate 20 ["A"%string])) < 2 ^ 53) as Hn
    by (simpl; lia).
  split; [exact Hn|].
  exact (X7_fit_default_succeeds (replicate 20 ["A"%string]) Hn).
Defined.

(** Three playlists without a common song. *)
Definition three_singletons : list (list string) :=
  [["A"]; ["B"]; ["C"]]%string.

Lemma X5_fit_exceptions_witness :
  Z.of_nat (length three_singletons) < 2 ^ 53 ∧
  fit (configured 0.05 0.3) three_singletons = Raise ZeroDivisionError ∧
  ZeroDivisionError ≠ KeyError ∧
  ((min_count 0.05 three_singletons = Raise ZeroDivisionError
    ∧ (ZeroDivisionError = ValueError ∨ ZeroDivisionError = OverflowError)) ∨
   (ZeroDivisionError = ZeroDivisionError
    ∧ ∃ k, min_count 0.05 three_singletons = Ok k ∧ k ≤ 0)).
Proof.
  assert (Z.of_nat (length three_singletons) < 2 ^ 53) as Hn by (simpl; lia).
  assert (fit (configured 0.05 0.3) three_singletons = Raise ZeroDivisionError)
    as H by (vm_compute; reflexivity).
  split; [exact Hn|]. split; [exact H|].
  exact (X5_fit_exceptions 0.05 0.3 three_singletons ZeroDivisionError Hn H).
Defined.

(** ** A run that divides by zero *)

(** The antecedent with a given content inside a sorted itemset. *)
Lemma sublist_with_content (its : list string) (S : gset string) :
  NoDup its → S ⊆ list_to_set its →
  ∃ ante, sublist ante its ∧ list_to_set ante = S ∧ length ante = size S.
Proof.
  intros Hnd Hsub. exists (filter (λ x, x ∈ S) its).
  split; [apply sublist_filter|].
  assert (list_to_set (filter (λ x, x ∈ S) its) = S) as Hset.
  { apply set_eq. intros x.
    rewrite elem_of_list_to_set, list_elem_of_filter. split; [by intros [? _]|].
    intros Hx. split; [done|]. apply Hsub in Hx.
    by apply elem_of_list_to_set in Hx. }
  split; [done|]. rewrite <- Hset.
  rewrite size_list_to_set by by apply NoDup_filter.
  by rewrite Hset.
Qed.

Lemma support_count_0 txs (S : gset string) :
  (∀ t, t ∈ txs → ¬ S ⊆ list_to_set t) → support_count txs S = 0%nat.
Proof.
  unfold support_count. induction txs as [|t txs IH]; intros H; [done|].
  rewrite filter_cons. destruct (decide (S ⊆ list_to_set t)) as [Hs|_].
  - destruct (H t); [left | done].
  - apply IH. intros t' Ht'. apply H. by right.
Qed.

Lemma quot_zero_eqb n : 0 < n < 2 ^ 53 → PrimFloat.eqb (quot 0 n) 0 = true.
Proof. intros Hn. by rewrite FloatAxioms.eqb_spec, (quot_zero n Hn). Qed.

(** An entry that no transaction supports, below a larger entry, makes the
    rule generator divide by a zero support. *)
Lemma generate_rules_zero_division ms mc txs s1 e2 e3 :
  Z.of_nat (length txs) < 2 ^ 53 →
  mine (configured ms mc) txs = Ok s1 →
  e2 ∈ frequent_itemsets s1 → e3 ∈ frequent_itemsets s1 →
  content e2 ⊂ content e3 → support_count txs (content e2) = 0%nat →
  _generate_rules s1 = Raise ZeroDivisionError.
Proof.
  intros Hn Hmine He2 He3 Hsub H0.
  destruct (mine_sound _ _ _ _ Hmine) as (k & Hk & Hok).
  pose proof (Hok e2 He2) as [Hne2 Hs2 _ _ _ _ _].
  pose proof (Hok e3 He3) as [_ Hs3 _ _ _ _ _].
  apply item_lt_sorted_NoDup in Hs2, Hs3.
  assert (size (content e2) = length (itemset e2)) as Hsz2
    by by apply size_list_to_set.
  assert (size (content e3) = length (itemset e3)) as Hsz3
    by by apply size_list_to_set.
  assert (size (content e2) < size (content e3))%nat as Hlt
    by by apply subset_size.
  assert (1 ≤ length (itemset e2))%nat as Hlen2
    by (destruct (itemset e2); [done | simpl; lia]).
  destruct (sublist_with_content (itemset e3) (content e2) Hs3)
    as (ante & Hante & Hset & Hlen); [by apply Hsub|].
  destruct (_generate_rules s1) as [s'|e] eqn:Hgen;
    [exfalso | by apply generate_rules_Raise in Hgen as [-> _]].
  unfold _generate_rules in Hgen.
  apply bind_Ok_inv in Hgen as (rs & Hrs & _).
  destruct (for_list_Ok_all _ _ _ Hrs e3 He3) as [ys Hys].
  unfold itemset_rules in Hys.
  destruct (Nat.ltb_spec (length (itemset e3)) 2) as [|_]; [lia|].
  destruct (for_list_Ok_all _ _ _ Hys (length ante)) as [zs Hzs];
    [apply elem_of_seq; lia|].
  destruct (for_list_Ok_all _ _ _ Hzs ante) as [ws Hws];
    [by apply combinations_complete|].
  unfold split_rule in Hws. rewrite Hset in Hws.
  destruct (support_table_elem _ _ He2) as [z Hz].
  fold (content e2) in Hz. rewrite Hz in Hws.
  apply support_table_lookup in Hz as (e' & He' & Hc' & <-).
  destruct (entry_support_quot _ _ _ (Hok e' He')) as [HN Hsup].
  unfold content in Hsup at 1. rewrite Hc', H0 in Hsup.
  unfold Py.float_truediv in Hws.
  rewrite Hsup, quot_zero_eqb in Hws by lia. discriminate Hws.
Qed.

(** X8: when the count threshold is not positive (as it is with the
    default [min_support = 0.05] on fewer than 20 transactions) and the data
    has three distinct items of which two never occur in the same
    transaction, [fit] on a fresh object raises [ZeroDivisionError]: the
    pair is emitted with support 0.0 and is then used as the antecedent of
    a rule of the triple. *)
Theorem X8_fit_zero_division ms mc txs k a b c :
  Z.of_nat (length txs) < 2 ^ 53 → min_count ms txs = Ok k → k ≤ 0 →
  observed txs a → observed txs b → observed txs c →
  a ≠ b → a ≠ c → b ≠ c →
  (∀ t, t ∈ txs → ¬ (a ∈ t ∧ b ∈ t)) →
  fit (configured ms mc) txs = Raise ZeroDivisionError.
Proof.
  intros Hn Hk Hle Ha Hb Hc Hab Hac Hbc Hnever.
  destruct (mine_total ms mc txs k Hk) as [s1 Hmine].
  set (S2 := ({[a]} ∪ {[b]} : gset string)).
  set (S3 := (S2 ∪ {[c]} : gset string)).
  assert (size S2 = 2%nat) as Hsz2.
  { unfold S2. rewrite size_union, !size_singleton by set_solver. done. }
  assert (size S3 = 3%nat) as Hsz3.
  { unfold S3. rewrite size_union, Hsz2, size_singleton by set_solver. done. }
  assert (support_count txs S2 = 0%nat) as H0.
  { apply support_count_0. intros t Ht Hsub. apply (Hnever t Ht).
    assert (a ∈ S2 ∧ b ∈ S2) as [Ha2 Hb2] by (unfold S2; set_solver).
    apply Hsub in Ha2, Hb2.
    by apply elem_of_list_to_set in Ha2, Hb2. }
  destruct (emitted_iff_count ms mc txs s1 k S2 Hmine Hk) as [_ (e2 & He2 & Hc2)].
  { rewrite Hsz2. unfold max_size. lia. }
  { intros q [->%elem_of_singleton | ->%elem_of_singleton]%elem_of_union;
      done. }
  { lia. }
  destruct (emitted_iff_count ms mc txs s1 k S3 Hmine Hk) as [_ (e3 & He3 & Hc3)].
  { rewrite Hsz3. unfold max_size. lia. }
  { unfold S3, S2. intros q Hq.
    apply elem_of_union in Hq as [Hq | ->%elem_of_singleton]; [|done].
    apply elem_of_union in Hq as [->%elem_of_singleton | ->%elem_of_singleton];
      done. }
  { lia. }
  unfold fit. rewrite Hmine. cbn [mbind result_bind].
  apply (generate_rules_zero_division ms mc txs s1 e2 e3); try done.
  - rewrite Hc2, Hc3. unfold S3, S2. set_solver.
  - by rewrite Hc2.
Qed.

Lemma X8_fit_zero_division_witness :
  Z.of_nat (length three_singletons) < 2 ^ 53 ∧
  min_count 0.05 three_singletons = Ok 0 ∧ 0 ≤ 0 ∧
  observed three_singletons "A" ∧ observed three_singletons "B" ∧
  observed three_singletons "C" ∧
  "A"%string ≠ "B"%string ∧ "A"%string ≠ "C"%string ∧
  "B"%string ≠ "C"%string ∧
  (∀ t, t ∈ three_singletons → ¬ ("A"%string ∈ t ∧ "B"%string ∈ t)) ∧
  fit (configured 0.05 0.3) three_singletons = Raise ZeroDivisionError.
Proof.
  assert (Z.of_nat (length three_singletons) < 2 ^ 53) as Hn by (simpl; lia).
  assert (min_count 0.05 three_singletons = Ok 0) as Hk
    by (vm_compute; reflexivity).
  assert (0 ≤ 0) as Hle by lia.
  assert (observed three_singletons "A") as Ha
    by (exists ["A"%string]; split; [left | left]).
  assert (observed three_singletons "B") as Hb
    by (exists ["B"%string]; split; [right; left | left]).
  assert (observed three_singletons "C") as Hc
    by (exists ["C"%string]; split; [do 2 right; left | left]).
  assert ("A"%string ≠ "B"%string) as Hab by discriminate.
  assert ("A"%string ≠ "C"%string) as Hac by discriminate.
  assert ("B"%string ≠ "C"%string) as Hbc by discriminate.
  assert (∀ t, t ∈ three_singletons → ¬ ("A"%string ∈ t ∧ "B"%string ∈ t))
    as Hnever.
  { intros t Ht [HA HB]. unfold three_singletons in Ht.
    repeat (apply elem_of_cons in Ht as [-> | Ht]);
      [| | |by apply elem_of_nil in Ht].
    - apply list_elem_of_singleton in HB. discriminate HB.
    - apply list_elem_of_singleton in HA. discriminate HA.
    - apply list_elem_of_singleton in HA. discriminate HA. }
  split; [exact Hn|]. split; [exact Hk|]. split; [exact Hle|].
  split; [exact Ha|]. split; [exact Hb|]. split; [exact Hc|].
  split; [exact Hab|]. split; [exact Hac|]. split; [exact Hbc|].
  split; [exact Hnever|].
  exact (X8_fit_zero_division 0.05 0.3 three_singletons 0 "A" "B" "C"
           Hn Hk Hle Ha Hb Hc Hab Hac Hbc Hnever).
Defined.

(** ** [fit] on an object that was already fitted *)

Lemma mine_any self txs s :
  mine self txs = Ok s →
  ∃ s1, mine (configured (min_support self) (min_confidence self)) txs = Ok s1 ∧
        s = {| min_support := min_support self;
               min_confidence := min_confidence self;
               frequent_itemsets :=
                 frequent_itemsets self ++ frequent_itemsets s1;
               rules := rules self;
               tid_lists := _build_tid_lists txs;
               num_transactions := length txs |}.
Proof.
  unfold mine. cbn [min_support min_confidence frequent_itemsets rules
                    configured].
  intros H. apply bind_Ok_inv in H as (k & Hk & H).
  apply bind_Ok_inv in H as (singles & Hs & H).
  apply bind_Ok_inv in H as (larger & Hl & H). injection H as <-.
  rewrite Hk. cbn [mbind result_bind]. rewrite Hs. cbn [mbind result_bind].
  rewrite Hl. cbn [mbind result_bind]. by eexists.
Qed.

(** X9: [fit] does not clear [frequent_itemsets]. After [fit] on an object
    that already holds entries, the list consists of the old entries
    followed by the entries a fresh object with the same thresholds gets
    from the same transactions; [tid_lists] and [num_transactions] are
    replaced. *)
Theorem X9_fit_keeps_old_entries self txs s :
  fit self txs = Ok s →
  ∃ s1, mine (configured (min_support self) (min_confidence self)) txs = Ok s1 ∧
        frequent_itemsets s = frequent_itemsets self ++ frequent_itemsets s1 ∧
        tid_lists s = _build_tid_lists txs ∧
        num_transactions s = length txs.
Proof.
  intros (s0 & (s1 & Hs1 & ->)%mine_any & Hgen)%fit_inv.
  exists s1. split; [done|].
  unfold _generate_rules in Hgen.
  apply bind_Ok_inv in Hgen as (rs & _ & Hgen). by injection Hgen as <-.
Qed.

(** The object after [fit] on the single transaction [B, A]. *)
Definition small_fit : EclatAlgorithm :=
  Eval vm_compute in
    match fit (configured 0.05 0.3) [["B"; "A"]]%string with
    | Ok s => s
    | Raise _ => init
    end.

(** The object after a second [fit] on the same transaction. *)
Definition small_refit : EclatAlgorithm :=
  Eval vm_compute in
    match fit small_fit [["B"; "A"]]%string with
    | Ok s => s
    | Raise _ => init
    end.

Lemma X9_fit_keeps_old_entries_witness :
  fit small_fit [["B"; "A"]]%string = Ok small_refit ∧
  ∃ s1, mine (configured (min_support small_fit) (min_confidence small_fit))
          [["B"; "A"]]%string = Ok s1 ∧
        frequent_itemsets small_refit
        = frequent_itemsets small_fit ++ frequent_itemsets s1 ∧
        tid_lists small_refit = _build_tid_lists [["B"; "A"]]%string ∧
        num_transactions small_refit = length [["B"; "A"]]%string.
Proof.
  assert (fit small_fit [["B"; "A"]]%string = Ok small_refit) as H
    by (vm_compute; reflexivity).
  split; [exact H|].
  exact (X9_fit_keeps_old_entries small_fit [["B"; "A"]]%string small_refit H).
Defined.

(** ** The rules of a run *)

Lemma split_content (ante its : list string) :
  sublist ante its →
  (list_to_set ante ∪ list_to_set (filter (λ it, it ∉ ante) its) : gset string)
  = list_to_set its.
Proof.
  intros Hsub. apply set_eq. intros x.
  rewrite elem_of_union, !elem_of_list_to_set, list_elem_of_filter. split.
  - intros [Ha | [_ ?]]; [by eapply elem_of_sublist | done].
  - intros Hx. destruct (decide (x ∈ ante)); [by left | by right].
Qed.

(** In a run on a fresh object, a non-empty set of items of an entry has
    its support in the lookup table of the rule generator. *)
Lemma table_has_subsets ms mc txs s1 e (S : gset string) :
  mine (configured ms mc) txs = Ok s1 →
  e ∈ frequent_itemsets s1 → S ≠ ∅ → S ⊆ content e →
  ∃ e', e' ∈ frequent_itemsets s1 ∧ content e' = S ∧
        support_table (frequent_itemsets s1) !! S = Some (support e').
Proof.
  intros Hmine He Hne Hsub.
  destruct (mine_sound _ _ _ _ Hmine) as (k & Hk & Hok).
  destruct (Hok e He) as [_ Hsorted Hlen Hobs Htl Hc _].
  destruct (emitted_iff_count ms mc txs s1 k S Hmine Hk) as [_ (e0 & He0 & Hc0)].
  - split.
    + destruct (decide (size S = 0%nat)) as [H0%size_empty_inv|]; [|lia].
      by apply leibniz_equiv in H0.
    + etrans; [by apply subseteq_size|]. unfold content.
      rewrite size_list_to_set by by apply item_lt_sorted_NoDup. done.
  - intros q Hq. apply Hobs. apply Hsub in Hq.
    by apply elem_of_list_to_set in Hq.
  - etrans; [exact Hc|]. rewrite Htl, size_cover.
    apply Nat2Z.inj_le. by apply support_count_mono.
  - destruct (support_table_elem _ _ He0) as [z Hz].
    fold (content e0) in Hz. rewrite Hc0 in Hz.
    destruct (support_table_lookup _ _ _ Hz) as (e' & He' & Hc' & <-).
    by exists e'.
Qed.

(** X10: in a successful [fit] on a fresh object the fallback support
    0.0001 is never used: the consequent of every rule is the content of an
    entry of [frequent_itemsets], and the lift of the rule is its confidence
    divided by the support recorded for that entry, which is not zero. *)
Theorem X10_lift_of_rule ms mc txs s r :
  fit (configured ms mc) txs = Ok s → r ∈ rules s →
  ∃ eC, eC ∈ frequent_itemsets s ∧
        content eC = list_to_set (consequent r) ∧
        PrimFloat.eqb (support eC) 0 = false ∧
        lift r = PrimFloat.div (confidence r) (support eC).
Proof.
  intros (s1 & Hmine & Hgen)%fit_inv Hr.
  destruct (generate_rules_Ok _ _ Hgen) as (Hfis & Hmc & Hrules).
  destruct (Hrules r Hr) as (fs & rs & Hfs & Hrs & Hr').
  destruct (itemset_rules_Ok _ _ _ _ _ Hrs Hr')
    as (Hlen & i & ante & rs' & Hi & Hante & Hsplit & Hr'').
  destruct (split_rule_Ok _ _ _ _ _ _ _ Hsplit Hr'')
    as (asup & _ & _ & _ & Ha & Hc & _ & Hlift).
  destruct (combinations_sublist _ _ _ Hante) as [Hsub Hleni].
  destruct (mine_sound _ _ _ _ Hmine) as (k & Hk & Hok).
  destruct (Hok fs Hfs) as [_ Hsorted _ _ _ _ _].
  destruct (sublist_missing _ _ Hsub) as (x & Hx & Hnx);
    [by apply item_lt_sorted_NoDup | lia |].
  destruct (table_has_subsets ms mc txs s1 fs (list_to_set (consequent r)))
    as (eC & HeC & HcC & Hlook); [done..| | |].
  - rewrite Hc. intros Hempty.
    assert (x ∈ (list_to_set (filter (λ it, it ∉ ante) (itemset fs))
                 : gset string)) as Hin
      by by apply elem_of_list_to_set, list_elem_of_filter.
    rewrite Hempty in Hin. by apply elem_of_empty in Hin.
  - rewrite Hc. intros y [_ Hy]%elem_of_list_to_set%list_elem_of_filter.
    by apply elem_of_list_to_set.
  - rewrite Hlook in Hlift. cbn [default] in Hlift.
    apply float_truediv_Ok in Hlift as [Hnz ->].
    exists eC. by rewrite Hfis.
Qed.

Lemma X10_lift_of_rule_witness :
  fit (configured 0.4 0.5) worked_example = Ok worked_run ∧
  worked_rule ∈ rules worked_run ∧
  ∃ eC, eC ∈ frequent_itemsets worked_run ∧
        content eC = list_to_set (consequent worked_rule) ∧
        PrimFloat.eqb (support eC) 0 = false ∧
        lift worked_rule = PrimFloat.div (confidence worked_rule) (support eC).
Proof.
  assert (fit (configured 0.4 0.5) worked_example = Ok worked_run) as Hfit
    by (vm_compute; reflexivity).
  assert (worked_rule ∈ rules worked_run) as Hr by left.
  split; [exact Hfit|]. split; [exact Hr|].
  exact (X10_lift_of_rule 0.4 0.5 worked_example worked_run worked_rule
           Hfit Hr).
Defined.

(** X11: [_generate_rules] misses no split. In a successful [fit] on a
    fresh object, for every entry and every non-empty proper sub-list of its
    items there is an entry with that content, and when the quotient of the
    two recorded supports reaches [min_confidence] the rule with that
    antecedent, the remaining items as consequent and that quotient as
    confidence is in [rules]. *)
Theorem X11_rules_complete ms mc txs s eI ante :
  fit (configured ms mc) txs = Ok s →
  eI ∈ frequent_itemsets s → sublist ante (itemset eI) →
  (1 ≤ length ante < length (itemset eI))%nat →
  ∃ eA, eA ∈ frequent_itemsets s ∧ content eA = list_to_set ante ∧
        (PrimFloat.leb mc (PrimFloat.div (support eI) (support eA)) = true →
         ∃ r, r ∈ rules s ∧ antecedent r = ante ∧
              consequent r = filter (λ it, it ∉ ante) (itemset eI) ∧
              rule_support r = support eI ∧
              confidence r = PrimFloat.div (support eI) (support eA)).
Proof.
  intros (s1 & Hmine & Hgen)%fit_inv HeI Hsub Hlen.
  pose proof Hgen as Hgen'. unfold _generate_rules in Hgen'.
  apply bind_Ok_inv in Hgen' as (rs & Hrs & Hs). injection Hs as <-.
  cbn [frequent_itemsets rules] in *.
  destruct (table_has_subsets ms mc txs s1 eI (list_to_set ante))
    as (eA & HeA & HcA & Hlook); [done..| | |].
  { destruct ante as [|a ante]; [simpl in Hlen; lia|]. set_solver. }
  { intros y Hy%elem_of_list_to_set. apply elem_of_list_to_set.
    by eapply elem_of_sublist. }
  exists eA. split; [done|]. split; [done|]. intros Hle.
  destruct (for_list_Ok_all _ _ _ Hrs eI HeI) as [ys Hys].
  pose proof Hys as Hys'. unfold itemset_rules in Hys'.
  destruct (Nat.ltb_spec (length (itemset eI)) 2) as [|_]; [lia|].
  destruct (for_list_Ok_all _ _ _ Hys' (length ante)) as [zs Hzs];
    [apply elem_of_seq; lia|].
  destruct (for_list_Ok_all _ _ _ Hzs ante) as [ws Hws];
    [by apply combinations_complete|].
  pose proof Hws as Hws'. unfold split_rule in Hws'. rewrite Hlook in Hws'.
  apply bind_Ok_inv in Hws' as (conf & Hconf & Hws').
  apply float_truediv_Ok in Hconf as [_ ->].
  assert (min_confidence s1 = mc) as Hmc1.
  { apply mine_inv in Hmine as (? & ? & ? & _ & _ & _ & ->). done. }
  rewrite Hmc1, Hle in Hws'.
  apply bind_Ok_inv in Hws' as (lft & _ & Hws'). injection Hws' as <-.
  exists (Rule ante (filter (λ it, it ∉ ante) (itemset eI)) (support eI)
            (PrimFloat.div (support eI) (support eA)) lft).
  split; [|done].
  apply (for_list_Ok_elem _ _ _ Hrs). exists eI, ys. split; [done|].
  split; [done|].
  apply (for_list_Ok_elem _ _ _ Hys'). exists (length ante), zs.
  split; [apply elem_of_seq; lia|]. split; [done|].
  apply (for_list_Ok_elem _ _ _ Hzs). eexists ante, _.
  split; [by apply combinations_complete|]. split; [exact Hws|]. left.
Qed.

Lemma X11_rules_complete_witness :
  fit (configured 0.4 0.5) worked_example = Ok worked_run ∧
  Entry ["A"; "B"] 0.6 {[0; 1; 4]}%nat ∈ frequent_itemsets worked_run ∧
  sublist ["A"%string] (itemset (Entry ["A"; "B"] 0.6 {[0; 1; 4]}%nat)) ∧
  (1 ≤ length ["A"%string]
   < length (itemset (Entry ["A"; "B"] 0.6 {[0; 1; 4]}%nat)))%nat ∧
  ∃ eA, eA ∈ frequent_itemsets worked_run ∧
        content eA = list_to_set ["A"%string] ∧
        (PrimFloat.leb 0.5
           (PrimFloat.div (support (Entry ["A"; "B"] 0.6 {[0; 1; 4]}%nat))
                          (support eA)) = true →
         ∃ r, r ∈ rules worked_run ∧ antecedent r = ["A"%string] ∧
              consequent r
              = filter (λ it, it ∉ ["A"%string])
                  (itemset (Entry ["A"; "B"] 0.6 {[0; 1; 4]}%nat)) ∧
              rule_support r
              = support (Entry ["A"; "B"] 0.6 {[0; 1; 4]}%nat) ∧
              confidence r
              = PrimFloat.div
                  (support (Entry ["A"; "B"] 0.6 {[0; 1; 4]}%nat))
                  (support eA)).
Proof.
  assert (sublist ["A"%string]
            (itemset (Entry ["A"; "B"] 0.6 {[0; 1; 4]}%nat))) as Hsub
    by apply sublist_skip, sublist_cons, sublist_nil.
  assert (1 ≤ length ["A"%string]
          < length (itemset (Entry ["A"; "B"] 0.6 {[0; 1; 4]}%nat)))%nat
    as Hlen by (simpl; lia).
  assert (fit (configured 0.4 0.5) worked_example = Ok worked_run) as Hfit
    by (vm_compute; reflexivity).
  assert (Entry ["A"; "B"] 0.6 {[0; 1; 4]}%nat ∈ frequent_itemsets worked_run)
    as HeI by (apply (list_elem_of_lookup_2 _ 3%nat); vm_compute; reflexivity).
  split; [exact Hfit|]. split; [exact HeI|]. split; [exact Hsub|].
  split; [exact Hlen|].
  exact (X11_rules_complete 0.4 0.5 worked_example worked_run _ _
           Hfit HeI Hsub Hlen).
Defined.

(** ** The range of the recorded supports *)

Lemma quot_unit a n :
  0 ≤ a ≤ n → 0 < n < 2 ^ 53 → unit_interval (quot a n).
Proof.
  intros Ha Hn. unfold unit_interval. rewrite !leb_spec.
  destruct (Z.eq_dec a 0) as [->|Hne].
  { by rewrite (quot_zero n Hn). }
  destruct (quot_pos a n) as (m & e & k & HS & _ & _ & Hmag & Hval); [lia..|].
  split; [by rewrite HS|].
  apply IEEE.SFleb_values; [apply Prim2SF_valid.. | by rewrite HS | done |].
  fold (value (quot a n)). rewrite Hval.
  assert (IEEE.mag_of 1 1) as Hmag1 by (split; by vm_compute).
  apply Qle_trans with (IEEE.rnd 1 1); [|by vm_compute].
  apply IEEE.rnd_mono; [|done..].
  apply (count_fraction_bounds a n); lia.
Qed.

(** X12: in a run on a fresh object over fewer than 2^53 transactions the
    support recorded for an entry is a float between 0.0 and 1.0, and it is
    0.0 exactly when no transaction contains all items of the entry. *)
Theorem X12_support_range ms mc txs s e :
  mine (configured ms mc) txs = Ok s ∨ fit (configured ms mc) txs = Ok s →
  Z.of_nat (length txs) < 2 ^ 53 → e ∈ frequent_itemsets s →
  PrimFloat.leb 0 (support e) = true ∧ PrimFloat.leb (support e) 1 = true ∧
  (PrimFloat.eqb (support e) 0 = true ↔ support_count txs (content e) = 0%nat).
Proof.
  intros (s1 & Hmine & ->)%run_itemsets Hn He.
  destruct (mine_sound _ _ _ _ Hmine) as (k & Hk & Hok).
  destruct (entry_support_quot _ _ _ (Hok e He)) as [HN ->].
  pose proof (support_count_le txs (content e)) as Hle.
  destruct (quot_unit (Z.of_nat (support_count txs (content e)))
              (Z.of_nat (length txs))) as [H0 H1]; [lia..|].
  split; [done|]. split; [done|]. split.
  - intros Hz.
    destruct (decide (support_count txs (content e) = 0%nat)) as [|Hne];
      [done|].
    destruct (quot_pos (Z.of_nat (support_count txs (content e)))
                (Z.of_nat (length txs))) as (m & ex & ? & HS & _); [lia..|].
    by rewrite FloatAxioms.eqb_spec, HS in Hz.
  - intros ->. apply quot_zero_eqb. lia.
Qed.

Lemma X12_support_range_witness :
  (mine (configured 0.4 0.5) worked_example = Ok worked_run ∨
   fit (configured 0.4 0.5) worked_example = Ok worked_run) ∧
  Z.of_nat (length worked_example) < 2 ^ 53 ∧
  Entry ["A"; "B"] 0.6 {[0; 1; 4]}%nat ∈ frequent_itemsets worked_run ∧
  PrimFloat.leb 0 (support (Entry ["A"; "B"] 0.6 {[0; 1; 4]}%nat)) = true ∧
  PrimFloat.leb (support (Entry ["A"; "B"] 0.6 {[0; 1; 4]}%nat)) 1 = true ∧
  (PrimFloat.eqb (support (Entry ["A"; "B"] 0.6 {[0; 1; 4]}%nat)) 0 = true
   ↔ support_count worked_example
       (content (Entry ["A"; "B"] 0.6 {[0; 1; 4]}%nat)) = 0%nat).
Proof.
  assert (Z.of_nat (length worked_example) < 2 ^ 53) as Hn by (simpl; lia).
  assert (fit (configured 0.4 0.5) worked_example = Ok worked_run) as Hfit
    by (vm_compute; reflexivity).
  assert (Entry ["A"; "B"] 0.6 {[0; 1; 4]}%nat ∈ frequent_itemsets worked_run)
    as He by (apply (list_elem_of_lookup_2 _ 3%nat); vm_compute; reflexivity).
  split; [right; exact Hfit|]. split; [exact Hn|]. split; [exact He|].
  exact (X12_support_range 0.4 0.5 worked_example worked_run _
           (or_intror Hfit) Hn He).
Defined.

(** * The recommendation service ([frontend-api/app.py])

    [RecommendationEngine] reads the rules that the training job pickled
    (the dictionary of [get_results]) and ranks the consequents of the
    rules whose antecedent is covered by the input songs.

    [str.lower] and [str.strip] act on Unicode text; they are parameters
    of the model, and what is proved holds whatever they compute. The
    dictionary [candidates] is an association list in insertion order. *)

Section Engine.

Variable lower strip : string → string.

(** [full_string.split(',')[0]]: the text before the first comma. *)
Fixpoint before_comma (s : string) : string :=
  match s with
  | EmptyString => EmptyString
  | String c s' =>
      if Ascii.eqb c ","%char then EmptyString else String c (before_comma s')
  end.

Definition _extract_song_name (full_string : string) : string :=
  strip (before_comma full_string).

(** [s.lower().strip()]. *)
Definition normalized (s : string) : string := strip (lower s).

Definition _matches_input (antecedent : list string)
  (input_normalized : list string) : bool :=
  forallb
    (fun item =>
       bool_decide (normalized (_extract_song_name item) ∈ input_normalized))
    antecedent.

Definition _is_in_input (song_name : string) (input_normalized : list string)
  : bool :=
  bool_decide (normalized song_name ∈ input_normalized).

(** [max(a, b)] on floats: [b] only when [b > a]. *)
Definition float_max (a b : float) : float :=
  if PrimFloat.ltb a b then b else a.

(** The update of [candidates] for one song: the larger score is kept
    under an existing key, a new key goes to the end. *)
Fixpoint cand_put (song : string) (score : float)
  (candidates : list (string * float)) : list (string * float) :=
  match candidates with
  | [] => [(song, score)]
  | (k, v) :: cs =>
      if String.eqb k song then (k, float_max v score) :: cs
      else (k, v) :: cand_put song score cs
  end.

(** The body of the loop over the rules. *)
Definition add_rule (input_normalized : list string)
  (candidates : list (string * float)) (r : rule) : list (string * float) :=
  if _matches_input (antecedent r) input_normalized then
    let score := PrimFloat.mul (confidence r) (lift r) in
    foldl
      (fun cs c =>
         let song_name := _extract_song_name c in
         if _is_in_input song_name input_normalized then cs
         else cand_put song_name score cs)
      candidates (consequent r)
  else candidates.

Definition candidates_of (rs : list rule) (input_normalized : list string)
  : list (string * float) :=
  foldl (add_rule input_normalized) [] rs.

(** [sorted(items, key=lambda x: x[1], reverse=True)]: descending by score,
    items of equal score in their original order. Python's sort is stable
    and compares the keys with [<] only, so for scores without [nan] this
    is the list it returns. *)
Fixpoint insert_desc (x : string * float) (l : list (string * float))
  : list (string * float) :=
  match l with
  | [] => [x]
  | y :: l' =>
      if PrimFloat.ltb x.2 y.2 then y :: insert_desc x l' else x :: y :: l'
  end.

Definition sorted_desc (l : list (string * float)) : list (string * float) :=
  foldr insert_desc [] l.

(** [l[:n]] for an int [n]: a negative [n] counts from the end. *)
Definition slice_to {A : Type} (l : list A) (n : Z) : list A :=
  if Z.leb 0 n then take (Z.to_nat n) l
  else take (length l - Z.to_nat (- n)) l.

Definition recommend (rs : list rule) (input_songs : list string) (top_n : Z)
  : list string :=
  let input_normalized := map normalized input_songs in
  let ranked := sorted_desc (candidates_of rs input_normalized) in
  map fst (slice_to ranked top_n).

(** A rule offers a song for an input when its antecedent matches and the
    song names one of its consequents and is not in the input. *)
Definition offers (inp : list string) (r : rule) (song : string) : Prop :=
  _matches_input (antecedent r) inp = true ∧
  ∃ c, c ∈ consequent r ∧ song = _extract_song_name c ∧
       _is_in_input song inp = false.

Lemma cand_put_keys song score cs k :
  k ∈ (cand_put song score cs).*1 ↔ k = song ∨ k ∈ cs.*1.
Proof using Type.
  clear lower strip.
  induction cs as [|[k' v] cs IH]; cbn [cand_put fmap list_fmap fst].
  - rewrite list_elem_of_singleton. set_solver.
  - destruct (String.eqb_spec k' song) as [->|Hne];
      cbn [fmap list_fmap fst]; rewrite !elem_of_cons; [tauto|].
    rewrite IH. tauto.
Qed.

Lemma cand_put_NoDup song score cs :
  NoDup cs.*1 → NoDup (cand_put song score cs).*1.
Proof using Type.
  clear lower strip.
  induction cs as [|[k' v] cs IH]; cbn [cand_put fmap list_fmap fst].
  - intros _. apply NoDup_singleton.
  - rewrite NoDup_cons. intros [Hk Hnd].
    destruct (String.eqb_spec k' song) as [->|Hne];
      cbn [fmap list_fmap fst]; rewrite NoDup_cons; [done|].
    split; [|by apply IH]. rewrite cand_put_keys. intros [-> | ?]; done.
Qed.

Lemma add_rule_keys inp cs r k :
  k ∈ (add_rule inp cs r).*1 ↔ k ∈ cs.*1 ∨ offers inp r k.
Proof.
  unfold add_rule, offers.
  destruct (_matches_input (antecedent r) inp); [|by intuition].
  generalize (PrimFloat.mul (confidence r) (lift r)). intros score.
  revert cs. induction (consequent r) as [|c l IH]; intros cs; cbn [foldl].
  - split; [by left|]. intros [? | (_ & c & ?%elem_of_nil & _)]; done.
  - rewrite IH. split.
    + intros [Hk | (_ & c' & Hc' & Hs & Hin)].
      * destruct (_is_in_input (_extract_song_name c) inp) eqn:Hin; [by left|].
        apply cand_put_keys in Hk as [-> | Hk]; [|by left].
        right. split; [done|]. exists c. split; [left | done].
      * right. split; [done|]. exists c'. split; [by right | done].
    + intros [Hk | (_ & c' & [-> | Hc']%elem_of_cons & Hs & Hin)].
      * left. destruct (_is_in_input (_extract_song_name c) inp); [done|].
        apply cand_put_keys. by right.
      * left. subst k. rewrite Hin. apply cand_put_keys. by left.
      * right. split; [done|]. by exists c'.
Qed.

Lemma add_rule_NoDup inp cs r : NoDup cs.*1 → NoDup (add_rule inp cs r).*1.
Proof.
  unfold add_rule. destruct (_matches_input (antecedent r) inp); [|done].
  generalize (PrimFloat.mul (confidence r) (lift r)). intros score.
  revert cs. induction (consequent r) as [|c l IH]; intros cs Hnd; [done|].
  cbn [foldl]. apply IH.
  destruct (_is_in_input (_extract_song_name c) inp); [done|].
  by apply cand_put_NoDup.
Qed.

Lemma candidates_keys rs inp k :
  k ∈ (candidates_of rs inp).*1 ↔ ∃ r, r ∈ rs ∧ offers inp r k.
Proof.
  unfold candidates_of.
  assert (∀ cs, k ∈ (foldl (add_rule inp) cs rs).*1
                ↔ k ∈ cs.*1 ∨ ∃ r, r ∈ rs ∧ offers inp r k) as H.
  { induction rs as [|r rs IH]; intros cs; cbn [foldl].
    - split; [by left|]. intros [? | (? & ?%elem_of_nil & _)]; done.
    - rewrite IH, add_rule_keys. split.
      + intros [[? | ?] | (r' & ? & ?)]; [by left | right | right].
        * exists r. split; [left | done].
        * exists r'. split; [by right | done].
      + intros [? | (r' & [-> | ?]%elem_of_cons & ?)];
          [by left; left | by left; right | right; by exists r']. }
  rewrite H. cbn. split; [|by right].
  intros [?%elem_of_nil | ?]; done.
Qed.

Lemma candidates_NoDup rs inp : NoDup (candidates_of rs inp).*1.
Proof.
  unfold candidates_of.
  assert (∀ cs, NoDup cs.*1 → NoDup (foldl (add_rule inp) cs rs).*1) as H.
  { induction rs as [|r rs IH]; intros cs Hnd; cbn [foldl]; [done|].
    by apply IH, add_rule_NoDup. }
  apply H. constructor.
Qed.

Lemma insert_desc_Permutation x l : insert_desc x l ≡ₚ x :: l.
Proof using Type.
  clear lower strip.
  induction l as [|y l IH]; cbn [insert_desc]; [done|].
  destruct (PrimFloat.ltb x.2 y.2); [|done].
  rewrite IH. apply Permutation_swap.
Qed.

Lemma sorted_desc_Permutation l : sorted_desc l ≡ₚ l.
Proof using Type.
  clear lower strip.
  induction l as [|x l IH]; cbn [sorted_desc foldr]; [done|].
  rewrite insert_desc_Permutation. by constructor.
Qed.

Lemma slice_to_sublist {A : Type} (l : list A) n : sublist (slice_to l n) l.
Proof using Type.
  clear lower strip.
  unfold slice_to. destruct (Z.leb 0 n); apply sublist_take.
Qed.

Lemma recommend_sublist rs songs n :
  ∃ ranked, ranked ≡ₚ (candidates_of rs (map normalized songs)).*1 ∧
            sublist (recommend rs songs n) ranked.
Proof.
  exists (sorted_desc (candidates_of rs (map normalized songs))).*1.
  split; [by rewrite sorted_desc_Permutation|].
  unfold recommend. apply fmap_sublist, slice_to_sublist.
Qed.

Lemma recommend_offers rs songs n song :
  song ∈ recommend rs songs n →
  ∃ r, r ∈ rs ∧ offers (map normalized songs) r song.
Proof.
  destruct (recommend_sublist rs songs n) as (ranked & Hperm & Hsub).
  intros Hin. apply candidates_keys. rewrite <- Hperm.
  by eapply elem_of_sublist.
Qed.

End Engine.

(** [str.lower] and [str.strip] on ASCII text, to run the engine on
    examples. *)
Definition lower_ascii_char (c : ascii) : ascii :=
  let n := nat_of_ascii c in
  if ((65 <=? n) && (n <=? 90))%nat then ascii_of_nat (n + 32) else c.

Fixpoint lower_ascii (s : string) : string :=
  match s with
  | EmptyString => EmptyString
  | String c s' => String (lower_ascii_char c) (lower_ascii s')
  end.

Definition is_space (c : ascii) : bool :=
  let n := nat_of_ascii c in
  (((9 <=? n) && (n <=? 13)) || ((28 <=? n) && (n <=? 32)))%nat.

Fixpoint lstrip_ascii (l : list ascii) : list ascii :=
  match l with
  | c :: l' => if is_space c then lstrip_ascii l' else l
  | [] => []
  end.

Definition strip_ascii (s : string) : string :=
  String.string_of_list_ascii
    (rev (lstrip_ascii (rev (lstrip_ascii (String.list_ascii_of_string s))))).

(** ** What [recommend] returns *)

Lemma matches_input_spec lower strip ante inp :
  _matches_input lower strip ante inp = true ↔
  ∀ item, item ∈ ante →
          normalized lower strip (_extract_song_name strip item) ∈ inp.
Proof.
  unfold _matches_input. rewrite forallb_forall. split.
  - intros H item Hin. apply list_elem_of_In in Hin.
    by apply H, bool_decide_eq_true in Hin.
  - intros H item Hin. apply list_elem_of_In in Hin.
    by apply bool_decide_eq_true, H.
Qed.

Lemma offers_spec lower strip inp r song :
  offers lower strip inp r song ↔
  (∀ item, item ∈ antecedent r →
           normalized lower strip (_extract_song_name strip item) ∈ inp) ∧
  ∃ c, c ∈ consequent r ∧ song = _extract_song_name strip c ∧
       normalized lower strip song ∉ inp.
Proof.
  unfold offers, _is_in_input. rewrite matches_input_spec.
  by setoid_rewrite bool_decide_eq_false.
Qed.

(** X13: every song returned by [recommend] is the song name of a
    consequent of a rule all of whose antecedent songs are, after
    normalisation, among the normalised input songs; the returned song
    itself is, after normalisation, not among them. *)
Theorem X13_recommend_sound lower strip rs songs n song :
  song ∈ recommend lower strip rs songs n →
  ∃ r c,
    r ∈ rs ∧
    (∀ item, item ∈ antecedent r →
       normalized lower strip (_extract_song_name strip item)
       ∈ map (normalized lower strip) songs) ∧
    c ∈ consequent r ∧ song = _extract_song_name strip c ∧
    normalized lower strip song ∉ map (normalized lower strip) songs.
Proof.
  intros (r & Hr & (Hall & c & Hc & Hs & Hn)%offers_spec)%recommend_offers.
  by exists r, c.
Qed.

(** X14: [recommend] returns no song twice, and for a non-negative
    [top_n] it returns at most [top_n] songs. *)
Theorem X14_recommend_size lower strip rs songs n :
  NoDup (recommend lower strip rs songs n) ∧
  (0 ≤ n → Z.of_nat (length (recommend lower strip rs songs n)) ≤ n).
Proof.
  split.
  - destruct (recommend_sublist lower strip rs songs n) as (ranked & Hp & Hs).
    apply (sublist_NoDup _ ranked); [|exact Hs].
    rewrite Hp. apply candidates_NoDup.
  - intros Hn. unfold recommend, slice_to.
    destruct (Z.leb_spec 0 n) as [_|]; [|lia].
    rewrite length_map, length_take. lia.
Qed.

(** X15: when [recommend] returns fewer than [top_n] songs nothing was
    cut off: every song name of a consequent of a matching rule that is not
    among the input songs is returned. *)
Theorem X15_recommend_complete lower strip rs songs n r c :
  Z.of_nat (length (recommend lower strip rs songs n)) < n →
  r ∈ rs →
  (∀ item, item ∈ antecedent r →
     normalized lower strip (_extract_song_name strip item)
     ∈ map (normalized lower strip) songs) →
  c ∈ consequent r →
  normalized lower strip (_extract_song_name strip c)
  ∉ map (normalized lower strip) songs →
  _extract_song_name strip c ∈ recommend lower strip rs songs n.
Proof.
  intros Hlen Hr Hall Hc Hn.
  assert (_extract_song_name strip c
          ∈ (candidates_of lower strip rs (map (normalized lower strip) songs)).*1)
    as Hin.
  { apply candidates_keys. exists r. split; [done|].
    apply offers_spec. split; [done|]. by exists c. }
  unfold recommend, slice_to in *.
  destruct (Z.leb_spec 0 n) as [Hpos|]; [|lia].
  rewrite length_map, length_take in Hlen.
  rewrite take_ge by lia.
  by rewrite (sorted_desc_Permutation _).
Qed.

Lemma X13_recommend_sound_witness :
  "B"%string
  ∈ recommend lower_ascii strip_ascii (rules worked_run) [" a"]%string 5 ∧
  ∃ r c,
    r ∈ rules worked_run ∧
    (∀ item, item ∈ antecedent r →
       normalized lower_ascii strip_ascii
         (_extract_song_name strip_ascii item)
       ∈ map (normalized lower_ascii strip_ascii) [" a"]%string) ∧
    c ∈ consequent r ∧ "B"%string = _extract_song_name strip_ascii c ∧
    normalized lower_ascii strip_ascii "B"
    ∉ map (normalized lower_ascii strip_ascii) [" a"]%string.
Proof.
  assert ("B"%string
          ∈ recommend lower_ascii strip_ascii (rules worked_run)
              [" a"]%string 5) as H.
  { replace (recommend lower_ascii strip_ascii (rules worked_run)
               [" a"]%string 5) with ["B"; "C"]%string
      by (vm_compute; reflexivity).
    left. }
  split; [exact H|].
  exact (X13_recommend_sound lower_ascii strip_ascii (rules worked_run)
           [" a"]%string 5 "B" H).
Defined.

Lemma X15_recommend_complete_witness :
  Z.of_nat (length (recommend lower_ascii strip_ascii (rules worked_run)
                      [" a"]%string 5)) < 5 ∧
  worked_rule ∈ rules worked_run ∧
  (∀ item, item ∈ antecedent worked_rule →
     normalized lower_ascii strip_ascii (_extract_song_name strip_ascii item)
     ∈ map (normalized lower_ascii strip_ascii) [" a"]%string) ∧
  "B"%string ∈ consequent worked_rule ∧
  normalized lower_ascii strip_ascii (_extract_song_name strip_ascii "B")
  ∉ map (normalized lower_ascii strip_ascii) [" a"]%string ∧
  _extract_song_name strip_ascii "B"
  ∈ recommend lower_ascii strip_ascii (rules worked_run) [" a"]%string 5.
Proof.
  assert (Z.of_nat (length (recommend lower_ascii strip_ascii
                              (rules worked_run) [" a"]%string 5)) < 5)
    as Hlen by (vm_compute; reflexivity).
  assert (∀ item, item ∈ antecedent worked_rule →
            normalized lower_ascii strip_ascii
              (_extract_song_name strip_ascii item)
            ∈ map (normalized lower_ascii strip_ascii) [" a"]%string)
    as Hall.
  { intros item ->%list_elem_of_singleton. vm_compute. left. }
  assert ("B"%string ∈ consequent worked_rule) as Hc by left.
  assert (normalized lower_ascii strip_ascii
            (_extract_song_name strip_ascii "B")
          ∉ map (normalized lower_ascii strip_ascii) [" a"]%string) as Hn.
  { vm_compute. intros Hin%list_elem_of_singleton. discriminate Hin. }
  assert (worked_rule ∈ rules worked_run) as Hr by left.
  split; [exact Hlen|]. split; [exact Hr|]. split; [exact Hall|].
  split; [exact Hc|]. split; [exact Hn|].
  exact (X15_recommend_complete lower_ascii strip_ascii (rules worked_run)
           [" a"]%string 5 worked_rule "B" Hlen Hr Hall Hc Hn).
Defined.

(** ** The engine on a model written by the training job *)

Lemma candidates_nil lower strip rs inp :
  (∀ r, r ∈ rs → ¬ ∃ song, offers lower strip inp r song) →
  candidates_of lower strip rs inp = [].
Proof.
  intros H. destruct (candidates_of lower strip rs inp) as [|[k v] l] eqn:Hc;
    [done|].
  assert (k ∈ (candidates_of lower strip rs inp).*1) as Hk
    by (rewrite Hc; left).
  apply candidates_keys in Hk as (r & Hr & Ho). destruct (H r Hr). eauto.
Qed.

(** X16: on the rules of a successful [fit] on a fresh object, [recommend]
    with an empty list of input songs returns no song, whatever [top_n]:
    every rule has a non-empty antecedent, which an empty input cannot
    cover. *)
Theorem X16_recommend_empty_input lower strip ms mc txs s n :
  fit (configured ms mc) txs = Ok s →
  recommend lower strip (res_rules (get_results s)) [] n = [].
Proof.
  intros Hfit. unfold recommend. cbn [map get_results res_rules].
  rewrite candidates_nil.
  { cbn [sorted_desc foldr]. unfold slice_to.
    destruct (Z.leb 0 n); by rewrite take_nil. }
  intros r Hr (song & Hm & _).
  destruct (fit_rule_inv _ _ _ _ _ Hfit Hr)
    as (k & fs & fa & _ & _ & _ & _ & _ & _ & _ & Hlen & _).
  destruct (antecedent r) as [|a l]; [simpl in Hlen; lia|].
  pose proof (proj1 (matches_input_spec _ _ _ _) Hm a) as Ha.
  apply (elem_of_nil (normalized lower strip (_extract_song_name strip a))).
  apply Ha. left.
Qed.

Lemma X16_recommend_empty_input_witness :
  fit (configured 0.4 0.5) worked_example = Ok worked_run ∧
  recommend lower_ascii strip_ascii (res_rules (get_results worked_run)) [] 5
  = [].
Proof.
  assert (fit (configured 0.4 0.5) worked_example = Ok worked_run) as Hfit
    by (vm_compute; reflexivity).
  split; [exact Hfit|].
  exact (X16_recommend_empty_input lower_ascii strip_ascii 0.4 0.5
           worked_example worked_run 5 Hfit).
Defined.

(** X17: every song that [recommend] returns from the rules of a
    successful [fit] is the song name of an item that occurs in the
    training transactions, and is, after normalisation, not among the
    normalised input songs. *)
Theorem X17_recommend_from_data lower strip ms mc txs s songs n song :
  fit (configured ms mc) txs = Ok s →
  song ∈ recommend lower strip (res_rules (get_results s)) songs n →
  ∃ item, observed txs item ∧ song = _extract_song_name strip item ∧
          normalized lower strip song ∉ map (normalized lower strip) songs.
Proof.
  intros Hfit Hsong. cbn [get_results res_rules] in Hsong.
  apply recommend_offers in Hsong as (r & Hr & Ho).
  apply offers_spec in Ho as (_ & c & Hc & Hs & Hn).
  destruct (fit_rule_inv _ _ _ _ _ Hfit Hr)
    as (k & fs & fa & _ & _ & Hok & _ & _ & _ & _ & _ & Hcons & _).
  exists c. split; [|done].
  rewrite Hcons in Hc. apply list_elem_of_filter in Hc as [_ Hc].
  by apply (ok_observed _ _ _ Hok).
Qed.

Lemma X17_recommend_from_data_witness :
  fit (configured 0.4 0.5) worked_example = Ok worked_run ∧
  "B"%string
  ∈ recommend lower_ascii strip_ascii (res_rules (get_results worked_run))
      [" a"]%string 5 ∧
  ∃ item, observed worked_example item ∧
          "B"%string = _extract_song_name strip_ascii item ∧
          normalized lower_ascii strip_ascii "B"
          ∉ map (normalized lower_ascii strip_ascii) [" a"]%string.
Proof.
  assert ("B"%string
          ∈ recommend lower_ascii strip_ascii
              (res_rules (get_results worked_run)) [" a"]%string 5) as H.
  { replace (recommend lower_ascii strip_ascii
               (res_rules (get_results worked_run)) [" a"]%string 5)
      with ["B"; "C"]%string by (vm_compute; reflexivity).
    left. }
  assert (fit (configured 0.4 0.5) worked_example = Ok worked_run) as Hfit
    by (vm_compute; reflexivity).
  split; [exact Hfit|]. split; [exact H|].
  exact (X17_recommend_from_data lower_ascii strip_ascii 0.4 0.5
           worked_example worked_run [" a"]%string 5 "B" Hfit H).
Defined.

(** ** The order of the recommendations *)

Ltac compare_cases :=
  repeat match goal with
    | H : context [Z.compare ?a ?b] |- _ => destruct (Z.compare_spec a b)
    | |- context [Z.compare ?a ?b] => destruct (Z.compare_spec a b)
    | H : context [Pos.compare ?a ?b] |- _ => destruct (Pos.compare_spec a b)
    | |- context [Pos.compare ?a ?b] => destruct (Pos.compare_spec a b)
    end.

Lemma SFltb_asym x y : SFltb x y = true → SFltb y x = false.
Proof.
  unfold SFltb, SFcompare.
  destruct x as [[]|[]| |[] m1 e1], y as [[]|[]| |[] m2 e2]; try done;
    rewrite !Pos.compare_cont_spec; cbn [Pos.switch_Eq];
    compare_cases; cbn [CompOpp]; try done; lia.
Qed.

Lemma SFltb_false_trans x y z :
  y ≠ S754_nan → SFltb x y = false → SFltb y z = false → SFltb x z = false.
Proof.
  unfold SFltb, SFcompare. intros Hy.
  destruct x as [[]|[]| |[] m1 e1], y as [[]|[]| |[] m2 e2],
    z as [[]|[]| |[] m3 e3]; try done;
    rewrite !Pos.compare_cont_spec; cbn [Pos.switch_Eq];
    compare_cases; cbn [CompOpp]; try done; lia.
Qed.

Lemma is_nan_SF x : PrimFloat.is_nan x = false → Prim2SF x ≠ S754_nan.
Proof.
  unfold PrimFloat.is_nan. rewrite FloatAxioms.eqb_spec. intros H Hn.
  rewrite Hn in H. discriminate H.
Qed.

Lemma ltb_asym x y : PrimFloat.ltb x y = true → PrimFloat.ltb y x = false.
Proof. rewrite !ltb_spec. apply SFltb_asym. Qed.

Lemma ltb_false_trans x y z :
  PrimFloat.is_nan y = false →
  PrimFloat.ltb x y = false → PrimFloat.ltb y z = false →
  PrimFloat.ltb x z = false.
Proof.
  rewrite !ltb_spec. intros Hy%is_nan_SF. by apply SFltb_false_trans.
Qed.

Lemma float_max_cases a b :
  (float_max a b = a ∧ PrimFloat.ltb a b = false) ∨
  (float_max a b = b ∧ PrimFloat.ltb a b = true).
Proof. unfold float_max. destruct (PrimFloat.ltb a b); auto. Qed.

(** The score of a rule. *)
Definition score (r : rule) : float := PrimFloat.mul (confidence r) (lift r).

(** The puts that [recommend] performs on [candidates], in order: for each
    matching rule, each consequent song that is not in the input, with the
    score of the rule. *)
Definition puts_of_rule (lower strip : string → string) (inp : list string)
  (r : rule) : list (string * float) :=
  if _matches_input lower strip (antecedent r) inp then
    map (fun c => (_extract_song_name strip c, score r))
      (filter
         (fun c => _is_in_input lower strip (_extract_song_name strip c) inp
                   = false)
         (consequent r))
  else [].

Definition put_all (cs : list (string * float)) (puts : list (string * float))
  : list (string * float) :=
  foldl (fun cs kv => cand_put kv.1 kv.2 cs) cs puts.

(** The value kept under a key is one of the scores put under it, and no
    score put under it is greater. *)
Definition best_of (puts : list (string * float)) (kv : string * float)
  : Prop :=
  kv ∈ puts ∧ ∀ x, (kv.1, x) ∈ puts → PrimFloat.ltb kv.2 x = false.

(** Descending order of the scores. *)
Definition score_ge (a b : string * float) : Prop :=
  PrimFloat.ltb a.2 b.2 = false.

Lemma add_rule_puts lower strip inp cs r :
  add_rule lower strip inp cs r = put_all cs (puts_of_rule lower strip inp r).
Proof.
  unfold add_rule, puts_of_rule, put_all. fold (score r).
  destruct (_matches_input lower strip (antecedent r) inp); [|done].
  revert cs. induction (consequent r) as [|c l IH]; intros cs; [done|].
  cbn [foldl]. rewrite filter_cons.
  destruct (decide (_is_in_input lower strip (_extract_song_name strip c) inp
                    = false)) as [Hf|Ht].
  - rewrite Hf. cbn [map foldl fst snd]. apply IH.
  - apply not_false_is_true in Ht. rewrite Ht. apply IH.
Qed.

Lemma candidates_puts lower strip rs inp :
  candidates_of lower strip rs inp
  = put_all [] (concat (map (puts_of_rule lower strip inp) rs)).
Proof.
  unfold candidates_of. generalize (@nil (string * float)).
  induction rs as [|r rs IH]; intros cs; [done|].
  cbn [foldl map concat]. unfold put_all in *.
  by rewrite foldl_app, IH, add_rule_puts.
Qed.

Lemma elem_of_concat {A : Type} (x : A) (ls : list (list A)) :
  x ∈ concat ls ↔ ∃ l, x ∈ l ∧ l ∈ ls.
Proof.
  induction ls as [|l ls IH]; cbn [concat].
  - split; [by intros ?%elem_of_nil|]. by intros (? & _ & ?%elem_of_nil).
  - rewrite elem_of_app, IH. split.
    + intros [? | (l' & ? & ?)]; [exists l | exists l'];
        (split; [done|]); [left | by right].
    + intros (l' & ? & [-> | ?]%elem_of_cons); [by left | right; by exists l'].
Qed.

Lemma elem_of_puts lower strip rs inp song x :
  (song, x) ∈ concat (map (puts_of_rule lower strip inp) rs) ↔
  ∃ r, r ∈ rs ∧ offers lower strip inp r song ∧ x = score r.
Proof.
  rewrite elem_of_concat. split.
  - intros (l & Hin & (r & -> & Hr)%list_elem_of_fmap).
    exists r. split; [done|]. unfold puts_of_rule, offers in *.
    destruct (_matches_input lower strip (antecedent r) inp);
      [|by apply elem_of_nil in Hin].
    apply list_elem_of_fmap in Hin
      as (c & [= -> ->] & [Hf Hc]%list_elem_of_filter).
    split; [|done]. split; [done|]. by exists c.
  - intros (r & Hr & (Hm & c & Hc & -> & Hf) & ->).
    exists (puts_of_rule lower strip inp r).
    split; [|apply list_elem_of_fmap; by exists r].
    unfold puts_of_rule. rewrite Hm. apply list_elem_of_fmap. exists c.
    split; [done|]. by apply list_elem_of_filter.
Qed.

Lemma ltb_irrefl x : PrimFloat.ltb x x = false.
Proof.
  destruct (PrimFloat.ltb x x) eqn:H; [|done].
  pose proof (ltb_asym _ _ H). congruence.
Qed.

Lemma cand_put_elem song v cs kv :
  NoDup cs.*1 → kv ∈ cand_put song v cs →
  (kv ∈ cs ∧ kv.1 ≠ song) ∨
  (kv = (song, v) ∧ song ∉ cs.*1) ∨
  (∃ v0, (song, v0) ∈ cs ∧ kv = (song, float_max v0 v)).
Proof.
  induction cs as [|[k v0] cs IH]; cbn [cand_put fmap list_fmap fst].
  - intros _ ->%list_elem_of_singleton. right. left.
    split; [done|]. by intros ?%elem_of_nil.
  - intros [Hk Hnd]%NoDup_cons.
    destruct (String.eqb_spec k song) as [->|Hne].
    + intros [-> | Hin]%elem_of_cons.
      * right. right. exists v0. split; [left | done].
      * left. split; [by right|]. intros Heq. apply Hk.
        rewrite <- Heq. apply list_elem_of_fmap. by exists kv.
    + intros [-> | Hin]%elem_of_cons; [left; split; [left | done]|].
      destruct (IH Hnd Hin) as [[? ?] | [[-> Hs] | (v1 & ? & ->)]].
      * left. split; [by right | done].
      * right. left. split; [done|]. rewrite elem_of_cons.
        intros [? | ?]; [congruence | done].
      * right. right. exists v1. split; [by right | done].
Qed.

Lemma cand_put_best puts cs song v :
  (∀ kv, kv ∈ puts → PrimFloat.is_nan kv.2 = false) →
  NoDup cs.*1 → (∀ kv, kv ∈ puts → kv.1 ∈ cs.*1) →
  (∀ kv, kv ∈ cs → best_of puts kv) →
  ∀ kv, kv ∈ cand_put song v cs → best_of (puts ++ [(song, v)]) kv.
Proof.
  intros Hnan Hnd Hkeys Hbest kv Hin.
  destruct (cand_put_elem _ _ _ _ Hnd Hin)
    as [[Hcs Hne] | [[-> Hnew] | (v0 & Hcs & ->)]].
  - destruct (Hbest kv Hcs) as [Hp Hmax].
    split; [apply elem_of_app; by left|].
    intros x [Hx | [= Heq _]%list_elem_of_singleton]%elem_of_app;
      [by apply Hmax | done].
  - split; [apply elem_of_app; right; left|]. cbn [fst snd].
    intros x [Hx | [= ->]%list_elem_of_singleton]%elem_of_app;
      [|apply ltb_irrefl].
    destruct Hnew. apply (Hkeys _ Hx).
  - destruct (Hbest _ Hcs) as [Hp Hmax]. cbn [fst snd] in Hmax.
    destruct (float_max_cases v0 v) as [[-> Hlt] | [-> Hlt]].
    + split; [apply elem_of_app; by left|]. cbn [fst snd].
      intros x [Hx | [= ->]%list_elem_of_singleton]%elem_of_app;
        [by apply Hmax | done].
    + split; [apply elem_of_app; right; left|]. cbn [fst snd].
      intros x [Hx | [= ->]%list_elem_of_singleton]%elem_of_app;
        [|apply ltb_irrefl].
      apply (ltb_false_trans v v0 x); [apply (Hnan _ Hp) | |by apply Hmax].
      by apply ltb_asym.
Qed.

Lemma put_all_best new : ∀ puts cs,
  (∀ kv, kv ∈ puts ++ new → PrimFloat.is_nan kv.2 = false) →
  NoDup cs.*1 → (∀ kv, kv ∈ puts → kv.1 ∈ cs.*1) →
  (∀ kv, kv ∈ cs → best_of puts kv) →
  ∀ kv, kv ∈ put_all cs new → best_of (puts ++ new) kv.
Proof.
  induction new as [|[k v] new IH]; intros puts cs Hnan Hnd Hkeys Hbest kv.
  - rewrite (right_id_L [] (++)). apply Hbest.
  - cbn [put_all foldl fst snd]. fold (put_all (cand_put k v cs) new).
    replace (puts ++ (k, v) :: new) with ((puts ++ [(k, v)]) ++ new)
      by by rewrite <- (assoc_L (++)).
    apply IH.
    + intros kv' Hin. apply Hnan. by rewrite <- (assoc_L (++)) in Hin.
    + by apply cand_put_NoDup.
    + intros kv' [Hin | ->%list_elem_of_singleton]%elem_of_app.
      * apply (proj2 (cand_put_keys k v cs kv'.1)). right. by apply Hkeys.
      * apply (proj2 (cand_put_keys k v cs k)). by left.
    + apply cand_put_best; try done.
      intros kv' Hin. apply Hnan, elem_of_app. by left.
Qed.

Lemma candidates_best lower strip rs inp kv :
  (∀ r, r ∈ rs → PrimFloat.is_nan (score r) = false) →
  kv ∈ candidates_of lower strip rs inp →
  PrimFloat.is_nan kv.2 = false ∧
  (∃ r, r ∈ rs ∧ offers lower strip inp r kv.1 ∧ kv.2 = score r) ∧
  ∀ r, r ∈ rs → offers lower strip inp r kv.1 →
       PrimFloat.ltb kv.2 (score r) = false.
Proof.
  intros Hnan. rewrite candidates_puts. intros Hin.
  apply (put_all_best _ []) in Hin as [Hp Hmax].
  - destruct kv as [song v]. cbn [fst snd] in *.
    pose proof (proj1 (elem_of_puts _ _ _ _ _ _) Hp) as (r & Hr & Ho & ->).
    split; [by apply Hnan|]. split; [by exists r|].
    intros r' Hr' Ho'. apply Hmax, elem_of_puts. by exists r'.
  - intros [song v] Hk. cbn [app] in Hk.
    apply elem_of_puts in Hk as (r & Hr & _ & ->). by apply Hnan.
  - constructor.
  - by intros ? ?%elem_of_nil.
  - by intros ? ?%elem_of_nil.
Qed.

Lemma insert_desc_sorted x l :
  (∀ y, y ∈ l → PrimFloat.is_nan y.2 = false) →
  StronglySorted score_ge l → StronglySorted score_ge (insert_desc x l).
Proof.
  intros Hnan Hs. induction Hs as [|y l Hs IH Hall]; cbn [insert_desc].
  - by repeat constructor.
  - destruct (PrimFloat.ltb x.2 y.2) eqn:Hlt.
    + constructor.
      * apply IH. intros z Hz. apply Hnan. by right.
      * rewrite insert_desc_Permutation. constructor; [|done].
        by apply ltb_asym.
    + constructor; [by constructor|]. constructor; [done|].
      apply Forall_forall. intros z Hz.
      apply (ltb_false_trans x.2 y.2 z.2); [apply Hnan; left | done |].
      by apply (proj1 (Forall_forall _ _) Hall).
Qed.

Lemma sorted_desc_sorted l :
  (∀ y, y ∈ l → PrimFloat.is_nan y.2 = false) →
  StronglySorted score_ge (sorted_desc l).
Proof.
  induction l as [|x l IH]; intros Hnan; cbn [sorted_desc foldr];
    [constructor|].
  apply insert_desc_sorted.
  - intros y Hy. apply Hnan. right.
    by rewrite <- (sorted_desc_Permutation l).
  - apply IH. intros y Hy. apply Hnan. by right.
Qed.

Lemma sorted_lookup_rel {A : Type} (R : A → A → Prop) l :
  StronglySorted R l →
  ∀ i j x y, (i < j)%nat → l !! i = Some x → l !! j = Some y → R x y.
Proof.
  induction 1 as [|a l Hs IH Hall]; intros i j x y Hij Hi Hj;
    [by rewrite lookup_nil in Hi|].
  destruct j as [|j]; [lia|]. cbn in Hj.
  destruct i as [|i].
  - injection Hi as <-. apply (proj1 (Forall_forall _ _) Hall).
    by eapply list_elem_of_lookup_2.
  - cbn in Hi. apply (IH i j); [lia | done | done].
Qed.

Lemma slice_to_lookup {A : Type} (l : list A) n i x :
  slice_to l n !! i = Some x → l !! i = Some x.
Proof.
  unfold slice_to. destruct (Z.leb 0 n); by intros [? _]%lookup_take_Some.
Qed.

(** X18: when no rule has a [nan] score ([confidence * lift]), the songs
    that [recommend] returns are ranked by their best rule: for a song
    returned before another one, some rule that offers it has a score that
    no rule offering the later song exceeds. *)
Theorem X18_recommend_ranked lower strip rs songs n i j si sj :
  (∀ r, r ∈ rs → PrimFloat.is_nan (score r) = false) →
  (i < j)%nat →
  recommend lower strip rs songs n !! i = Some si →
  recommend lower strip rs songs n !! j = Some sj →
  ∃ ri, ri ∈ rs ∧
        offers lower strip (map (normalized lower strip) songs) ri si ∧
        ∀ r, r ∈ rs →
             offers lower strip (map (normalized lower strip) songs) r sj →
             PrimFloat.ltb (score ri) (score r) = false.
Proof.
  intros Hnan Hij Hi Hj. unfold recommend in Hi, Hj.
  set (inp := map (normalized lower strip) songs) in *.
  set (cs := candidates_of lower strip rs inp) in *.
  change (map fst ?l) with (fst <$> l) in Hi, Hj.
  apply list_lookup_fmap_Some in Hi as ([si' vi] & -> & Hi).
  apply list_lookup_fmap_Some in Hj as ([sj' vj] & -> & Hj).
  apply slice_to_lookup in Hi, Hj. cbn [fst].
  assert (∀ kv, kv ∈ cs → PrimFloat.is_nan kv.2 = false) as Hcs.
  { intros kv Hkv. by apply (candidates_best lower strip rs inp kv Hnan). }
  pose proof (sorted_desc_sorted cs Hcs) as Hsorted.
  pose proof (sorted_lookup_rel _ _ Hsorted i j _ _ Hij Hi Hj) as Hge.
  unfold score_ge in Hge. cbn [snd] in Hge.
  apply list_elem_of_lookup_2 in Hi, Hj.
  rewrite (sorted_desc_Permutation cs) in Hi, Hj.
  destruct (candidates_best lower strip rs inp _ Hnan Hi)
    as (_ & (ri & Hri & Hoi & Hvi) & _).
  destruct (candidates_best lower strip rs inp _ Hnan Hj)
    as (Hnj & _ & Hmaxj).
  cbn [fst snd] in *. subst vi.
  exists ri. split; [done|]. split; [done|].
  intros r Hr Ho. apply (ltb_false_trans _ vj); [done | done |].
  by apply Hmaxj.
Qed.

Lemma X18_recommend_ranked_witness :
  (∀ r, r ∈ rules worked_run → PrimFloat.is_nan (score r) = false) ∧
  (0 < 1)%nat ∧
  recommend lower_ascii strip_ascii (rules worked_run) [" a"]%string 5
    !! 0%nat = Some "B"%string ∧
  recommend lower_ascii strip_ascii (rules worked_run) [" a"]%string 5
    !! 1%nat = Some "C"%string ∧
  ∃ ri, ri ∈ rules worked_run ∧
        offers lower_ascii strip_ascii
          (map (normalized lower_ascii strip_ascii) [" a"]%string) ri "B" ∧
        ∀ r, r ∈ rules worked_run →
             offers lower_ascii strip_ascii
               (map (normalized lower_ascii strip_ascii) [" a"]%string) r "C" →
             PrimFloat.ltb (score ri) (score r) = false.
Proof.
  assert (∀ r, r ∈ rules worked_run → PrimFloat.is_nan (score r) = false)
    as Hnan.
  { intros r Hr. unfold worked_run in Hr. cbn [rules] in Hr.
    repeat (apply elem_of_cons in Hr as [-> | Hr]; [by vm_compute|]).
    by apply elem_of_nil in Hr. }
  assert (0 < 1)%nat as Hij by lia.
  assert (recommend lower_ascii strip_ascii (rules worked_run) [" a"]%string 5
            !! 0%nat = Some "B"%string) as Hi by (vm_compute; reflexivity).
  assert (recommend lower_ascii strip_ascii (rules worked_run) [" a"]%string 5
            !! 1%nat = Some "C"%string) as Hj by (vm_compute; reflexivity).
  split; [exact Hnan|]. split; [exact Hij|]. split; [exact Hi|].
  split; [exact Hj|].
  exact (X18_recommend_ranked lower_ascii strip_ascii (rules worked_run)
           [" a"]%string 5 0 1 "B" "C" Hnan Hij Hi Hj).
Defined.

(** * Request validation ([frontend-api/app.py], [app.py])

    The body of a request is the value [request.get_json()] returns: a
    JSON value as Python holds it. *)

Inductive json : Type :=
  | JNull
  | JBool (b : bool)
  | JInt (z : Z)
  | JFloat (x : float)
  | JStr (s : string)
  | JList (l : list json)
  | JDict (d : list (string * json)).

(** The exceptions of the service layer. [DictKeyError] is Python's
    [KeyError], [NumberError] a [ValueError] or [OverflowError], as
    [int(float(s))] raises, [DecodeError] the error of [json.load] or
    [pickle.load] on a file of the other kind, [PlainException] a bare
    [Exception], [OSError] an error of the operating system other than a
    missing file. *)
Inductive error : Set :=
  | TypeError
  | DictKeyError
  | AttributeError
  | FileNotFoundError
  | DecodeError
  | NumberError
  | PlainException
  | OSError.

Inductive outcome (A : Type) : Type :=
  | Returns (a : A)
  | Raises (e : error).
Arguments Returns {A} a.
Arguments Raises {A} e.

(** [bool(v)]. *)
Definition truthy (v : json) : bool :=
  match v with
  | JNull => false
  | JBool b => b
  | JInt z => negb (Z.eqb z 0)
  | JFloat x => negb (PrimFloat.eqb x 0)
  | JStr s => negb (String.eqb s "")
  | JList l => match l with [] => false | _ => true end
  | JDict d => match d with [] => false | _ => true end
  end.

(** [needle in hay] on two strings. *)
Fixpoint contains (needle hay : string) : bool :=
  if String.prefix needle hay then true
  else match hay with
       | EmptyString => false
       | String _ hay' => contains needle hay'
       end.

(** [d.get(key)] on the pairs of a dictionary. *)
Fixpoint json_get (d : list (string * json)) (key : string) : option json :=
  match d with
  | [] => None
  | (k, v) :: d' => if String.eqb k key then Some v else json_get d' key
  end.

Definition is_str (key : string) (v : json) : bool :=
  match v with
  | JStr s => String.eqb s key
  | _ => false
  end.

(** [key in data]: key membership for a dictionary, element membership
    for a list, substring test for a string, [TypeError] otherwise. *)
Definition contains_key (key : string) (data : json) : outcome bool :=
  match data with
  | JDict d => Returns (bool_decide (is_Some (json_get d key)))
  | JList l => Returns (existsb (is_str key) l)
  | JStr s => Returns (contains key s)
  | _ => Raises TypeError
  end.

(** [data[key]] with a string key: only a dictionary can be indexed by a
    string. *)
Definition subscript (data : json) (key : string) : outcome json :=
  match data with
  | JDict d =>
      match json_get d key with
      | Some v => Returns v
      | None => Raises DictKeyError
      end
  | _ => Raises TypeError
  end.

(** The messages of the validators. *)
Inductive message : Set :=
  | SongsRequired      (* Campo 'songs' e obrigatorio *)
  | SongsNotList       (* 'songs' deve ser uma lista *)
  | SongsEmpty         (* 'songs' nao pode ser vazia *)
  | SongNotString      (* Cada musica deve ser uma string *)
  | SongBlank          (* Nome de musica nao pode ser vazio *)
  | BodyEmpty          (* Request body vazio *)
  | UrlRequired        (* Campo 'dataset_url' e obrigatorio *)
  | UrlInvalid.        (* URL invalida *)

Section Validation.

Variable strip : string → string.

(** The loop over the songs of [validate_recommend_request]. *)
Fixpoint check_songs (songs : list json) : bool * option message :=
  match songs with
  | [] => (true, None)
  | song :: rest =>
      match song with
      | JStr s =>
          if String.eqb (strip s) "" then (false, Some SongBlank)
          else check_songs rest
      | _ => (false, Some SongNotString)
      end
  end.

Definition validate_recommend_request (data : json)
  : outcome (bool * option message) :=
  if negb (truthy data) then Returns (false, Some SongsRequired)
  else
    match contains_key "songs" data with
    | Raises e => Raises e
    | Returns false => Returns (false, Some SongsRequired)
    | Returns true =>
        match subscript data "songs" with
        | Raises e => Raises e
        | Returns songs =>
            match songs with
            | JList l =>
                match l with
                | [] => Returns (false, Some SongsEmpty)
                | _ => Returns (check_songs l)
                end
            | _ => Returns (false, Some SongsNotList)
            end
        end
    end.

End Validation.

(** [validate_train_request] of [app.py]. *)
Definition validate_train_request (data : json)
  : outcome (bool * option message) :=
  if negb (truthy data) then Returns (false, Some BodyEmpty)
  else
    match contains_key "dataset_url" data with
    | Raises e => Raises e
    | Returns false => Returns (false, Some UrlRequired)
    | Returns true =>
        match subscript data "dataset_url" with
        | Raises e => Raises e
        | Returns url =>
            match url with
            | JStr u =>
                if String.prefix "http://" u || String.prefix "https://" u
                then Returns (true, None)
                else Returns (false, Some UrlInvalid)
            | _ => Returns (false, Some UrlInvalid)
            end
        end
    end.

(** A request body that is not a dictionary and on which the validators
    raise instead of answering. *)
Definition raising_body (key : string) (data : json) : Prop :=
  match data with
  | JBool b => b = true
  | JInt z => z ≠ 0
  | JFloat x => PrimFloat.eqb x 0 = false
  | JStr s => contains key s = true
  | JList l => ∃ v, v ∈ l ∧ v = JStr key
  | _ => False
  end.

Lemma check_songs_true strip l :
  check_songs strip l = (true, None) ↔
  ∀ v, v ∈ l → ∃ s, v = JStr s ∧ strip s ≠ ""%string.
Proof.
  induction l as [|v l IH]; cbn [check_songs].
  - split; [|done]. by intros _ ? ?%elem_of_nil.
  - destruct v as [|b|z|x|s|l'|d];
      try (split; [done|]; intros H; destruct (H _ (list_elem_of_here _ _))
             as (? & ? & _); discriminate).
    destruct (String.eqb_spec (strip s) "") as [Heq|Hne].
    + split; [done|]. intros H.
      destruct (H _ (list_elem_of_here _ _)) as (s' & [= <-] & ?). done.
    + rewrite IH. split.
      * intros H v [-> | Hv]%elem_of_cons; [by exists s | by apply H].
      * intros H v Hv. apply H. by right.
Qed.

Lemma existsb_is_str key l :
  existsb (is_str key) l = true ↔ ∃ v, v ∈ l ∧ v = JStr key.
Proof.
  rewrite existsb_exists. split.
  - intros (v & Hin%list_elem_of_In & Hv). exists v. split; [done|].
    destruct v; try discriminate. cbn in Hv.
    by apply String.eqb_eq in Hv as ->.
  - intros (v & Hin%list_elem_of_In & ->). exists (JStr key).
    split; [done|]. cbn. apply String.eqb_refl.
Qed.

Lemma truthy_contains key s : contains key s = true → key ≠ ""%string →
  negb (String.eqb s "") = true.
Proof.
  intros Hc Hk. destruct s; [|done].
  cbn in Hc. destruct key; [done|discriminate].
Qed.

(** X19: [validate_recommend_request] accepts a body exactly when it is a
    dictionary whose ['songs'] entry is a non-empty list of strings none of
    which is empty after [strip]. *)
Theorem X19_validate_recommend_accepts strip data :
  validate_recommend_request strip data = Returns (true, None) ↔
  ∃ d l, data = JDict d ∧ json_get d "songs" = Some (JList l) ∧ l ≠ [] ∧
         ∀ v, v ∈ l → ∃ s, v = JStr s ∧ strip s ≠ ""%string.
Proof.
  unfold validate_recommend_request. split.
  - destruct data as [|b|z|x|s|l|d]; cbn [truthy negb contains_key subscript];
      try done.
    + by destruct b.
    + by destruct (negb (Z.eqb z 0)).
    + by destruct (negb (PrimFloat.eqb x 0)).
    + destruct (negb (String.eqb s "")); [|done]. by destruct (contains _ _).
    + destruct l; [done|]. cbn [negb]. by destruct (existsb _ _).
    + destruct d as [|kv d]; [done|]. cbn [negb].
      destruct (json_get (kv :: d) "songs") as [v|] eqn:Hl;
        [|by rewrite bool_decide_eq_false_2 by by intros [? ?]].
      rewrite bool_decide_eq_true_2 by by eexists.
      destruct v as [| | | | |l|]; try done.
      destruct l as [|v l]; [done|]. intros H.
      assert (check_songs strip (v :: l) = (true, None)) as H'
        by congruence.
      pose proof (proj1 (check_songs_true _ _) H') as Hall.
      by exists (kv :: d), (v :: l).
  - intros (d & l & -> & Hl & Hne & Hall).
    destruct d as [|kv d]; [done|]. cbn [truthy negb contains_key subscript].
    rewrite Hl. rewrite bool_decide_eq_true_2 by by eexists.
    destruct l as [|v l]; [done|]. f_equal.
    by apply (proj2 (check_songs_true _ _)).
Qed.

Ltac raises_case :=
  split; [by intros ? [= <-] | split; [done | by eexists]].
Ltac returns_case :=
  split; [done | split; [by intros [? ?] | done]].

(** X20: [validate_recommend_request] raises, always a [TypeError],
    exactly on the bodies that are the boolean true, a non-zero number, a
    string containing [songs] or a list containing the string [songs]; on
    every other body, and on every dictionary, it returns an answer. *)
Theorem X20_validate_recommend_raises strip data :
  (∀ e, validate_recommend_request strip data = Raises e → e = TypeError) ∧
  ((∃ e, validate_recommend_request strip data = Raises e)
   ↔ raising_body "songs" data).
Proof.
  unfold validate_recommend_request, raising_body.
  destruct data as [|b|z|x|s|l|d]; cbn [truthy negb contains_key subscript].
  - returns_case.
  - destruct b; cbn [negb]; [raises_case | returns_case].
  - destruct (Z.eqb_spec z 0) as [->|Hne]; cbn [negb];
      [returns_case | raises_case].
  - destruct (PrimFloat.eqb x 0); cbn [negb]; [returns_case | raises_case].
  - destruct (contains "songs" s) eqn:Hc.
    + rewrite (truthy_contains _ _ Hc) by done. cbn [negb]. raises_case.
    + destruct (negb (String.eqb s "")); cbn [negb]; returns_case.
  - rewrite <- existsb_is_str.
    destruct l as [|v l]; cbn [negb]; [returns_case|].
    destruct (existsb (is_str "songs") (v :: l));
      [raises_case | returns_case].
  - destruct d as [|kv d]; cbn [negb]; [returns_case|].
    destruct (json_get (kv :: d) "songs") as [v|] eqn:Hl.
    + rewrite bool_decide_eq_true_2 by by eexists.
      destruct v as [| | | | |l|]; try returns_case.
      destruct l; returns_case.
    + rewrite bool_decide_eq_false_2 by by intros [? ?]. returns_case.
Qed.

(** X21: [validate_train_request] accepts a body exactly when it is a
    dictionary whose ['dataset_url'] entry is a string that starts with
    [http://] or [https://]; it never raises on a dictionary, and what it
    raises is a [TypeError]. *)
Theorem X21_validate_train_accepts data :
  (validate_train_request data = Returns (true, None) ↔
   ∃ d u, data = JDict d ∧ json_get d "dataset_url" = Some (JStr u) ∧
          (String.prefix "http://" u = true
           ∨ String.prefix "https://" u = true)) ∧
  (∀ e, validate_train_request data = Raises e →
        e = TypeError ∧ raising_body "dataset_url" data).
Proof.
  unfold validate_train_request, raising_body. split; [split|].
  - destruct data as [|b|z|x|s|l|d]; cbn [truthy negb contains_key subscript];
      try done.
    + by destruct b.
    + by destruct (negb (Z.eqb z 0)).
    + by destruct (negb (PrimFloat.eqb x 0)).
    + destruct (negb (String.eqb s "")); [|done]. by destruct (contains _ _).
    + destruct l; [done|]. cbn [negb]. by destruct (existsb _ _).
    + destruct d as [|kv d]; [done|]. cbn [negb].
      destruct (json_get (kv :: d) "dataset_url") as [v|] eqn:Hl;
        [|by rewrite bool_decide_eq_false_2 by by intros [? ?]].
      rewrite bool_decide_eq_true_2 by by eexists.
      destruct v as [| | | |u| |]; try done.
      destruct (String.prefix "http://" u || String.prefix "https://" u)
        eqn:Hp; [|done].
      intros _. exists (kv :: d), u. split; [done|]. split; [done|].
      by apply orb_true_iff.
  - intros (d & u & -> & Hl & Hp%orb_true_iff).
    destruct d as [|kv d]; [done|]. cbn [truthy negb contains_key subscript].
    rewrite Hl, Hp. by rewrite bool_decide_eq_true_2 by by eexists.
  - intros e.
    destruct data as [|b|z|x|s|l|d]; cbn [truthy negb contains_key subscript].
    + done.
    + destruct b; cbn [negb]; [by intros [= <-] | done].
    + destruct (Z.eqb_spec z 0) as [->|Hne]; cbn [negb];
        [done | by intros [= <-]].
    + destruct (PrimFloat.eqb x 0); cbn [negb]; [done | by intros [= <-]].
    + destruct (negb (String.eqb s "")); cbn [negb]; [|done].
      destruct (contains "dataset_url" s); [by intros [= <-] | done].
    + rewrite <- existsb_is_str. destruct l as [|v l]; cbn [negb]; [done|].
      destruct (existsb (is_str "dataset_url") (v :: l));
        [by intros [= <-] | done].
    + destruct d as [|kv d]; cbn [negb]; [done|].
      destruct (json_get (kv :: d) "dataset_url") as [v|] eqn:Hl.
      * rewrite bool_decide_eq_true_2 by by eexists.
        destruct v as [| | | |u| |]; try done.
        by destruct (String.prefix "http://" u || String.prefix "https://" u).
      * by rewrite bool_decide_eq_false_2 by by intros [? ?].
Qed.

(** * Model storage ([ModelManager], [ModelLoader])

    The training job pickles the dictionary of [get_results] into the
    models directory and records it in [metadata.json]; the recommendation
    service reads both. The directory is a finite map from paths to file
    contents; [pickle.load] gives back what [pickle.dump] was given, and
    [json.load] what [json.dump] was given. The time stamp, which the code
    takes from the clock, is an argument. For [ModelManager] a JSON file is
    the metadata dictionary in the form the class itself writes; for
    [ModelLoader], further down, it is any JSON value. *)

(** An entry of [metadata['models']]. *)
Record model_info : Type := ModelInfo {
  info_path : string;
  info_timestamp : string;
  info_num_rules : nat;
  info_num_itemsets : nat
}.

(** The content of [metadata.json]. *)
Record metadata : Type := Metadata {
  md_current_version : string;
  md_models : list (string * model_info)
}.

Inductive file : Type :=
  | JsonFile (m : metadata)
  | PickleFile (d : results).

Notation disk := (gmap string file).

(** [d[key] = info] on the dictionary of models. *)
Fixpoint models_set (d : list (string * model_info)) (key : string)
  (info : model_info) : list (string * model_info) :=
  match d with
  | [] => [(key, info)]
  | (k, v) :: d' =>
      if String.eqb k key then (k, info) :: d'
      else (k, v) :: models_set d' key info
  end.

(** [d.get(key)]. *)
Fixpoint models_get (d : list (string * model_info)) (key : string)
  : option model_info :=
  match d with
  | [] => None
  | (k, v) :: d' => if String.eqb k key then Some v else models_get d' key
  end.

Fixpoint ends_with_slash (s : string) : bool :=
  match s with
  | EmptyString => false
  | String c s' =>
      match s' with
      | EmptyString => Ascii.eqb c "/"%char
      | _ => ends_with_slash s'
      end
  end.

(** [os.path.join(a, b)] on POSIX paths. *)
Definition path_join (a b : string) : string :=
  if String.prefix "/" b then b
  else if String.eqb a "" then b
  else if ends_with_slash a then a +:+ b
  else a +:+ "/" +:+ b.

(** [str(z)] for an int. *)
Definition str_of_int (z : Z) : string := NilZero.string_of_int (Z.to_int z).

(** The f-string [f"{major}.0"]. *)
Definition version_string (major : Z) : string := str_of_int major +:+ ".0".

Definition metadata_file (models_dir : string) : string :=
  path_join models_dir "metadata.json".

Definition model_file (models_dir version : string) : string :=
  path_join models_dir ("association_rules_v" +:+ version +:+ ".pkl").

Definition initial_metadata : metadata := Metadata "0.0" [].

Definition _init_metadata (models_dir : string) (dk : disk) : disk :=
  <[metadata_file models_dir := JsonFile initial_metadata]> dk.

(** [_ensure_directories], and with it [ModelManager.__init__]. *)
Definition _ensure_directories (models_dir : string) (dk : disk) : disk :=
  match dk !! metadata_file models_dir with
  | Some _ => dk
  | None => _init_metadata models_dir dk
  end.

Definition get_metadata (models_dir : string) (dk : disk) : outcome metadata :=
  match dk !! metadata_file models_dir with
  | Some (JsonFile m) => Returns m
  | Some (PickleFile _) => Raises DecodeError
  | None => Returns initial_metadata
  end.

Section Storage.

(** [int(float(s))] on a string; [None] when it raises. *)
Variable int_of_float_str : string → option Z.

Definition get_next_version (models_dir : string) (dk : disk)
  : outcome string :=
  match get_metadata models_dir dk with
  | Raises e => Raises e
  | Returns m =>
      match int_of_float_str (md_current_version m) with
      | None => Raises NumberError
      | Some major => Returns (version_string (major + 1))
      end
  end.

(** [save_model]: the result and the directory afterwards. *)
Definition save_model (models_dir timestamp : string) (model_data : results)
  (n_rules n_itemsets : nat) (dk : disk)
  : outcome (string * string * string) * disk :=
  match get_next_version models_dir dk with
  | Raises e => (Raises e, dk)
  | Returns version =>
      let model_path := model_file models_dir version in
      let dk1 := <[model_path := PickleFile model_data]> dk in
      match get_metadata models_dir dk1 with
      | Raises e => (Raises e, dk1)
      | Returns m =>
          let m' :=
            Metadata version
              (models_set (md_models m) version
                 (ModelInfo model_path timestamp n_rules n_itemsets)) in
          (Returns (model_path, version, timestamp),
           <[metadata_file models_dir := JsonFile m']> dk1)
      end
  end.

End Storage.

(** ** What the recommendation service reads

    [ModelLoader] reads whatever [metadata.json] holds: any JSON value,
    not only the dictionary [ModelManager] writes. A file is therefore a
    JSON value or a pickled model, and the directory a finite map from
    paths to such files. *)

Inductive stored : Type :=
  | StoredJson (v : json)
  | StoredPickle (d : results).

Notation files := (gmap string stored).

(** What [json.dump] writes for an entry of [models] and for the metadata
    dictionary, with the keys in the order [save_model] and
    [_init_metadata] set them. *)
Definition json_of_info (info : model_info) : json :=
  JDict [("path"%string, JStr (info_path info));
         ("timestamp"%string, JStr (info_timestamp info));
         ("num_rules"%string, JInt (Z.of_nat (info_num_rules info)));
         ("num_itemsets"%string, JInt (Z.of_nat (info_num_itemsets info)))].

Definition json_of_metadata (m : metadata) : json :=
  JDict [("current_version"%string, JStr (md_current_version m));
         ("models"%string,
          JDict (map (λ kv, (kv.1, json_of_info kv.2)) (md_models m)))].

(** The directory as the service reads it. *)
Definition stored_of (f : file) : stored :=
  match f with
  | JsonFile m => StoredJson (json_of_metadata m)
  | PickleFile d => StoredPickle d
  end.

Definition contents (dk : disk) : files := stored_of <$> dk.

(** [data.get(key, dflt)] with a string key: only a dictionary has the
    method. *)
Definition get_or (data : json) (key : string) (dflt : json) : outcome json :=
  match data with
  | JDict d => Returns (default dflt (json_get d key))
  | _ => Raises AttributeError
  end.

(** [data.get(key)] where the key is itself a value read from JSON: the
    keys of a dictionary read from JSON are strings, so no other hashable
    key is found, and a list or a dictionary cannot be hashed. [None] is
    [JNull]. *)
Definition get_value (data key : json) : outcome json :=
  match data with
  | JDict d =>
      match key with
      | JStr k => Returns (default JNull (json_get d k))
      | JList _ | JDict _ => Raises TypeError
      | JNull | JBool _ | JInt _ | JFloat _ => Returns JNull
      end
  | _ => Raises AttributeError
  end.

(** The fields of a [ModelLoader]; [JNull] is [None]. *)
Record ModelLoader : Type := Loader {
  models_dir : string;
  current_model : option results;
  current_version : json;
  model_date : json
}.

(** [ModelLoader.__init__]. *)
Definition loader_init (dir : string) : ModelLoader :=
  Loader dir None JNull JNull.

Section Loading.

(** [pickle.load] on the file object of [open(n, 'rb')] for an integer
    [n], which Python takes as a file descriptor: what the process has open
    is outside the directory. *)
Variable read_descriptor : Z → outcome results.

(** [open(model_path, 'rb')] followed by [pickle.load]. *)
Definition open_pickle (fs : files) (model_path : json) : outcome results :=
  match model_path with
  | JStr p =>
      match fs !! p with
      | None => Raises FileNotFoundError
      | Some (StoredJson _) => Raises DecodeError
      | Some (StoredPickle d) => Returns d
      end
  | JInt n => read_descriptor n
  | JBool b => read_descriptor (if b then 1 else 0)
  | JNull | JFloat _ | JList _ | JDict _ => Raises TypeError
  end.

(** [load_latest_model]: the result and the loader afterwards. The two
    assignments to [current_model] and [current_version] come before
    [model_info['timestamp']] is read. *)
Definition load_latest_model (self : ModelLoader) (fs : files)
  : outcome results * ModelLoader :=
  match fs !! metadata_file (models_dir self) with
  | None => (Raises FileNotFoundError, self)
  | Some (StoredPickle _) => (Raises DecodeError, self)
  | Some (StoredJson metadata) =>
      match get_or metadata "current_version" (JStr "0.0") with
      | Raises e => (Raises e, self)
      | Returns version =>
          if is_str "0.0" version then (Raises FileNotFoundError, self)
          else
            match subscript metadata "models" with
            | Raises e => (Raises e, self)
            | Returns models =>
                match get_value models version with
                | Raises e => (Raises e, self)
                | Returns model_info =>
                    if negb (truthy model_info)
                    then (Raises PlainException, self)
                    else
                      match subscript model_info "path" with
                      | Raises e => (Raises e, self)
                      | Returns model_path =>
                          match open_pickle fs model_path with
                          | Raises e => (Raises e, self)
                          | Returns d =>
                              let self1 :=
                                Loader (models_dir self) (Some d) version
                                  (model_date self) in
                              match subscript model_info "timestamp" with
                              | Raises e => (Raises e, self1)
                              | Returns timestamp =>
                                  (Returns d,
                                   Loader (models_dir self) (Some d) version
                                     timestamp)
                              end
                          end
                      end
                end
            end
      end
  end.

End Loading.

Definition is_model_loaded (self : ModelLoader) : bool :=
  match current_model self with
  | Some _ => true
  | None => false
  end.

(** ** Paths and version strings *)

Lemma append_assoc (a b c : string) : (a +:+ b) +:+ c = a +:+ b +:+ c.
Proof.
  induction a as [|x a IH]; [done|].
  change (String x ((a +:+ b) +:+ c) = String x (a +:+ b +:+ c)).
  by f_equal.
Qed.

Lemma length_append (a b : string) :
  String.length (a +:+ b) = (String.length a + String.length b)%nat.
Proof.
  induction a as [|x a IH]; [done|].
  change (S (String.length (a +:+ b))
          = S (String.length a + String.length b)).
  by f_equal.
Qed.

Lemma append_inj_r (a b s : string) : a +:+ s = b +:+ s → a = b.
Proof.
  revert b. induction a as [|x a IH]; intros [|y b] H.
  - done.
  - apply (f_equal String.length) in H. rewrite !length_append in H.
    cbn [String.length] in H. lia.
  - apply (f_equal String.length) in H. rewrite !length_append in H.
    cbn [String.length] in H. lia.
  - change (String x (a +:+ s) = String y (b +:+ s)) in H.
    injection H as -> H. f_equal. by apply IH.
Qed.

(** What [os.path.join] puts in front of a relative name. *)
Definition dir_prefix (a : string) : string :=
  if String.eqb a "" then ""%string
  else if ends_with_slash a then a else a +:+ "/".

Lemma path_join_relative a b :
  String.prefix "/" b = false → path_join a b = dir_prefix a +:+ b.
Proof.
  intros Hb. unfold path_join, dir_prefix. rewrite Hb.
  destruct (String.eqb a ""); [done|].
  destruct (ends_with_slash a); [done|]. by rewrite append_assoc.
Qed.

Lemma metadata_model_distinct dir v : metadata_file dir ≠ model_file dir v.
Proof.
  unfold metadata_file, model_file. rewrite !path_join_relative by done.
  intros H%(inj (String.app _)). discriminate H.
Qed.

Lemma str_of_int_inj a b : str_of_int a = str_of_int b → a = b.
Proof.
  unfold str_of_int. intros H.
  assert (∀ z, NilZero.int_of_string (NilZero.string_of_int (Z.to_int z))
               = Some (Z.to_int z)) as Hisi.
  { intros z. apply NilZero.isi.
    - destruct z as [|p|p]; cbn; try discriminate.
      intros [= Hp]. by apply Unsigned.to_uint_nonnil in Hp.
    - destruct z as [|p|p]; cbn; try discriminate.
      intros [= Hp]. by apply Unsigned.to_uint_nonnil in Hp. }
  apply DecimalZ.to_int_inj.
  apply (f_equal NilZero.int_of_string) in H. rewrite !Hisi in H.
  by injection H.
Qed.

Lemma version_string_inj a b : version_string a = version_string b → a = b.
Proof. by intros ?%append_inj_r%str_of_int_inj. Qed.

Lemma version_string_0 : version_string 0 = "0.0"%string.
Proof. reflexivity. Qed.

(** ** The dictionary of models *)

Lemma models_get_set d key info :
  models_get (models_set d key info) key = Some info.
Proof.
  induction d as [|[k v] d IH]; cbn [models_set models_get].
  - by rewrite String.eqb_refl.
  - destruct (String.eqb_spec k key) as [->|Hne]; cbn [models_get].
    + by rewrite String.eqb_refl.
    + by rewrite (proj2 (String.eqb_neq k key) Hne).
Qed.

Lemma models_get_set_ne d key info key' :
  key ≠ key' → models_get (models_set d key info) key' = models_get d key'.
Proof.
  intros Hne. induction d as [|[k v] d IH]; cbn [models_set models_get].
  - by rewrite (proj2 (String.eqb_neq key key') Hne).
  - destruct (String.eqb_spec k key) as [->|Hk]; cbn [models_get].
    + by rewrite (proj2 (String.eqb_neq key key') Hne).
    + by rewrite IH.
Qed.

Lemma models_set_new d key info :
  key ∉ d.*1 → models_set d key info = d ++ [(key, info)].
Proof.
  induction d as [|[k v] d IH]; cbn [models_set fmap list_fmap fst app];
    [done|].
  rewrite not_elem_of_cons. intros [Hne Hin].
  rewrite (proj2 (String.eqb_neq k key)) by done. by rewrite IH.
Qed.

(** ** Saving a model *)

Lemma lookup_after_save (dk : disk) dir v (data : results) (m' : metadata) :
  (<[metadata_file dir := JsonFile m']>
     (<[model_file dir v := PickleFile data]> dk)) !! metadata_file dir
  = Some (JsonFile m') ∧
  (<[metadata_file dir := JsonFile m']>
     (<[model_file dir v := PickleFile data]> dk)) !! model_file dir v
  = Some (PickleFile data) ∧
  ∀ p, p ≠ metadata_file dir → p ≠ model_file dir v →
       (<[metadata_file dir := JsonFile m']>
          (<[model_file dir v := PickleFile data]> dk)) !! p
       = dk !! p.
Proof.
  pose proof (metadata_model_distinct dir v) as Hne.
  split; [apply lookup_insert_eq|]. split.
  - rewrite lookup_insert_ne by done. apply lookup_insert_eq.
  - intros p H1 H2. by rewrite !lookup_insert_ne.
Qed.

Lemma get_metadata_after_pickle dir v (data : results) (dk : disk) :
  get_metadata dir (<[model_file dir v := PickleFile data]> dk)
  = get_metadata dir dk.
Proof.
  unfold get_metadata. rewrite lookup_insert_ne; [done|].
  intros H. by apply (metadata_model_distinct dir v).
Qed.

(** X22: when [metadata.json] is absent or readable and
    [int(float(current_version))] is [n], [save_model] returns the version
    [f"{n+1}.0"], the path [association_rules_v{n+1}.0.pkl] in the models
    directory and the time stamp; afterwards that path holds the pickled
    model, [metadata.json] has the new version as [current_version] and the
    new entry under it in [models], and no other file has changed. *)
Theorem X22_save_model parse dir ts data nr ni dk m n :
  get_metadata dir dk = Returns m → parse (md_current_version m) = Some n →
  ∃ dk',
    save_model parse dir ts data nr ni dk
    = (Returns (model_file dir (version_string (n + 1)),
                version_string (n + 1), ts), dk') ∧
    dk' !! metadata_file dir
    = Some (JsonFile
              (Metadata (version_string (n + 1))
                 (models_set (md_models m) (version_string (n + 1))
                    (ModelInfo (model_file dir (version_string (n + 1)))
                       ts nr ni)))) ∧
    dk' !! model_file dir (version_string (n + 1)) = Some (PickleFile data) ∧
    ∀ p, p ≠ metadata_file dir →
         p ≠ model_file dir (version_string (n + 1)) → dk' !! p = dk !! p.
Proof.
  intros Hm Hn. unfold save_model, get_next_version.
  rewrite Hm, Hn, get_metadata_after_pickle, Hm.
  eexists. split; [reflexivity|]. apply lookup_after_save.
Qed.

Lemma X22_save_model_witness :
  get_metadata "/app/models/dev" (∅ : disk) = Returns initial_metadata ∧
  (λ s : string, if String.eqb s "0.0" then Some 0 else None)
    (md_current_version initial_metadata) = Some 0 ∧
  ∃ dk',
    save_model (λ s : string, if String.eqb s "0.0" then Some 0 else None)
      "/app/models/dev" "2025-11-09T20:00:00" (get_results worked_run) 6 6 ∅
    = (Returns (model_file "/app/models/dev" (version_string (0 + 1)),
                version_string (0 + 1), "2025-11-09T20:00:00"%string), dk') ∧
    dk' !! metadata_file "/app/models/dev"
    = Some (JsonFile
              (Metadata (version_string (0 + 1))
                 (models_set (md_models initial_metadata)
                    (version_string (0 + 1))
                    (ModelInfo
                       (model_file "/app/models/dev" (version_string (0 + 1)))
                       "2025-11-09T20:00:00" 6 6)))) ∧
    dk' !! model_file "/app/models/dev" (version_string (0 + 1))
    = Some (PickleFile (get_results worked_run)) ∧
    ∀ p, p ≠ metadata_file "/app/models/dev" →
         p ≠ model_file "/app/models/dev" (version_string (0 + 1)) →
         dk' !! p = (∅ : disk) !! p.
Proof.
  assert (get_metadata "/app/models/dev" (∅ : disk)
          = Returns initial_metadata) as Hm by reflexivity.
  assert ((λ s : string, if String.eqb s "0.0" then Some 0 else None)
            (md_current_version initial_metadata) = Some 0) as Hn
    by reflexivity.
  split; [exact Hm|]. split; [exact Hn|].
  exact (X22_save_model
           (λ s : string, if String.eqb s "0.0" then Some 0 else None)
           "/app/models/dev" "2025-11-09T20:00:00" (get_results worked_run)
           6 6 ∅ initial_metadata 0 Hm Hn).
Defined.

(** ** Loading the latest model *)

Lemma version_string_nonzero n : n ≠ 0 → version_string n ≠ "0.0"%string.
Proof.
  intros Hn H. apply Hn. apply version_string_inj. by rewrite version_string_0.
Qed.

Lemma json_get_models d key :
  json_get (map (λ kv, (kv.1, json_of_info kv.2)) d) key
  = json_of_info <$> models_get d key.
Proof.
  induction d as [|[k v] d IH]; cbn [map json_get models_get fst snd]; [done|].
  destruct (String.eqb k key); [done | apply IH].
Qed.

(** Loading from a directory whose [metadata.json] is as [ModelManager]
    writes it. *)
Lemma load_written rd self (dk : disk) m info d :
  dk !! metadata_file (models_dir self) = Some (JsonFile m) →
  md_current_version m ≠ "0.0"%string →
  models_get (md_models m) (md_current_version m) = Some info →
  dk !! info_path info = Some (PickleFile d) →
  load_latest_model rd self (contents dk)
  = (Returns d,
     Loader (models_dir self) (Some d) (JStr (md_current_version m))
       (JStr (info_timestamp info))).
Proof.
  intros Hm Hv Hi Hf. unfold load_latest_model, contents.
  rewrite lookup_fmap, Hm.
  change (stored_of <$> Some (JsonFile m))
    with (Some (StoredJson (json_of_metadata m))).
  cbv beta iota.
  change (get_or (json_of_metadata m) "current_version" (JStr "0.0"))
    with (Returns (JStr (md_current_version m)) : outcome json).
  cbv beta iota. cbn [is_str]. rewrite (proj2 (String.eqb_neq _ _) Hv).
  change (subscript (json_of_metadata m) "models")
    with (Returns (JDict (map (λ kv, (kv.1, json_of_info kv.2)) (md_models m)))
          : outcome json).
  cbv beta iota. cbn [get_value]. rewrite json_get_models, Hi.
  change (default JNull (json_of_info <$> Some info)) with (json_of_info info).
  cbv beta iota.
  change (truthy (json_of_info info)) with true.
  change (subscript (json_of_info info) "path")
    with (Returns (JStr (info_path info)) : outcome json).
  change (subscript (json_of_info info) "timestamp")
    with (Returns (JStr (info_timestamp info)) : outcome json).
  cbv beta iota.
  cbn [negb open_pickle]. rewrite lookup_fmap, Hf. reflexivity.
Qed.

(** X23: the model that [save_model] has just written is the one that
    [load_latest_model] returns from the same directory, provided the new
    version is not ["0.0"]; the loader then holds the model, the new version
    and the time stamp of the save. *)
Theorem X23_save_then_load parse rd dir ts data nr ni dk m n self :
  get_metadata dir dk = Returns m → parse (md_current_version m) = Some n →
  n + 1 ≠ 0 → models_dir self = dir →
  load_latest_model rd self
    (contents (save_model parse dir ts data nr ni dk).2)
  = (Returns data,
     Loader dir (Some data) (JStr (version_string (n + 1))) (JStr ts)).
Proof.
  intros Hm Hn Hne <-.
  unfold save_model, get_next_version.
  rewrite Hm, Hn, get_metadata_after_pickle, Hm. cbn [snd].
  destruct (lookup_after_save dk (models_dir self) (version_string (n + 1))
              data
              (Metadata (version_string (n + 1))
                 (models_set (md_models m) (version_string (n + 1))
                    (ModelInfo
                       (model_file (models_dir self) (version_string (n + 1)))
                       ts nr ni)))) as (Hmeta & Hfile & _).
  apply (load_written rd self _ _
           (ModelInfo (model_file (models_dir self) (version_string (n + 1)))
              ts nr ni) data Hmeta).
  - by apply version_string_nonzero.
  - apply models_get_set.
  - exact Hfile.
Qed.

Lemma X23_save_then_load_witness :
  get_metadata "/app/models" (∅ : disk) = Returns initial_metadata ∧
  (λ s : string, if String.eqb s "0.0" then Some 0 else None)
    (md_current_version initial_metadata) = Some 0 ∧
  0 + 1 ≠ 0 ∧
  models_dir (loader_init "/app/models") = "/app/models"%string ∧
  load_latest_model (λ _, Raises OSError) (loader_init "/app/models")
    (contents
       (save_model (λ s : string, if String.eqb s "0.0" then Some 0 else None)
          "/app/models" "2025-11-09T20:00:00" (get_results worked_run) 6 6 ∅).2)
  = (Returns (get_results worked_run),
     Loader "/app/models" (Some (get_results worked_run))
       (JStr (version_string (0 + 1))) (JStr "2025-11-09T20:00:00")).
Proof.
  assert (get_metadata "/app/models" (∅ : disk) = Returns initial_metadata)
    as Hm by reflexivity.
  assert ((λ s : string, if String.eqb s "0.0" then Some 0 else None)
            (md_current_version initial_metadata) = Some 0) as Hn
    by reflexivity.
  assert (0 + 1 ≠ 0) as Hne by lia.
  assert (models_dir (loader_init "/app/models") = "/app/models"%string)
    as Hdir by reflexivity.
  split; [exact Hm|]. split; [exact Hn|]. split; [exact Hne|].
  split; [exact Hdir|].
  exact (X23_save_then_load
           (λ s : string, if String.eqb s "0.0" then Some 0 else None)
           (λ _, Raises OSError)
           "/app/models" "2025-11-09T20:00:00" (get_results worked_run)
           6 6 ∅ initial_metadata 0 (loader_init "/app/models")
           Hm Hn Hne Hdir).
Defined.

(** The situation in which a model is found: [metadata.json] holds a
    dictionary whose [current_version] is a string [v] other than ["0.0"],
    whose [models] is a dictionary with a dictionary [info] under [v], and
    [info] has a [path] that opens to the pickled model [d]. *)
Definition latest (rd : Z → outcome results) (self : ModelLoader) (fs : files)
  (v : string) (info : list (string * json)) (d : results) : Prop :=
  ∃ md models pth,
    fs !! metadata_file (models_dir self) = Some (StoredJson (JDict md)) ∧
    json_get md "current_version" = Some (JStr v) ∧ v ≠ "0.0"%string ∧
    json_get md "models" = Some (JDict models) ∧
    json_get models v = Some (JDict info) ∧
    json_get info "path" = Some pth ∧
    open_pickle rd fs pth = Returns d.

Lemma load_latest rd self fs v info d :
  latest rd self fs v info d →
  load_latest_model rd self fs
  = match json_get info "timestamp" with
    | Some ts => (Returns d, Loader (models_dir self) (Some d) (JStr v) ts)
    | None =>
        (Raises DictKeyError,
         Loader (models_dir self) (Some d) (JStr v) (model_date self))
    end.
Proof.
  intros (md & models & pth & Hm & Hv & Hne & Hmods & Hinfo & Hp & Hop).
  unfold load_latest_model. rewrite Hm. cbn [get_or]. rewrite Hv.
  cbn [from_option id is_str]. rewrite (proj2 (String.eqb_neq _ _) Hne).
  cbn [subscript]. rewrite Hmods. cbn [get_value]. rewrite Hinfo.
  cbn [from_option id].
  assert (truthy (JDict info) = true) as ->
    by (destruct info; [discriminate Hp | done]).
  cbn [negb subscript]. rewrite Hp, Hop.
  by destruct (json_get info "timestamp").
Qed.

Ltac load_fails := cbn; intros [= <- <-]; left; eauto.

Lemma load_latest_model_inv rd self fs out self' :
  load_latest_model rd self fs = (out, self') →
  (∃ e, out = Raises e ∧ self' = self) ∨
  ∃ v info d, latest rd self fs v info d.
Proof.
  unfold load_latest_model.
  destruct (fs !! metadata_file (models_dir self)) as [[metadata|?]|] eqn:Hm;
    [|load_fails..].
  destruct metadata as [| | | | | |md]; cbn [get_or]; [load_fails..|].
  destruct (json_get md "current_version") as [version|] eqn:Hv;
    cbn [from_option id]; [|load_fails].
  destruct version as [| | | |v| |]; cbn [is_str subscript].
  1-4, 6-7: destruct (json_get md "models") as [[]|]; load_fails.
  destruct (String.eqb_spec v "0.0") as [->|Hne]; [load_fails|].
  destruct (json_get md "models") as [models|] eqn:Hmods; [|load_fails].
  destruct models as [| | | | | |models]; cbn [get_value]; [load_fails..|].
  destruct (json_get models v) as [model_info|] eqn:Hinfo;
    cbn [from_option id];
    [|load_fails].
  destruct model_info as [|b|z|x|s|l|info]; cbn [truthy negb subscript].
  - load_fails.
  - destruct b; load_fails.
  - destruct (negb (Z.eqb z 0)); load_fails.
  - destruct (negb (PrimFloat.eqb x 0)); load_fails.
  - destruct (negb (String.eqb s "")); load_fails.
  - destruct l; load_fails.
  - destruct info as [|kv info]; [load_fails|]. cbn [negb].
    destruct (json_get (kv :: info) "path") as [pth|] eqn:Hp; [|load_fails].
    destruct (open_pickle rd fs pth) as [d|e] eqn:Hop; [|load_fails].
    intros _. right. exists v, (kv :: info), d, md, models, pth. done.
Qed.

(** X24: [load_latest_model] returns a model exactly when [metadata.json]
    holds a dictionary whose [current_version] is a string other than
    ["0.0"], whose [models] is a dictionary with a dictionary under that
    version, and that entry has a [path] that opens to a pickled model and a
    [timestamp]; the loader then holds the model, the version and the time
    stamp. Without [metadata.json], or with [current_version] absent or
    equal to ["0.0"], it raises [FileNotFoundError] and the loader is
    unchanged. When it raises, the loader is unchanged except in one case:
    an entry without [timestamp] makes it raise [KeyError] after the loader
    has taken the new model and the new version, while keeping the old
    date. A path that is a string opens to a model exactly when the
    directory has a pickled model there. *)
Theorem X24_load_latest_model rd self fs :
  (∀ d self',
     load_latest_model rd self fs = (Returns d, self') ↔
     ∃ v info ts,
       latest rd self fs v info d ∧ json_get info "timestamp" = Some ts ∧
       self' = Loader (models_dir self) (Some d) (JStr v) ts) ∧
  (fs !! metadata_file (models_dir self) = None →
   load_latest_model rd self fs = (Raises FileNotFoundError, self)) ∧
  (∀ md,
     fs !! metadata_file (models_dir self) = Some (StoredJson (JDict md)) →
     json_get md "current_version" = None ∨
     json_get md "current_version" = Some (JStr "0.0") →
     load_latest_model rd self fs = (Raises FileNotFoundError, self)) ∧
  (∀ e self',
     load_latest_model rd self fs = (Raises e, self') →
     self' = self ∨
     e = DictKeyError ∧
     ∃ v info d,
       latest rd self fs v info d ∧ json_get info "timestamp" = None ∧
       self' = Loader (models_dir self) (Some d) (JStr v) (model_date self)) ∧
  (∀ v info d,
     latest rd self fs v info d → json_get info "timestamp" = None →
     load_latest_model rd self fs
     = (Raises DictKeyError,
        Loader (models_dir self) (Some d) (JStr v) (model_date self))) ∧
  (∀ p d,
     open_pickle rd fs (JStr p) = Returns d ↔
     fs !! p = Some (StoredPickle d)).
Proof.
  split; [|split; [|split; [|split; [|split]]]].
  - intros d self'. split.
    + intros H.
      destruct (load_latest_model_inv _ _ _ _ _ H)
        as [(e & [=] & _) | (v & info & d0 & Hl)].
      rewrite (load_latest _ _ _ _ _ _ Hl) in H.
      destruct (json_get info "timestamp") as [ts|] eqn:Hts; [|discriminate].
      injection H as -> <-. by exists v, info, ts.
    + intros (v & info & ts & Hl & Hts & ->).
      by rewrite (load_latest _ _ _ _ _ _ Hl), Hts.
  - unfold load_latest_model. by intros ->.
  - unfold load_latest_model. intros md -> [Hv|Hv]; cbn [get_or];
      by rewrite Hv.
  - intros e self' H.
    destruct (load_latest_model_inv _ _ _ _ _ H)
      as [(e' & _ & ->) | (v & info & d & Hl)]; [by left|].
    rewrite (load_latest _ _ _ _ _ _ Hl) in H.
    destruct (json_get info "timestamp") as [ts|] eqn:Hts; [discriminate|].
    injection H as <- <-. right. split; [done|]. by exists v, info, d.
  - intros v info d Hl Hts. by rewrite (load_latest _ _ _ _ _ _ Hl), Hts.
  - intros p d. cbn [open_pickle].
    destruct (fs !! p) as [[?|d']|]; split; intros [=]; by subst.
Qed.

(** A directory whose only entry of [models] has no [timestamp]. *)
Definition undated : files :=
  {[ "/app/models/metadata.json"%string :=
       StoredJson
         (JDict [("current_version"%string, JStr "1.0");
                 ("models"%string,
                  JDict [("1.0"%string,
                          JDict [("path"%string,
                                  JStr "/app/models/m.pkl")])])]);
     "/app/models/m.pkl"%string := StoredPickle (get_results worked_run) ]}.

Lemma X24_load_latest_model_witness :
  load_latest_model (λ _, Raises OSError) (loader_init "/app/models") undated
  = (Raises DictKeyError,
     Loader "/app/models" (Some (get_results worked_run)) (JStr "1.0") JNull).
Proof.
  assert (latest (λ _, Raises OSError) (loader_init "/app/models") undated
            "1.0" [("path"%string, JStr "/app/models/m.pkl")]
            (get_results worked_run)) as Hl.
  { eexists _, _, _. split; [by vm_compute|]. split; [reflexivity|].
    split; [done|]. split; [reflexivity|]. split; [reflexivity|].
    split; [reflexivity|]. by vm_compute. }
  destruct (X24_load_latest_model (λ _, Raises OSError)
              (loader_init "/app/models") undated)
    as (_ & _ & _ & _ & Hraise & _).
  exact (Hraise _ _ _ Hl eq_refl).
Defined.

(** ** Successive training runs *)

Section Training.

Variable int_of_float_str : string → option Z.

(** Step 3 of [train_and_save_model]: a new [ModelManager] on the models
    directory, then [save_model] with the counts of the results. *)
Definition store (models_dir timestamp : string) (res : results) (dk : disk)
  : outcome (string * string * string) * disk :=
  save_model int_of_float_str models_dir timestamp res
    (num_rules res) (num_itemsets res) (_ensure_directories models_dir dk).

(** Steps 2 and 3 of [train_and_save_model], on the playlists that step 1
    has read: whether the job succeeded, and the directory afterwards. The
    source fixes the directory to [/app/models/dev]. *)
Definition train_and_save_model (models_dir timestamp : string)
  (playlists : list (list string)) (dk : disk) : bool * disk :=
  match fit init playlists with
  | Raise _ => (false, dk)
  | Ok eclat =>
      match store models_dir timestamp (get_results eclat) dk with
      | (Returns _, dk') => (true, dk')
      | (Raises _, dk') => (false, dk')
      end
  end.

(** The directory after a sequence of runs of step 3. *)
Fixpoint store_all (models_dir : string) (jobs : list (string * results))
  (dk : disk) : disk :=
  match jobs with
  | [] => dk
  | (timestamp, res) :: rest =>
      store_all models_dir rest (store models_dir timestamp res dk).2
  end.

End Training.

(** The versions [1.0] to [j.0]. *)
Definition versions_upto (j : nat) : list string :=
  map (λ i, version_string (Z.of_nat i)) (seq 1 j).

Lemma get_metadata_ensure dir (dk : disk) :
  get_metadata dir (_ensure_directories dir dk) = get_metadata dir dk.
Proof.
  unfold _ensure_directories, get_metadata, _init_metadata.
  destruct (dk !! metadata_file dir) as [f|] eqn:H; [by rewrite H|].
  by rewrite lookup_insert_eq.
Qed.

Lemma ensure_directories_other dir (dk : disk) p :
  p ≠ metadata_file dir → _ensure_directories dir dk !! p = dk !! p.
Proof.
  intros Hp. unfold _ensure_directories, _init_metadata.
  destruct (dk !! metadata_file dir); [done|]. by rewrite lookup_insert_ne.
Qed.

Lemma model_file_inj dir v1 v2 : model_file dir v1 = model_file dir v2 → v1 = v2.
Proof.
  unfold model_file. rewrite !path_join_relative by done.
  intros H%(inj (String.app _))%(inj (String.app _)).
  by apply append_inj_r in H.
Qed.

Lemma elem_of_versions_upto j v :
  v ∈ versions_upto j ↔ ∃ i, (1 ≤ i ≤ j)%nat ∧ v = version_string (Z.of_nat i).
Proof.
  unfold versions_upto. change (map ?f ?l) with (f <$> l).
  rewrite list_elem_of_fmap. split.
  - intros (i & -> & Hi%elem_of_seq). exists i. split; [lia | done].
  - intros (i & Hi & ->). exists i. split; [done|]. apply elem_of_seq. lia.
Qed.

Lemma versions_upto_S j :
  versions_upto (S j) = versions_upto j ++ [version_string (Z.of_nat (S j))].
Proof. unfold versions_upto. by rewrite seq_S, map_app. Qed.

(** What one run of step 3 does to a directory whose metadata lists the
    versions [1.0] to [j.0]. *)
Lemma store_step parse dir ts res (dk : disk) (j : nat) infos :
  dk !! metadata_file dir
  = Some (JsonFile (Metadata (version_string (Z.of_nat j)) infos)) →
  infos.*1 = versions_upto j →
  parse (version_string (Z.of_nat j)) = Some (Z.of_nat j) →
  (store parse dir ts res dk).2 !! metadata_file dir
  = Some (JsonFile
            (Metadata (version_string (Z.of_nat (S j)))
               (infos ++
                [(version_string (Z.of_nat (S j)),
                  ModelInfo (model_file dir (version_string (Z.of_nat (S j))))
                    ts (num_rules res) (num_itemsets res))]))) ∧
  (store parse dir ts res dk).2
    !! model_file dir (version_string (Z.of_nat (S j)))
  = Some (PickleFile res) ∧
  ∀ p, p ≠ metadata_file dir →
       p ≠ model_file dir (version_string (Z.of_nat (S j))) →
       (store parse dir ts res dk).2 !! p = dk !! p.
Proof.
  intros Hm Hkeys Hparse.
  assert (get_metadata dir dk
          = Returns (Metadata (version_string (Z.of_nat j)) infos)) as Hget
    by (unfold get_metadata; by rewrite Hm).
  unfold store, save_model, get_next_version.
  rewrite get_metadata_ensure, Hget. cbn [md_current_version md_models].
  rewrite Hparse.
  replace (Z.of_nat j + 1) with (Z.of_nat (S j)) by lia.
  rewrite get_metadata_after_pickle, get_metadata_ensure, Hget.
  cbn [snd md_models].
  rewrite models_set_new.
  2:{ rewrite Hkeys.
      intros (i & Hi & Heq%version_string_inj)%elem_of_versions_upto. lia. }
  destruct (lookup_after_save (_ensure_directories dir dk) dir
              (version_string (Z.of_nat (S j))) res
              (Metadata (version_string (Z.of_nat (S j)))
                 (infos ++
                  [(version_string (Z.of_nat (S j)),
                    ModelInfo
                      (model_file dir (version_string (Z.of_nat (S j))))
                      ts (num_rules res) (num_itemsets res))])))
    as (H1 & H2 & H3).
  split; [done|]. split; [done|].
  intros p Hp1 Hp2. rewrite H3 by done. by apply ensure_directories_other.
Qed.

Lemma models_get_app_l d d' key info :
  models_get d key = Some info → models_get (d ++ d') key = Some info.
Proof.
  induction d as [|[k v] d IH]; cbn [models_get app]; [done|].
  destruct (String.eqb k key); [done | apply IH].
Qed.

Lemma models_get_app_new d key info :
  key ∉ d.*1 → models_get (d ++ [(key, info)]) key = Some info.
Proof.
  intros Hk. rewrite <- (models_set_new d key info Hk). apply models_get_set.
Qed.

Lemma store_all_inv parse dir jobs : ∀ (j : nat) (dk : disk) infos,
  dk !! metadata_file dir
  = Some (JsonFile (Metadata (version_string (Z.of_nat j)) infos)) →
  infos.*1 = versions_upto j →
  (∀ i, (j ≤ i < j + length jobs)%nat →
        parse (version_string (Z.of_nat i)) = Some (Z.of_nat i)) →
  ∃ infos',
    store_all parse dir jobs dk !! metadata_file dir
    = Some (JsonFile
              (Metadata (version_string (Z.of_nat (j + length jobs))) infos')) ∧
    infos'.*1 = versions_upto (j + length jobs) ∧
    (∀ v info, models_get infos v = Some info →
               models_get infos' v = Some info) ∧
    (∀ p, p ≠ metadata_file dir →
          (∀ i, (j < i ≤ j + length jobs)%nat →
                p ≠ model_file dir (version_string (Z.of_nat i))) →
          store_all parse dir jobs dk !! p = dk !! p) ∧
    ∀ i ts res, jobs !! i = Some (ts, res) →
      store_all parse dir jobs dk
        !! model_file dir (version_string (Z.of_nat (j + i + 1)))
      = Some (PickleFile res) ∧
      models_get infos' (version_string (Z.of_nat (j + i + 1)))
      = Some (ModelInfo
                (model_file dir (version_string (Z.of_nat (j + i + 1))))
                ts (num_rules res) (num_itemsets res)).
Proof.
  induction jobs as [|[ts res] jobs IH]; intros j dk infos Hm Hkeys Hparse.
  - exists infos. cbn [store_all length]. rewrite Nat.add_0_r.
    split; [done|]. split; [done|]. split; [done|]. split; [done|].
    intros i ts res Hi. by rewrite lookup_nil in Hi.
  - cbn [store_all length].
    destruct (store_step parse dir ts res dk j infos Hm Hkeys)
      as (Hm1 & Hf1 & Ho1); [apply Hparse; cbn [length]; lia|].
    assert (version_string (Z.of_nat (S j)) ∉ infos.*1) as Hnew.
    { rewrite Hkeys.
      intros (i & Hi & Heq%version_string_inj)%elem_of_versions_upto. lia. }
    destruct (IH (S j) (store parse dir ts res dk).2 _ Hm1) as
      (infos' & Hm' & Hkeys' & Hold' & Hother' & Hfiles').
    { rewrite fmap_app, Hkeys. cbn [fmap list_fmap fst].
      by rewrite versions_upto_S. }
    { intros i Hi. apply Hparse. cbn [length]. lia. }
    replace (j + S (length jobs))%nat with (S j + length jobs)%nat by lia.
    exists infos'. split; [done|]. split; [done|]. split; [|split].
    + intros v' info' Hget. by apply Hold', models_get_app_l.
    + intros p Hp Hfilesne. rewrite Hother'; [|done|].
      * apply Ho1; [done|]. apply Hfilesne. lia.
      * intros i Hi. apply Hfilesne. lia.
    + intros [|i] ts' res' Hjob.
      * injection Hjob as <- <-.
        replace (j + 0 + 1)%nat with (S j) by lia. split.
        -- rewrite Hother'; [done | apply not_eq_sym, metadata_model_distinct|].
           intros i Hi Heq%model_file_inj%version_string_inj. lia.
        -- apply Hold'. by apply models_get_app_new.
      * replace (j + S i + 1)%nat with (S j + i + 1)%nat by lia.
        by apply Hfiles'.
Qed.

(** X25: on a directory without [metadata.json], a [ModelManager] is
    created and [k] runs of step 3 of the training job follow. Then
    [current_version] is [k.0]; [models] has exactly the keys [1.0] to
    [k.0], in this order; and for every run the file
    [association_rules_v{i}.0.pkl] of its version still holds the model of
    that run, recorded with its path, time stamp and counts. This needs
    [int(float(f"{i}.0")) = i] for the versions below [k]. *)
Theorem X25_store_all_versions parse dir jobs (dk : disk) :
  dk !! metadata_file dir = None →
  (∀ i, (i < length jobs)%nat →
        parse (version_string (Z.of_nat i)) = Some (Z.of_nat i)) →
  ∃ infos,
    store_all parse dir jobs (_ensure_directories dir dk) !! metadata_file dir
    = Some (JsonFile
              (Metadata (version_string (Z.of_nat (length jobs))) infos)) ∧
    infos.*1 = versions_upto (length jobs) ∧
    ∀ i ts res, jobs !! i = Some (ts, res) →
      store_all parse dir jobs (_ensure_directories dir dk)
        !! model_file dir (version_string (Z.of_nat (i + 1)))
      = Some (PickleFile res) ∧
      models_get infos (version_string (Z.of_nat (i + 1)))
      = Some (ModelInfo (model_file dir (version_string (Z.of_nat (i + 1))))
                ts (num_rules res) (num_itemsets res)).
Proof.
  intros Hfresh Hparse.
  assert (_ensure_directories dir dk !! metadata_file dir
          = Some (JsonFile (Metadata (version_string (Z.of_nat 0)) [])))
    as Hm.
  { unfold _ensure_directories, _init_metadata. rewrite Hfresh.
    by rewrite lookup_insert_eq. }
  destruct (store_all_inv parse dir jobs 0 (_ensure_directories dir dk) []
              Hm eq_refl) as (infos & Hm' & Hkeys & _ & _ & Hfiles).
  { intros i Hi. apply Hparse. lia. }
  exists infos. split; [done|]. split; [done|].
  intros i ts res Hjob. by apply (Hfiles i ts res).
Qed.

(** [int(float(s))] on the two version strings of the examples. *)
Definition parse_two (s : string) : option Z :=
  if String.eqb s "0.0" then Some 0
  else if String.eqb s "1.0" then Some 1 else None.

Definition two_jobs : list (string * results) :=
  [("2025-11-09T20:00:00"%string, get_results worked_run);
   ("2025-11-10T08:30:00"%string, get_results small_fit)].

Lemma X25_store_all_versions_witness :
  (∅ : disk) !! metadata_file "/app/models/dev" = None ∧
  (∀ i, (i < length two_jobs)%nat →
        parse_two (version_string (Z.of_nat i)) = Some (Z.of_nat i)) ∧
  ∃ infos,
    store_all parse_two "/app/models/dev" two_jobs
      (_ensure_directories "/app/models/dev" ∅)
      !! metadata_file "/app/models/dev"
    = Some (JsonFile
              (Metadata (version_string (Z.of_nat (length two_jobs))) infos)) ∧
    infos.*1 = versions_upto (length two_jobs) ∧
    ∀ i ts res, two_jobs !! i = Some (ts, res) →
      store_all parse_two "/app/models/dev" two_jobs
        (_ensure_directories "/app/models/dev" ∅)
        !! model_file "/app/models/dev" (version_string (Z.of_nat (i + 1)))
      = Some (PickleFile res) ∧
      models_get infos (version_string (Z.of_nat (i + 1)))
      = Some (ModelInfo
                (model_file "/app/models/dev"
                   (version_string (Z.of_nat (i + 1))))
                ts (num_rules res) (num_itemsets res)).
Proof.
  assert ((∅ : disk) !! metadata_file "/app/models/dev" = None) as Hfresh
    by apply lookup_empty.
  assert (∀ i, (i < length two_jobs)%nat →
            parse_two (version_string (Z.of_nat i)) = Some (Z.of_nat i))
    as Hparse.
  { intros [|[|i]] Hi; [reflexivity | reflexivity | cbn in Hi; lia]. }
  split; [exact Hfresh|]. split; [exact Hparse|].
  exact (X25_store_all_versions parse_two "/app/models/dev" two_jobs ∅
           Hfresh Hparse).
Defined.

(** ** From training to loading *)

Lemma default_threshold_positive txs :
  20 ≤ Z.of_nat (length txs) < 2 ^ 53 →
  ∃ k, min_count 0.05 txs = Ok k ∧ 1 ≤ k.
Proof.
  intros [H20 Hn].
  assert (unit_interval 0.05) as Hms by (split; reflexivity).
  destruct (min_count_spec 0.05 txs Hms Hn) as (k & Hk & _).
  exists k. split; [done|].
  apply (min_count_lower 0.05 txs k 1 Hms Hn Hk).
  assert ((1 # 20) <= value 0.05)%Q as Hv by (by vm_compute).
  apply (IEEE.inject_Z_le 20) in H20.
  apply Qle_trans with ((1 # 20) * inject_Z 20)%Q; [by vm_compute|].
  apply Qle_trans with ((1 # 20) * inject_Z (Z.of_nat (length txs)))%Q.
  - apply Qmult_le_l; [done | done].
  - apply Qmult_le_compat_r; [done|].
    apply Qle_trans with (inject_Z 20); [by vm_compute | done].
Qed.

(** X26: on at least 20 and fewer than 2^53 playlists, steps 2 and 3 of
    the training job succeed whenever [metadata.json] is absent or readable
    and its [current_version] converts to an int [n] other than -1; the
    recommendation service then loads from the same directory exactly the
    dictionary that [get_results] returned after [fit], under the version
    [f"{n+1}.0"] and the time stamp of the run. *)
Theorem X26_train_then_load parse rd dir ts playlists (dk : disk) m n :
  20 ≤ Z.of_nat (length playlists) < 2 ^ 53 →
  get_metadata dir dk = Returns m → parse (md_current_version m) = Some n →
  n + 1 ≠ 0 →
  ∃ s,
    fit init playlists = Ok s ∧
    (train_and_save_model parse dir ts playlists dk).1 = true ∧
    load_latest_model rd (loader_init dir)
      (contents (train_and_save_model parse dir ts playlists dk).2)
    = (Returns (get_results s),
       Loader dir (Some (get_results s)) (JStr (version_string (n + 1)))
         (JStr ts)).
Proof.
  intros Hlen Hm Hn Hne.
  destruct (default_threshold_positive playlists Hlen) as (k & Hk & Hpos).
  destruct (fit init playlists) as [s|e] eqn:Hfit.
  2:{ destruct (fit_Raise_inv 0.05 0.3 playlists e (proj2 Hlen) Hfit)
        as [[Hr _] | (_ & k' & Hk' & Hle)]; [congruence|].
      assert (k' = k) by congruence. lia. }
  exists s. split; [done|].
  unfold train_and_save_model. rewrite Hfit.
  unfold store, save_model, get_next_version.
  rewrite get_metadata_ensure, Hm, Hn, get_metadata_after_pickle,
    get_metadata_ensure, Hm.
  cbn [fst snd]. split; [done|].
  destruct (lookup_after_save (_ensure_directories dir dk) dir
              (version_string (n + 1)) (get_results s)
              (Metadata (version_string (n + 1))
                 (models_set (md_models m) (version_string (n + 1))
                    (ModelInfo (model_file dir (version_string (n + 1)))
                       ts (num_rules (get_results s))
                       (num_itemsets (get_results s))))))
    as (Hmeta & Hfile & _).
  apply (load_written rd (loader_init dir) _ _
           (ModelInfo (model_file dir (version_string (n + 1))) ts
              (num_rules (get_results s)) (num_itemsets (get_results s)))
           (get_results s) Hmeta).
  - by apply version_string_nonzero.
  - apply models_get_set.
  - exact Hfile.
Qed.

Lemma X26_train_then_load_witness :
  20 ≤ Z.of_nat (length (replicate 20 ["A"%string])) < 2 ^ 53 ∧
  get_metadata "/app/models" (∅ : disk) = Returns initial_metadata ∧
  parse_two (md_current_version initial_metadata) = Some 0 ∧
  0 + 1 ≠ 0 ∧
  ∃ s,
    fit init (replicate 20 ["A"%string]) = Ok s ∧
    (train_and_save_model parse_two "/app/models" "2025-11-09T20:00:00"
       (replicate 20 ["A"%string]) ∅).1 = true ∧
    load_latest_model (λ _, Raises OSError) (loader_init "/app/models")
      (contents
         (train_and_save_model parse_two "/app/models" "2025-11-09T20:00:00"
            (replicate 20 ["A"%string]) ∅).2)
    = (Returns (get_results s),
       Loader "/app/models" (Some (get_results s))
         (JStr (version_string (0 + 1))) (JStr "2025-11-09T20:00:00")).
Proof.
  assert (20 ≤ Z.of_nat (length (replicate 20 ["A"%string])) < 2 ^ 53) as Hlen
    by (simpl; lia).
  assert (get_metadata "/app/models" (∅ : disk) = Returns initial_metadata)
    as Hm by reflexivity.
  assert (parse_two (md_current_version initial_metadata) = Some 0) as Hn
    by reflexivity.
  assert (0 + 1 ≠ 0) as Hne by lia.
  split; [exact Hlen|]. split; [exact Hm|]. split; [exact Hn|].
  split; [exact Hne|].
  exact (X26_train_then_load parse_two (λ _, Raises OSError) "/app/models"
           "2025-11-09T20:00:00" (replicate 20 ["A"%string]) ∅
           initial_metadata 0 Hlen Hm Hn Hne).
Defined.

(** * The endpoint [/api/recommender] ([frontend-api/app.py]) *)

(** The answers of the endpoint: the JSON body, next to the status code. *)
Inductive response : Type :=
  | Songs (songs : list string) (version date : json)
  | NoModel                        (* No trained model available *)
  | Invalid (msg : option message)
  | Failed (e : error).

Section Endpoint.

Variable lower strip : string → string.

(** The strings of the list [input_songs], as [recommend] reads them:
    [s.lower()] on an element that is not a string raises. *)
Fixpoint input_strings (l : list json) : outcome (list string) :=
  match l with
  | [] => Returns []
  | JStr s :: rest =>
      match input_strings rest with
      | Returns ss => Returns (s :: ss)
      | Raises e => Raises e
      end
  | _ :: _ => Raises AttributeError
  end.

(** The view function [recommend] on a loader and the parsed body of the
    request. In the last case the validator has established that
    [data['songs']] is a list. *)
Definition recommend_endpoint (loader : ModelLoader) (data : json)
  : response * Z :=
  match current_model loader with
  | None => (NoModel, 503)
  | Some model =>
      match validate_recommend_request strip data with
      | Raises e => (Failed e, 500)
      | Returns (false, msg) => (Invalid msg, 400)
      | Returns (true, _) =>
          match subscript data "songs" with
          | Raises e => (Failed e, 500)
          | Returns (JList l) =>
              match input_strings l with
              | Raises e => (Failed e, 500)
              | Returns input_songs =>
                  (Songs (recommend lower strip (res_rules model)
                            input_songs 5)
                     (current_version loader) (model_date loader), 200)
              end
          | Returns _ => (Failed TypeError, 500)
          end
      end
  end.

End Endpoint.

Lemma check_songs_strs strip l msg :
  check_songs strip l = (true, msg) → ∃ songs, l = JStr <$> songs.
Proof.
  induction l as [|v l IH]; cbn [check_songs]; [by exists []|].
  destruct v as [| | | |s| |]; try done.
  destruct (String.eqb (strip s) ""); [done|].
  intros [songs ->]%IH. by exists (s :: songs).
Qed.

Lemma input_strings_strs songs : input_strings (JStr <$> songs) = Returns songs.
Proof.
  induction songs as [|s songs IH]; cbn [fmap list_fmap input_strings];
    [done|].
  change (list_fmap string json JStr songs) with (JStr <$> songs).
  by rewrite IH.
Qed.

Lemma validate_recommend_true strip data msg :
  validate_recommend_request strip data = Returns (true, msg) →
  ∃ d songs, data = JDict d ∧
             json_get d "songs" = Some (JList (JStr <$> songs)).
Proof.
  unfold validate_recommend_request.
  destruct data as [|b|z|x|s|l|d]; cbn [truthy negb contains_key subscript];
    try done.
  - by destruct b.
  - by destruct (negb (Z.eqb z 0)).
  - by destruct (negb (PrimFloat.eqb x 0)).
  - destruct (negb (String.eqb s "")); [|done]. by destruct (contains _ _).
  - destruct l; [done|]. cbn [negb]. by destruct (existsb _ _).
  - destruct d as [|kv d]; [done|]. cbn [negb].
    destruct (json_get (kv :: d) "songs") as [v|] eqn:Hl;
      [|by rewrite bool_decide_eq_false_2 by by intros [? ?]].
    rewrite bool_decide_eq_true_2 by by eexists.
    destruct v as [| | | | |l|]; try done.
    destruct l as [|v l]; [done|]. intros H.
    assert (check_songs strip (v :: l) = (true, msg)) as H' by congruence.
    destruct (check_songs_strs _ _ _ H') as [songs Hs].
    exists (kv :: d), songs. by rewrite Hl, Hs.
Qed.

(** X27: without a loaded model the endpoint answers 503. With one, it
    answers 500 with the exception when the validator raises, 400 with the
    validator's message when the validator rejects the body, and otherwise
    200: the body is then a dictionary whose ['songs'] entry is a list of
    strings, and the answer carries what [recommend] returns for these
    strings with [top_n = 5], with the version and date of the loader. *)
Theorem X27_recommend_endpoint lower strip loader data :
  (current_model loader = None →
   recommend_endpoint lower strip loader data = (NoModel, 503)) ∧
  ∀ model, current_model loader = Some model →
    (∀ e, validate_recommend_request strip data = Raises e →
          recommend_endpoint lower strip loader data = (Failed e, 500)) ∧
    (∀ msg, validate_recommend_request strip data = Returns (false, msg) →
            recommend_endpoint lower strip loader data = (Invalid msg, 400)) ∧
    (∀ msg, validate_recommend_request strip data = Returns (true, msg) →
       ∃ d songs,
         data = JDict d ∧
         json_get d "songs" = Some (JList (JStr <$> songs)) ∧
         recommend_endpoint lower strip loader data
         = (Songs (recommend lower strip (res_rules model) songs 5)
              (current_version loader) (model_date loader), 200)).
Proof.
  unfold recommend_endpoint. split; [by intros ->|].
  intros model ->. split; [by intros e ->|]. split; [by intros msg ->|].
  intros msg Hv.
  destruct (validate_recommend_true strip data msg Hv)
    as (d & songs & -> & Hget).
  exists d, songs. split; [done|]. split; [done|].
  rewrite Hv. cbn [subscript]. rewrite Hget.
  by rewrite input_strings_strs.
Qed.
